(** * Suggestion engine of the Milkdown suggestions app

    A shallow embedding of the backend suggestion service
    ([services/suggestionService.js], [utils/diffCalculator.js],
    [utils/suggestionRules.js]) and of the frontend reconciliation routine
    ([applyChangesToContent] in [EditorWithSuggestions.jsx]), followed by the
    properties of the design document that they decide.  The request
    validation ([middleware/validation.js]), the handlers of the editor
    component, the highlighter ([DiffHighlighter.jsx]) and the summary of
    the panel ([SuggestionPanel.jsx]) are embedded as well, with properties
    of their own.

    Conventions.
    - A JavaScript string is the list of its code units; the embedding covers
      the code units below 256, written as [ascii].  Lengths and offsets are
      integers ([Z]), as [String.prototype.slice] accepts any of them.
    - [diffWords] comes from the npm package [diff] and [uuidv4] from [uuid];
      neither is part of the repository.  Both are parameters of the embedded
      functions: [diffWords] as a function from two strings to a list of
      change objects, [uuidv4] as a supply indexed by the number of draws made
      so far, threaded through every function that draws from it.
    - JavaScript numbers in [calculateConfidence] and in the length-ratio test
      of [getReasonForChange] are taken as exact rationals ([Q]). *)

From Stdlib Require Import List String Ascii ZArith Lia Bool QArith Qround.
From Stdlib Require Import Sorted Permutation Lqa.
Import ListNotations.

Set Implicit Arguments.

(* ================================================================== *)
(** * JavaScript string primitives *)
(* ================================================================== *)

Module JS.

Definition jsstring := list ascii.

(** String literals. *)
Definition str (s : string) : jsstring := list_ascii_of_string s.

(** [s.length] *)
Definition len (s : jsstring) : Z := Z.of_nat (List.length s).

(** [a === b] on strings. *)
Fixpoint eqb (a b : jsstring) : bool :=
  match a, b with
  | [], [] => true
  | x :: a', y :: b' => Ascii.eqb x y && eqb a' b'
  | _, _ => false
  end.

(** Index normalisation of [slice]: a negative index counts from the end,
    and the result is clamped to [0, len]. *)
Definition clamp_index (l i : Z) : Z :=
  if (i <? 0)%Z then Z.max (l + i) 0 else Z.min i l.

(** [s.slice(from, to)] *)
Definition slice (s : jsstring) (from to : Z) : jsstring :=
  let l := len s in
  let f := clamp_index l from in
  let t := clamp_index l to in
  firstn (Z.to_nat (Z.max (t - f) 0)) (skipn (Z.to_nat f) s).

(** [s.slice(from)] *)
Definition slice_from (s : jsstring) (from : Z) : jsstring :=
  slice s from (len s).

Definition code (c : ascii) : nat := nat_of_ascii c.

Definition between (lo hi : nat) (c : ascii) : bool :=
  (lo <=? code c)%nat && (code c <=? hi)%nat.

(** [\w] is [A-Za-z0-9_]. *)
Definition isWord (c : ascii) : bool :=
  between 65 90 c || between 97 122 c || between 48 57 c
  || (code c =? 95)%nat.

(** [\s] below 256: tab, line feed, vertical tab, form feed, carriage
    return, space and no-break space. *)
Definition isSpace (c : ascii) : bool :=
  between 9 13 c || (code c =? 32)%nat || (code c =? 160)%nat.

(** Upper-case letters below 256 that have a lower-case form 32 above. *)
Definition isUpper (c : ascii) : bool :=
  between 65 90 c || (between 192 222 c && negb (code c =? 215)%nat).

Definition isLower (c : ascii) : bool :=
  between 97 122 c || (between 224 254 c && negb (code c =? 247)%nat).

Definition lowerChar (c : ascii) : ascii :=
  if isUpper c then ascii_of_nat (code c + 32) else c.

(** [Canonicalize] of the [i] flag: the upper-case form when it is a single
    code unit of the same range. *)
Definition canonicalize (c : ascii) : ascii :=
  if isLower c then ascii_of_nat (code c - 32) else c.

(** [s.toLowerCase()] *)
Definition toLowerCase (s : jsstring) : jsstring := map lowerChar s.

(** [a.split(/\s+/)]: the pieces between maximal runs of white space; a
    leading or trailing run leaves an empty piece. *)
Fixpoint split_spaces_from (s : jsstring) (cur : jsstring) (insep : bool)
  : list jsstring :=
  match s with
  | [] => [rev cur]
  | c :: t =>
      if isSpace c then
        if insep then split_spaces_from t cur true
        else rev cur :: split_spaces_from t [] true
      else split_spaces_from t (c :: cur) false
  end.

Definition split_spaces (s : jsstring) : list jsstring :=
  split_spaces_from s [] false.

(** Outcome of a call: normal completion or a thrown value. *)
Inductive completion (A E : Type) : Type :=
| Normal (a : A)
| Throw (e : E).
Arguments Normal {A E} a.
Arguments Throw {A E} e.

End JS.

(* ================================================================== *)
(** * Regular expressions

    The fragment of ECMAScript regular expressions that the repository
    uses: literals, the classes [\w], [\s] and bracket classes, sequence,
    alternation, greedy [*] and [+], one capturing group, [\b], negative
    lookahead and negative lookbehind, with the [i] flag.  Matching is the
    backtracking search of the language definition, in continuation-passing
    style. *)
(* ================================================================== *)

Module RegExp.
Import JS.

Inductive item : Type :=
| Word
| Space
| Lit (c : ascii).

Inductive regex : Type :=
| Eps
| Chr (c : ascii)
| Cls (negated : bool) (items : list item)
| Seq (r1 r2 : regex)
| Alt (r1 r2 : regex)
| Star (r : regex)
| Group (r : regex)
| Boundary
| NotAhead (r : regex)
| NotBehind (r : regex).

Definition Plus (r : regex) : regex := Seq r (Star r).

(** The characters of [s] in sequence. *)
Definition lit (s : string) : regex :=
  fold_right (fun c r => Seq (Chr c) r) Eps (str s).

(** [(a|b|...)] without the capture. *)
Definition alts (rs : list regex) : regex :=
  match rs with
  | [] => Eps
  | r :: rest => fold_left Alt rest r
  end.

(** [[abc]] and [[^abc]]. *)
Definition oneOf (s : string) : regex := Cls false (map Lit (str s)).
Definition noneOf (s : string) : regex := Cls true (map Lit (str s)).

Definition seqs (rs : list regex) : regex := fold_right Seq Eps rs.

(** [\bword\b] *)
Definition whole (w : string) : regex := seqs [Boundary; lit w; Boundary].

(** Range of the first capturing group, when it took part in the match. *)
Definition capture := option (nat * nat).

Section Matching.
Variable ignoreCase : bool.
Variable input : jsstring.

Definition charAt (i : nat) : option ascii := nth_error input i.

Definition same (a b : ascii) : bool :=
  if ignoreCase then Ascii.eqb (canonicalize a) (canonicalize b)
  else Ascii.eqb a b.

Definition item_matches (ch : ascii) (it : item) : bool :=
  match it with
  | Word => isWord ch
  | Space => isSpace ch
  | Lit c => same c ch
  end.

Definition isWordAt (i : nat) : bool :=
  match charAt i with
  | Some c => isWord c
  | None => false
  end.

Definition atBoundary (i : nat) : bool :=
  xorb (match i with O => false | S j => isWordAt j end) (isWordAt i).

Definition state : Type := nat * capture.

(** [m r i cap k]: match [r] at index [i], then continue with [k]; the
    first success in backtracking order is the result. *)
Fixpoint m (r : regex) (i : nat) (cap : capture)
         (k : nat -> capture -> option state) {struct r} : option state :=
  match r with
  | Eps => k i cap
  | Chr c =>
      match charAt i with
      | Some ch => if same c ch then k (S i) cap else None
      | None => None
      end
  | Cls negated items =>
      match charAt i with
      | Some ch =>
          if xorb negated (existsb (item_matches ch) items)
          then k (S i) cap else None
      | None => None
      end
  | Seq r1 r2 => m r1 i cap (fun j c => m r2 j c k)
  | Alt r1 r2 =>
      match m r1 i cap k with
      | Some s => Some s
      | None => m r2 i cap k
      end
  | Star r' =>
      (fix loop (fuel : nat) (i : nat) (cap : capture) : option state :=
         match
           match fuel with
           | O => None
           | S f =>
               m r' i cap
                 (fun j c => if (i <? j)%nat then loop f j c else None)
           end
         with
         | Some s => Some s
         | None => k i cap
         end) (S (List.length input)) i cap
  | Group r' => m r' i cap (fun j c => k j (Some (i, j)))
  | Boundary => if atBoundary i then k i cap else None
  | NotAhead r' =>
      match m r' i cap (fun j c => Some (j, c)) with
      | Some _ => None
      | None => k i cap
      end
  | NotBehind r' =>
      if existsb
           (fun j =>
              match
                m r' j cap
                  (fun e c => if (e =? i)%nat then Some (e, c) else None)
              with
              | Some _ => true
              | None => false
              end)
           (seq 0 (S i))
      then None else k i cap
  end.

Definition sub (from to : nat) : jsstring :=
  firstn (to - from) (skipn from input).

(** First match starting at [from], [from + 1], ..., [from + fuel]. *)
Fixpoint searchFrom (r : regex) (fuel from : nat)
  : option (nat * nat * capture) :=
  match m r from None (fun j c => Some (j, c)) with
  | Some (e, c) => Some (from, e, c)
  | None =>
      match fuel with
      | O => None
      | S f => searchFrom r f (S from)
      end
  end.

(** [regex.exec(input)] with [lastIndex] given. *)
Definition exec (r : regex) (lastIndex : nat)
  : option (nat * nat * capture) :=
  if (lastIndex <=? List.length input)%nat
  then searchFrom r (List.length input - lastIndex) lastIndex
  else None.

(** [regex.test(input)] for a regex without the [g] flag. *)
Definition test (r : regex) : bool :=
  match exec r 0 with
  | Some _ => true
  | None => false
  end.

(** Replacement text: literal text and [$1]. *)
Inductive piece : Type :=
| Text (s : jsstring)
| Ref1.

Definition substitute (template : list piece) (cap : capture)
  : jsstring :=
  List.concat
    (map (fun p =>
            match p with
            | Text s => s
            | Ref1 =>
                match cap with
                | Some (a, b) => sub a b
                | None => []
                end
            end) template).

Fixpoint replaceLoop (r : regex) (template : list piece)
         (fuel pos : nat) : jsstring :=
  match fuel with
  | O => skipn pos input
  | S f =>
      match exec r pos with
      | None => skipn pos input
      | Some (st, en, cap) =>
          sub pos st ++ substitute template cap ++
          (if (en =? st)%nat
           then sub st (S st) ++ replaceLoop r template f (S st)
           else replaceLoop r template f en)
      end
  end.

(** [input.replace(r, template)] for [r] with the [g] flag. *)
Definition replaceAll (r : regex) (template : list piece) : jsstring :=
  replaceLoop r template (S (List.length input)) 0.

(** [input.replace(r, template)] for [r] without the [g] flag. *)
Definition replaceFirst (r : regex) (template : list piece) : jsstring :=
  match exec r 0 with
  | None => input
  | Some (st, en, cap) =>
      sub 0 st ++ substitute template cap ++ skipn en input
  end.
End Matching.

(** [text.replace(/r/gi, replacement)] with a plain replacement string. *)
Definition replace_gi (r : regex) (replacement : string) (text : jsstring)
  : jsstring :=
  replaceAll true text r [Text (str replacement)].

End RegExp.

(* ================================================================== *)
(** * utils/suggestionRules.js *)
(* ================================================================== *)

Module SuggestionRules.
Import JS RegExp.

(** The optional [context] object of a request: its string properties. *)
Definition context := list (jsstring * jsstring).

Fixpoint property (ctx : context) (key : jsstring) : option jsstring :=
  match ctx with
  | [] => None
  | (k, v) :: rest => if eqb k key then Some v else property rest key
  end.

Record RuleSpec := mkRule {
  name : jsstring;
  condition : option (jsstring -> context -> bool);
  apply : jsstring -> context -> jsstring
}.

(** The loop [for (const [from, to] of Object.entries(table))] that
    replaces every match of [pattern from] by [to]. *)
Definition replaceEntries (pattern : string -> regex)
           (table : list (string * string)) (text : jsstring) : jsstring :=
  fold_left (fun result entry =>
               replace_gi (pattern (fst entry)) (snd entry) result)
            table text.

Definition spaces1 : regex := Plus (Cls false [Space]).
Definition spaces0 : regex := Star (Cls false [Space]).

Definition improvementRules : list RuleSpec :=
  [ mkRule (str "Enhance weak adjectives") None
      (fun text _ =>
         replaceEntries whole
           [ ("good", "excellent"); ("nice", "exceptional");
             ("big", "substantial"); ("small", "minimal");
             ("fast", "lightning-fast"); ("slow", "deliberate");
             ("bad", "suboptimal"); ("very good", "outstanding");
             ("pretty good", "impressive") ]%string text);
    mkRule (str "Replace basic with comprehensive") None
      (fun text _ => replace_gi (whole "basic") "comprehensive" text);
    mkRule (str "Add professional modifiers")
      (Some (fun _ ctx =>
               match property ctx (str "tone") with
               | Some t => eqb t (str "professional")
               | None => false
               end))
      (fun text _ =>
         replaceEntries
           (fun noun =>
              Seq (NotBehind (Seq (Cls false [Word]) (Chr " "))) (whole noun))
           [ ("solution", "innovative solution");
             ("product", "cutting-edge product");
             ("service", "premium service");
             ("approach", "strategic approach") ]%string text);
    mkRule (str "Expand abbreviated forms") None
      (fun text _ =>
         replace_gi (whole "pic") "picture"
           (replace_gi (whole "info") "information"
              (replace_gi (whole "app") "application" text))) ].

Definition collective (nouns : list string) (verb : string) : regex :=
  seqs [Boundary; Group (alts (map lit nouns)); lit verb; Boundary].

Definition grammarRules : list RuleSpec :=
  let nouns := ["team"; "group"; "committee"; "company"]%string in
  [ mkRule (str "Subject-verb agreement (collective nouns)") None
      (fun text _ =>
         let t1 := replaceAll true text (collective nouns " are")
                     [Ref1; Text (str " is")] in
         replaceAll true t1 (collective nouns " were")
           [Ref1; Text (str " was")]);
    mkRule (str "Possessive vs contraction") None
      (fun text _ =>
         let t1 :=
           replaceAll true text
             (seqs [Boundary; lit "theyre"; spaces1;
                    Group (Plus (Cls false [Word]))])
             [Text (str "their "); Ref1] in
         replaceAll true t1
           (seqs [Boundary; lit "its"; spaces1;
                  NotAhead (Seq (Chr "a") Boundary)])
           [Text (str "it's ")]);
    mkRule (str "Past participle corrections") None
      (fun text _ =>
         replace_gi (whole "has came") "has come"
           (replace_gi (whole "has ran") "has run"
              (replace_gi (whole "has did") "has done"
                 (replace_gi (whole "has went") "has gone" text))));
    mkRule (str "Article usage") None
      (fun text _ =>
         let t1 :=
           replaceAll true text
             (seqs [Boundary; lit "a"; spaces1; Group (oneOf "aeiou")])
             [Text (str "an "); Ref1] in
         replaceAll true t1
           (seqs [Boundary; lit "an"; spaces1; Group (noneOf "aeiou")])
           [Text (str "a "); Ref1]);
    mkRule (str "Double negatives") None
      (fun text _ =>
         replace_gi (whole "won't never") "will never"
           (replace_gi (whole "can't hardly") "can hardly"
              (replace_gi (whole "don't have no") "don't have any" text)));
    mkRule (str "Comma splice fixes") None
      (fun text _ =>
         replace_gi (seqs [spaces0; lit ","; spaces0; lit "but"; spaces1])
           ", but "
           (replace_gi (seqs [spaces0; lit ","; spaces0; lit "and"; spaces1])
              ", and " text)) ].

(** [/\bword\s+/gi] replaced by the empty string. *)
Definition dropModifier (w : string) (text : jsstring) : jsstring :=
  replace_gi (seqs [Boundary; lit w; spaces1]) "" text.

Definition simplificationRules : list RuleSpec :=
  [ mkRule (str "Replace complex words") None
      (fun text _ =>
         replaceEntries whole
           [ ("utilize", "use"); ("facilitate", "help");
             ("endeavor", "try"); ("commence", "start");
             ("terminate", "end"); ("demonstrate", "show");
             ("sufficient", "enough"); ("subsequently", "later");
             ("prior to", "before"); ("in order to", "to");
             ("due to the fact that", "because");
             ("at this point in time", "now");
             ("in the event that", "if"); ("with regard to", "about");
             ("methodology", "method"); ("implement", "do");
             ("optimization", "improvement");
             ("state-of-the-art", "modern"); ("cutting-edge", "advanced");
             ("revolutionary", "new") ]%string text);
    mkRule (str "Remove unnecessary modifiers") None
      (fun text _ =>
         dropModifier "basically"
           (dropModifier "actually"
              (dropModifier "just"
                 (dropModifier "quite"
                    (dropModifier "really"
                       (dropModifier "very" text))))));
    mkRule (str "Simplify compound words") None
      (fun text _ =>
         replace_gi (whole "by means of") "by"
           (replace_gi (whole "in spite of the fact that") "although"
              (replace_gi (whole "for the purpose of") "to"
                 (replace_gi (whole "in accordance with") "following"
                    text)))) ].

(** [text.replace(/\bword\b/g, replacement)], case-sensitive. *)
Definition replace_g (w replacement : string) (text : jsstring)
  : jsstring :=
  replaceAll false text (whole w) [Text (str replacement)].

Definition expansionRules : list RuleSpec :=
  [ mkRule (str "Add descriptive details") None
      (fun text _ =>
         replaceEntries
           (fun simple =>
              seqs [Boundary; lit simple; Boundary; NotAhead (Chr ",")])
           [ ("fast", "fast, with response times under 100ms");
             ("easy", "easy to use, with an intuitive interface");
             ("powerful",
              "powerful, capable of handling complex workflows");
             ("reliable", "reliable, with 99.9% uptime");
             ("secure", "secure, using industry-standard encryption");
             ("efficient", "efficient, optimizing resource usage")
           ]%string text);
    mkRule (str "Expand abbreviations with context") None
      (fun text _ =>
         replace_g "CTA" "CTA (Call To Action)"
           (replace_g "UX" "UX (User Experience)"
              (replace_g "UI" "UI (User Interface)"
                 (replace_g "API" "API (Application Programming Interface)"
                    text))));
    mkRule (str "Add examples")
      (Some (fun text _ => (len text <? 200)%Z))
      (fun text _ =>
         let feature := Seq Boundary (lit "feature") in
         let benefit := Seq Boundary (lit "benefit") in
         if test true text feature && negb (test true text (whole "such as"))
         then replaceFirst true text feature
                [Text (str "feature, such as real-time collaboration")]
         else if test true text benefit
                 && negb (test true text (whole "including"))
         then replaceFirst true text benefit
                [Text (str "benefit, including increased productivity")]
         else text);
    mkRule (str "Add quantitative details") None
      (fun text _ =>
         replace_gi (whole "large database")
           "database with millions of records"
           (replace_gi (whole "quick response")
              "response in under 2 seconds"
              (replace_gi (whole "many users") "over 10,000 users"
                 text))) ].

(** ** getRulesByType: throws [new Error(message)] on any other type. *)
Definition getRulesByType (type : jsstring)
  : completion (list RuleSpec) jsstring :=
  if eqb type (str "improve") then Normal improvementRules
  else if eqb type (str "grammar") then Normal grammarRules
  else if eqb type (str "simplify") then Normal simplificationRules
  else if eqb type (str "expand") then Normal expansionRules
  else Throw (str "Unknown rule type: " ++ type).

End SuggestionRules.

(* ================================================================== *)
(** * utils/diffCalculator.js *)
(* ================================================================== *)

Module DiffCalculator.
Import JS RegExp.

(** A change object returned by [diffWords].  [added] and [removed] are
    absent (falsy) on an unchanged part. *)
Module Part.
Record t := mk {
  value : jsstring;
  added : bool;
  removed : bool
}.
End Part.

Record Position := mkPosition {
  start : Z;
  end_ : Z
}.

Record Change := mkChange {
  id : jsstring;
  type : jsstring;
  position : Position;
  original : jsstring;
  suggested : jsstring;
  reason : jsstring
}.

Definition ADDITION : jsstring := str "addition".
Definition DELETION : jsstring := str "deletion".
Definition MODIFICATION : jsstring := str "modification".

(** ** isGrammarCorrection *)

Definition subjects (names : list string) (verb : string) : regex :=
  seqs [Boundary; Group (alts (map lit names)); lit verb; Boundary].

Definition grammarPatterns : list (regex * regex) :=
  let collective := ["team"; "group"; "committee"]%string in
  let pronoun := ["he"; "she"; "it"]%string in
  [ (subjects collective " are", subjects collective " is");
    (subjects pronoun " were", subjects pronoun " was");
    (whole "theyre", whole "their");
    (seqs [Boundary; lit "its"; Boundary; NotAhead (Chr "'")],
     whole "it's");
    (whole "has went", whole "has gone");
    (whole "has did", whole "has done") ].

Definition isGrammarCorrection (original suggested : jsstring) : bool :=
  existsb (fun pattern =>
             test false original (fst pattern)
             && test false suggested (snd pattern))
          grammarPatterns.

(** ** getGrammarReason *)

Definition getGrammarReason (original suggested : jsstring) : jsstring :=
  let collective := ["team"; "group"; "committee"]%string in
  if test false original (subjects collective " are")
     && test false suggested (subjects collective " is")
  then str "Subject-verb agreement: collective noun is singular"
  else if test false original (whole "theyre")
          && test false suggested (whole "their")
  then str "Possessive pronoun required"
  else if test false original (whole "has went")
          && test false suggested (whole "has gone")
  then str "Correct past participle"
  else str "Grammar correction".

(** ** isWordChoiceImprovement *)

Definition improvements : list (string * string) :=
  [ ("utilize", "use"); ("facilitate", "help"); ("endeavor", "try");
    ("commence", "start"); ("terminate", "end"); ("good", "excellent");
    ("nice", "pleasant"); ("big", "substantial"); ("small", "minimal")
  ]%string.

Fixpoint lookup (table : list (string * string)) (word : jsstring)
  : option jsstring :=
  match table with
  | [] => None
  | (k, v) :: rest =>
      if eqb (str k) word then Some (str v) else lookup rest word
  end.

(** [words.some((word, i) => ...)], [i] counted from [index]. *)
Fixpoint someIndexed (f : jsstring -> nat -> bool) (words : list jsstring)
         (index : nat) : bool :=
  match words with
  | [] => false
  | word :: rest => f word index || someIndexed f rest (S index)
  end.

Definition isWordChoiceImprovement (original suggested : jsstring)
  : bool :=
  let originalWords := split_spaces original in
  let suggestedWords := split_spaces suggested in
  someIndexed
    (fun word i =>
       match lookup improvements word with
       | Some betterWord =>
           match nth_error suggestedWords i with
           | Some w => eqb w betterWord
           | None => false
           end
       | None => false
       end)
    originalWords 0.

(** ** getReasonForChange *)

(** [/\b(innovative|exceptional|comprehensive)\b/] *)
Definition emphasisWords : regex :=
  seqs [Boundary;
        Group (alts [lit "innovative"; lit "exceptional";
                     lit "comprehensive"]);
        Boundary].

(** [/\b(very|really|quite|just)\b/] *)
Definition fillerWords : regex :=
  seqs [Boundary;
        Group (alts [lit "very"; lit "really"; lit "quite"; lit "just"]);
        Boundary].

(** [a > b] on numbers. *)
Definition gt (a b : Q) : bool := negb (Qle_bool a b).

Definition number (z : Z) : Q := inject_Z z.

Definition getReasonForChange (type original suggested : jsstring)
  : jsstring :=
  let originalLower := toLowerCase original in
  let suggestedLower := toLowerCase suggested in
  if eqb type ADDITION then
    if test false suggestedLower emphasisWords
    then str "Adds descriptive emphasis"
    else str "Adds additional context"
  else if eqb type DELETION then
    if test false originalLower fillerWords
    then str "Removes unnecessary modifier"
    else str "Simplifies phrasing"
  else if eqb type MODIFICATION then
    if isGrammarCorrection originalLower suggestedLower
    then getGrammarReason originalLower suggestedLower
    else if isWordChoiceImprovement originalLower suggestedLower
    then str "Improves word choice"
    else if gt (number (len original)) (number (len suggested) * 1.5)
    then str "Simplifies expression"
    else if gt (number (len suggested)) (number (len original) * 1.5)
    then str "Adds more detail"
    else str "Enhances clarity"
  else str "Improves content".

(** ** calculateWordDiff and mergeAdjacentChanges *)

Section WordDiff.
(** [diffWords] of the [diff] package. *)
Variable diffWords : jsstring -> jsstring -> list Part.t.
(** [uuidv4 n]: the result of the draw made after [n] earlier ones. *)
Variable uuidv4 : nat -> jsstring.

(** [`chg_${uuidv4().substring(0, 8)}`] *)
Definition changeId (n : nat) : jsstring :=
  str "chg_" ++ slice (uuidv4 n) 0 8.

(** The loop over the parts of the diff: the changes pushed from
    [position] on, and the number of draws made. *)
Fixpoint collect (diff : list Part.t) (position : Z) (n : nat)
  : list Change * nat :=
  match diff with
  | [] => ([], n)
  | part :: rest =>
      if Part.added part then
        let '(changes, n') := collect rest position (S n) in
        (mkChange (changeId n) ADDITION
           (mkPosition position position)
           [] (Part.value part)
           (getReasonForChange ADDITION [] (Part.value part))
         :: changes, n')
      else if Part.removed part then
        let '(changes, n') :=
          collect rest (position + len (Part.value part)) (S n) in
        (mkChange (changeId n) DELETION
           (mkPosition position (position + len (Part.value part)))
           (Part.value part) []
           (getReasonForChange DELETION (Part.value part) [])
         :: changes, n')
      else collect rest (position + len (Part.value part)) n
  end.

(** The [while] loop of [mergeAdjacentChanges] from index [i] on, where
    [changes] is the rest of the array from [i]. *)
Fixpoint mergeAdjacentChanges (changes : list Change) (n : nat)
  : list Change * nat :=
  match changes with
  | [] => ([], n)
  | current :: tail =>
      match tail with
      | next :: rest =>
          if eqb (type current) DELETION
             && eqb (type next) ADDITION
             && (start (position next) =? start (position current))%Z
          then
            let '(merged, n') := mergeAdjacentChanges rest (S n) in
            (mkChange (changeId n) MODIFICATION
               (position current)
               (original current) (suggested next)
               (getReasonForChange MODIFICATION
                  (original current) (suggested next))
             :: merged, n')
          else
            let '(merged, n') := mergeAdjacentChanges tail n in
            (current :: merged, n')
      | [] => ([current], n)
      end
  end.

Definition calculateWordDiff (original suggested : jsstring) (n : nat)
  : list Change * nat :=
  let diff := diffWords original suggested in
  let '(changes, n1) := collect diff 0 n in
  mergeAdjacentChanges changes n1.
End WordDiff.

(** ** tokenize *)

Module Token.
Record t := mk {
  value : jsstring;
  position : Position;
  type : jsstring
}.
End Token.

Inductive charClass : Type := WordChar | SpaceChar | OtherChar.

Definition classOf (c : ascii) : charClass :=
  if isWord c then WordChar else if isSpace c then SpaceChar else OtherChar.

Definition sameClass (a b : charClass) : bool :=
  match a, b with
  | WordChar, WordChar | SpaceChar, SpaceChar | OtherChar, OtherChar => true
  | _, _ => false
  end.

(** The successive matches of [/(\w+|[^\w\s]+|\s+)/g]: every character
    belongs to exactly one of the three classes, so each [exec] matches at
    [lastIndex] the maximal run of the class found there. *)
Fixpoint matches (text : jsstring) : list jsstring :=
  match text with
  | [] => []
  | c :: rest =>
      match matches rest with
      | (d :: run) :: more =>
          if sameClass (classOf c) (classOf d)
          then (c :: d :: run) :: more
          else [c] :: (d :: run) :: more
      | more => [c] :: more
      end
  end.

(** The type given to a match: [/^\w+$/], then [/^\s+$/], else
    punctuation. *)
Definition tokenType (value : jsstring) : jsstring :=
  if negb (eqb value []) && forallb isWord value then str "word"
  else if negb (eqb value []) && forallb isSpace value
  then str "whitespace"
  else str "punctuation".

Fixpoint tokensFrom (values : list jsstring) (index : Z)
  : list Token.t :=
  match values with
  | [] => []
  | value :: rest =>
      Token.mk value (mkPosition index (index + len value))
               (tokenType value)
      :: tokensFrom rest (index + len value)
  end.

Definition tokenize (text : jsstring) : list Token.t :=
  tokensFrom (matches text) 0.

End DiffCalculator.

(* ================================================================== *)
(** * services/suggestionService.js *)
(* ================================================================== *)

Module SuggestionService.
Import JS SuggestionRules.

(** What [models[type] || 'unknown'] can be: a string, or the function or
    object that the object literal inherits under the key [type], which
    is truthy. *)
Inductive ModelName : Type :=
| Name (s : jsstring)
| Inherited (key : jsstring).

Record Metadata := mkMetadata {
  timestamp : jsstring;
  model : ModelName;
  confidence : Q
}.

Record Suggestion := mkSuggestion {
  id : jsstring;
  original : jsstring;
  suggested : jsstring;
  changes : list DiffCalculator.Change;
  metadata : Metadata
}.

(** The object thrown by [generateSuggestions]; [reason] is
    [details.reason]. *)
Record Failure := mkFailure {
  status : Z;
  code : jsstring;
  message : jsstring;
  reason : jsstring
}.

(** ** selectRules: throws [new Error(message)] on any other type. *)
Definition selectRules (type : jsstring)
  : completion (list RuleSpec) jsstring :=
  if eqb type (str "improve") then Normal improvementRules
  else if eqb type (str "grammar") then Normal grammarRules
  else if eqb type (str "simplify") then Normal simplificationRules
  else if eqb type (str "expand") then Normal expansionRules
  else Throw (str "Unknown suggestion type: " ++ type).

(** ** applyRules *)
Definition applyRules (content : jsstring) (rules : list RuleSpec)
           (ctx : context) : jsstring :=
  fold_left
    (fun result rule =>
       match condition rule with
       | Some holds =>
           if negb (holds result ctx) then result
           else apply rule result ctx
       | None => apply rule result ctx
       end)
    rules content.

(** ** getModelName *)

(** The properties of [Object.prototype], which every object literal
    inherits: a lookup [models[type]] finds them when [type] is none of the
    keys of the literal. *)
Definition objectPrototypeKeys : list jsstring :=
  [ str "constructor"; str "hasOwnProperty"; str "isPrototypeOf";
    str "propertyIsEnumerable"; str "toLocaleString"; str "toString";
    str "valueOf"; str "__proto__"; str "__defineGetter__";
    str "__defineSetter__"; str "__lookupGetter__";
    str "__lookupSetter__" ].

Definition getModelName (type : jsstring) : ModelName :=
  if eqb type (str "improve") then Name (str "improvement-v1")
  else if eqb type (str "grammar") then Name (str "grammar-check-v1")
  else if eqb type (str "simplify") then Name (str "simplification-v1")
  else if eqb type (str "expand") then Name (str "expansion-v1")
  else if existsb (eqb type) objectPrototypeKeys then Inherited type
  else Name (str "unknown").

(** ** calculateConfidence *)

Module Math.
(** [Math.round]: the nearest integer, halves upwards. *)
Definition round (x : Q) : Q := inject_Z (Qfloor (x + (1 # 2))).

(** [Math.max] on two numbers. *)
Definition max (a b : Q) : Q := if Qle_bool a b then b else a.
End Math.

Definition calculateConfidence (changes : list DiffCalculator.Change)
  : Q :=
  if (List.length changes =? 0)%nat then 1.0
  else
    let baseConfidence := 0.95 in
    let changesPenalty := inject_Z (Z.of_nat (List.length changes)) * 0.02 in
    let sizePenalty :=
      fold_left
        (fun sum change =>
           let size :=
             Z.max (len (DiffCalculator.original change))
                   (len (DiffCalculator.suggested change)) in
           sum + (if (size >? 20)%Z then 0.01 else 0))
        changes 0 in
    let confidence :=
      Math.max 0.5 (baseConfidence - changesPenalty - sizePenalty) in
    Math.round (confidence * 100) / 100.

(** ** generateSuggestions *)

Section Generate.
Variable diffWords : jsstring -> jsstring -> list DiffCalculator.Part.t.
Variable uuidv4 : nat -> jsstring.
(** [new Date().toISOString()] at the time of the call. *)
Variable now : jsstring.

(** The promise returned is fulfilled ([Normal]) or rejected ([Throw]).
    [n] is the number of draws from [uuidv4] made before the call. *)
Definition generateSuggestions (content type : jsstring) (ctx : context)
           (n : nat) : completion Suggestion Failure :=
  match selectRules type with
  | Throw errorMessage =>
      Throw (mkFailure 500 (str "GENERATION_FAILED")
               (str "Failed to generate suggestions") errorMessage)
  | Normal rules =>
      let suggested := applyRules content rules ctx in
      let '(changes, n1) :=
        DiffCalculator.calculateWordDiff diffWords uuidv4
          content suggested n in
      Normal
        (mkSuggestion
           (str "sug_" ++ slice (uuidv4 n1) 0 8)
           content suggested changes
           (mkMetadata now (getModelName type)
              (calculateConfidence changes)))
  end.
End Generate.

End SuggestionService.

(* ================================================================== *)
(** * frontend/src/components/EditorWithSuggestions.jsx *)
(* ================================================================== *)

Module EditorWithSuggestions.
Import JS DiffCalculator.

(** The comparator [(a, b) => b.position.start - a.position.start]. *)
Definition compare (a b : Change) : Z :=
  start (position b) - start (position a).

(** [Array.prototype.sort] is stable: [c], which precedes every element
    of the sorted rest, goes before the first element that the comparator
    does not put before it. *)
Fixpoint insert (c : Change) (sorted : list Change) : list Change :=
  match sorted with
  | [] => [c]
  | y :: rest =>
      if (compare c y <=? 0)%Z then c :: y :: rest
      else y :: insert c rest
  end.

Fixpoint sort (changes : list Change) : list Change :=
  match changes with
  | [] => []
  | c :: rest => insert c (sort rest)
  end.

(** The body of the [for] loop. *)
Definition applyChange (result : jsstring) (change : Change) : jsstring :=
  let s := start (position change) in
  let e := end_ (position change) in
  if eqb (type change) ADDITION then
    slice result 0 s ++ suggested change ++ slice_from result s
  else if eqb (type change) DELETION then
    slice result 0 s ++ slice_from result e
  else if eqb (type change) MODIFICATION then
    slice result 0 s ++ suggested change ++ slice_from result e
  else result.

Definition applyChangesToContent (original : jsstring)
           (changes : list Change) : jsstring :=
  let sortedChanges := sort changes in
  fold_left applyChange sortedChanges original.

(** The errors that the design document lists for reconciliation. *)
Inductive ReconcileError : Type :=
| OverlappingChanges.

(** [applyChangesToContent] as the [reconcile] operation of the
    interface: it contains no [throw], so its completion is normal. *)
Definition reconcile (original : jsstring) (accepted : list Change)
  : completion jsstring ReconcileError :=
  Normal (applyChangesToContent original accepted).

End EditorWithSuggestions.

(* ================================================================== *)
(** * A word diff in the sense of the design document *)
(* ================================================================== *)

Module DiffEngine.
Import JS DiffCalculator.

(** One step of an edit script over tokens. *)
Inductive op : Type :=
| Common (token : jsstring)
| Deleted (token : jsstring)
| Inserted (token : jsstring).

(** Row [i] of the table of lengths of longest common subsequences of
    the suffixes of the two token lists, from row [i + 1] ([below]):
    entry [j] is for the suffixes that start at [x :: _] and at the
    [j]-th token of [b]. *)
Fixpoint lcsRow (x : jsstring) (b : list jsstring) (below : list nat)
  : list nat :=
  match b with
  | [] => [O]
  | y :: b' =>
      let right := lcsRow x b' (tl below) in
      (if eqb x y then S (hd O (tl below))
       else Nat.max (hd O below) (hd O right)) :: right
  end.

(** Rows [i], [i + 1], ... of the table. *)
Fixpoint lcsTable (a b : list jsstring) : list (list nat) :=
  match a with
  | [] => [repeat O (S (List.length b))]
  | x :: a' =>
      let t := lcsTable a' b in
      lcsRow x b (hd [] t) :: t
  end.

(** The walk from the top left corner: equal heads are kept as common,
    otherwise the step that keeps the longer common subsequence is taken,
    a deletion when both do.  [rows] are the rows of the table from the
    current one on, each cut to the current column. *)
Fixpoint walk (a : list jsstring) (rows : list (list nat))
  : list jsstring -> list op :=
  match a with
  | [] => fun b => map Inserted b
  | x :: a' =>
      (fix across (rows : list (list nat)) (b : list jsstring)
         : list op :=
         match b with
         | [] => map Deleted (x :: a')
         | y :: b' =>
             if eqb x y then
               Common x :: walk a' (map (@tl nat) (tl rows)) b'
             else if (hd O (tl (hd [] rows)) <=? hd O (hd [] (tl rows)))%nat
             then Deleted x :: walk a' (tl rows) b
             else Inserted y :: across (map (@tl nat) rows) b'
         end) rows
  end.

Definition sameKind (o : op) (p : Part.t) : bool :=
  match o with
  | Common _ => negb (Part.added p) && negb (Part.removed p)
  | Deleted _ => negb (Part.added p) && Part.removed p
  | Inserted _ => Part.added p
  end.

Definition partOf (o : op) : Part.t :=
  match o with
  | Common v => Part.mk v false false
  | Deleted v => Part.mk v false true
  | Inserted v => Part.mk v true false
  end.

Definition tokenOf (o : op) : jsstring :=
  match o with
  | Common v | Deleted v | Inserted v => v
  end.

(** Consecutive steps of one kind collapse into one part. *)
Fixpoint collapse (script : list op) : list Part.t :=
  match script with
  | [] => []
  | o :: rest =>
      match collapse rest with
      | p :: parts =>
          if sameKind o p
          then Part.mk (tokenOf o ++ Part.value p)
                       (Part.added p) (Part.removed p) :: parts
          else partOf o :: p :: parts
      | [] => [partOf o]
      end
  end.

(** Modelled from the spec: the word diff of section 4.2 of the design
    document.  Both strings are tokenized, a longest common subsequence
    of the two token lists is aligned leftmost, and the runs of deleted
    and of inserted tokens are collapsed.  This is not the [diffWords] of
    the npm package [diff] that [calculateWordDiff] calls, which takes no
    account of white space and is a parameter of the embedded code; it
    is an example of a diff that returns exact edit scripts. *)
Definition diffWords (original transformed : jsstring) : list Part.t :=
  let a := map Token.value (tokenize original) in
  let b := map Token.value (tokenize transformed) in
  collapse (walk a (lcsTable a b) b).

End DiffEngine.

(* ================================================================== *)
(** * Vocabulary of the properties *)
(* ================================================================== *)

Module Properties.
Import JS DiffCalculator.

(** The text that the parts of a diff take from the original string:
    every part that is not an insertion. *)
Definition originalSide (diff : list Part.t) : jsstring :=
  List.concat (map Part.value (filter (fun p => negb (Part.added p)) diff)).

(** The text that the parts give to the transformed string: every part
    that is an insertion or is not a removal. *)
Definition suggestedSide (diff : list Part.t) : jsstring :=
  List.concat
    (map Part.value
         (filter (fun p => Part.added p || negb (Part.removed p)) diff)).

Definition isCommon (p : Part.t) : bool :=
  negb (Part.added p) && negb (Part.removed p).

Definition nonEmpty (s : jsstring) : bool := negb (eqb s []).

(** The normal form of the change objects of [diffWords]: a removal is
    not empty, and an insertion is the last part or is followed by a
    non-empty unchanged part (removals are reported before insertions,
    and runs are maximal). *)
Fixpoint normal (diff : list Part.t) : bool :=
  match diff with
  | [] => true
  | p :: rest =>
      (if Part.added p then
         match rest with
         | [] => true
         | q :: _ => isCommon q && nonEmpty (Part.value q)
         end
       else if Part.removed p then nonEmpty (Part.value p)
       else true)
      && normal rest
  end.

(** [diff] is an exact edit script from [original] to [transformed]. *)
Definition editScript (original transformed : jsstring)
           (diff : list Part.t) : Prop :=
  originalSide diff = original
  /\ suggestedSide diff = transformed
  /\ normal diff = true.

Definition startOf (c : Change) : Z := start (position c).
Definition endOf (c : Change) : Z := end_ (position c).

Definition sortedByStart (changes : list Change) : Prop :=
  StronglySorted (fun a b => (startOf a <= startOf b)%Z) changes.

(** No record reaches into a later one. *)
Definition nonOverlapping (changes : list Change) : Prop :=
  ForallOrdPairs (fun a b => (endOf a <= startOf b)%Z) changes.

(** The ranges [start, end) of two records intersect. *)
Definition overlap (a b : Change) : Prop :=
  (startOf a < endOf b)%Z /\ (startOf b < endOf a)%Z.

Definition inRange (text : jsstring) (c : Change) : Prop :=
  (0 <= startOf c)%Z /\ (startOf c <= endOf c)%Z
  /\ (endOf c <= len text)%Z.

Definition additionShape (c : Change) : Prop :=
  type c = ADDITION -> original c = [] /\ startOf c = endOf c.

Definition deletionShape (c : Change) : Prop :=
  type c = DELETION ->
  suggested c = [] /\ (endOf c - startOf c)%Z = len (original c).

(** The strings are different and equal once white space is removed. *)
Definition differOnlyInWhitespace (a b : jsstring) : Prop :=
  a <> b
  /\ filter (fun c => negb (isSpace c)) a
     = filter (fun c => negb (isSpace c)) b.

Definition recognized (type : jsstring) : Prop :=
  In type [str "improve"; str "grammar"; str "simplify"; str "expand"].

(** Number of changes whose larger side has more than 20 characters. *)
Definition largeChanges (changes : list Change) : nat :=
  List.length
    (filter (fun c => (Z.max (len (original c)) (len (suggested c)) >? 20)%Z)
            changes).

(** A supply of identifiers and a time stamp, for concrete runs. *)
Definition sampleUuid (n : nat) : jsstring :=
  [ascii_of_nat (97 + n / 6 mod 6); ascii_of_nat (97 + n mod 6)]
  ++ str "2b8c1e-7a4d-4e0b-9c6f-5d1a2b3c4d5e".

Definition sampleNow : jsstring := str "2025-11-07T10:30:00.000Z".

(** The changes pushed by the loop of [calculateWordDiff]. *)
Definition collected (uuidv4 : nat -> jsstring) (diff : list Part.t)
           (position : Z) (n : nat) : list Change :=
  fst (collect uuidv4 diff position n).

(** The record pushed for an inserted part. *)
Definition additionAt (uuidv4 : nat -> jsstring) (position : Z) (n : nat)
           (p : Part.t) : Change :=
  mkChange (changeId uuidv4 n) ADDITION (mkPosition position position)
           [] (Part.value p)
           (getReasonForChange ADDITION [] (Part.value p)).

(** The record pushed for a removed part. *)
Definition deletionAt (uuidv4 : nat -> jsstring) (position : Z) (n : nat)
           (p : Part.t) : Change :=
  mkChange (changeId uuidv4 n) DELETION
           (mkPosition position (position + len (Part.value p)))
           (Part.value p) []
           (getReasonForChange DELETION (Part.value p) []).

(** ** Vocabulary for the word diff of the design document *)

(** Length of a longest common subsequence of two token lists. *)
Fixpoint lcs (a : list jsstring) : list jsstring -> nat :=
  match a with
  | [] => fun _ => O
  | x :: a' =>
      fix lcs_x (b : list jsstring) : nat :=
        match b with
        | [] => O
        | y :: b' =>
            if eqb x y then S (lcs a' b')
            else Nat.max (lcs a' b) (lcs_x b')
        end
  end.

(** The suffixes of a list, from the whole list to the empty one. *)
Fixpoint suffixes (A : Type) (l : list A) : list (list A) :=
  l :: match l with
       | [] => []
       | _ :: rest => suffixes rest
       end.

(** The table of [lcs] on the suffixes of [a] (rows) and [b] (columns). *)
Definition lcsRows (a b : list jsstring) : list (list nat) :=
  map (fun a' => map (lcs a') (suffixes b)) (suffixes a).

Definition isInserted (o : DiffEngine.op) : bool :=
  match o with
  | DiffEngine.Inserted _ => true
  | _ => false
  end.

Definition isDeleted (o : DiffEngine.op) : bool :=
  match o with
  | DiffEngine.Deleted _ => true
  | _ => false
  end.

Definition startsWithDeletion (script : list DiffEngine.op) : bool :=
  match script with
  | o :: _ => isDeleted o
  | [] => false
  end.

(** No insertion is directly followed by a deletion. *)
Fixpoint deletionsFirst (script : list DiffEngine.op) : bool :=
  match script with
  | [] => true
  | o :: rest =>
      negb (isInserted o && startsWithDeletion rest)
      && deletionsFirst rest
  end.

(** The tokens that a script takes from the first list and gives to the
    second. *)
Definition tokensBefore (script : list DiffEngine.op) : list jsstring :=
  map DiffEngine.tokenOf (filter (fun o => negb (isInserted o)) script).

Definition tokensAfter (script : list DiffEngine.op) : list jsstring :=
  map DiffEngine.tokenOf (filter (fun o => negb (isDeleted o)) script).

End Properties.

(* ================================================================== *)
(** * middleware/validation.js *)
(* ================================================================== *)

Module Validation.
Import JS.

(** A value of the parsed JSON body; a property that is missing is
    [VUndefined].  A number is given by its exact value; objects and
    arrays are not looked into. *)
Inductive value : Type :=
| VUndefined
| VNull
| VBoolean (b : bool)
| VNumber (x : Q)
| VString (s : jsstring)
| VObject.

(** Conversion to boolean, as in [!v] and [v && ...]. *)
Definition truthy (v : value) : bool :=
  match v with
  | VUndefined | VNull => false
  | VBoolean b => b
  | VNumber x => negb (Qeq_bool x 0)
  | VString s => negb (eqb s [])
  | VObject => true
  end.

(** [typeof v] *)
Definition typeof (v : value) : jsstring :=
  match v with
  | VUndefined => str "undefined"
  | VNull => str "object"
  | VBoolean _ => str "boolean"
  | VNumber _ => str "number"
  | VString _ => str "string"
  | VObject => str "object"
  end.

(** [req.body], destructured into its three properties. *)
Record Body := mkBody {
  content : value;
  type : value;
  context : value
}.

(** A property of the [details] object of an error. *)
Inductive detail : Type :=
| DText (s : jsstring)
| DNumber (z : Z)
| DList (l : list jsstring)
| DValue (v : value).

(** [res.status(status).json({ error: { code, message, details } })] *)
Record Response := mkResponse {
  status : Z;
  code : jsstring;
  message : jsstring;
  details : list (jsstring * detail)
}.

(** What the middleware does: it answers, or it calls [next()]. *)
Inductive outcome : Type :=
| Responded (r : Response)
| Next.

Definition MAX_CONTENT_LENGTH : Z := 10000.

Definition VALID_TYPES : list jsstring :=
  [str "improve"; str "grammar"; str "simplify"; str "expand"].

(** [VALID_TYPES.includes(v)]: only a string can be equal to a member. *)
Definition includes (types : list jsstring) (v : value) : bool :=
  match v with
  | VString s => existsb (eqb s) types
  | _ => false
  end.

Section Validate.
(** The text that a template literal gives for a value that is not a
    string. *)
Variable ToString : value -> jsstring.

Definition template (v : value) : jsstring :=
  match v with
  | VString s => s
  | _ => ToString v
  end.

Definition validateRequest (body : Body) : outcome :=
  let content := content body in
  let type := type body in
  let context := context body in
  if negb (truthy content) then
    Responded (mkResponse 400 (str "INVALID_REQUEST")
                 (str "Content is required")
                 [(str "field", DText (str "content"))])
  else
    match content with
    | VString text =>
        if (len text >? MAX_CONTENT_LENGTH)%Z then
          Responded (mkResponse 400 (str "CONTENT_TOO_LONG")
                       (str "Content exceeds maximum length of 10000 characters")
                       [(str "maxLength", DNumber MAX_CONTENT_LENGTH);
                        (str "actualLength", DNumber (len text))])
        else if negb (truthy type) then
          Responded (mkResponse 400 (str "INVALID_REQUEST")
                       (str "Type is required")
                       [(str "field", DText (str "type"));
                        (str "validTypes", DList VALID_TYPES)])
        else if negb (includes VALID_TYPES type) then
          Responded (mkResponse 400 (str "INVALID_TYPE")
                       (str "Invalid suggestion type: " ++ template type)
                       [(str "validTypes", DList VALID_TYPES);
                        (str "receivedType", DValue type)])
        else if truthy context
                && negb (eqb (typeof context) (str "object")) then
          Responded (mkResponse 400 (str "INVALID_REQUEST")
                       (str "Context must be an object")
                       [(str "field", DText (str "context"));
                        (str "receivedType", DText (typeof context))])
        else Next
    | _ =>
        Responded (mkResponse 400 (str "INVALID_REQUEST")
                     (str "Content must be a string")
                     [(str "field", DText (str "content"));
                      (str "receivedType", DText (typeof content))])
    end.
End Validate.

End Validation.

(* ================================================================== *)
(** * Sets of change identifiers *)
(* ================================================================== *)

(** A JavaScript [Set] of strings: its members in insertion order. *)
Module StringSet.
Import JS.

Definition t := list jsstring.

(** [set.has(x)] *)
Definition has (set : t) (x : jsstring) : bool := existsb (eqb x) set.

(** [set.add(x)] *)
Definition add (set : t) (x : jsstring) : t :=
  if has set x then set else set ++ [x].

(** [set.delete(x)] *)
Definition delete (set : t) (x : jsstring) : t :=
  filter (fun y => negb (eqb y x)) set.

(** [new Set(array)] *)
Definition fromArray (array : list jsstring) : t := fold_left add array [].

(** [set.size] *)
Definition size (set : t) : Z := Z.of_nat (List.length set).

End StringSet.

(* ================================================================== *)
(** * The handlers of EditorWithSuggestions.jsx *)
(* ================================================================== *)

Module EditorHandlers.
Import JS.

(** The state of the component that the handlers read and set. *)
Record State := mkState {
  suggestion : option SuggestionService.Suggestion;
  selectedChangeIds : StringSet.t
}.

(** The part of [handleGetSuggestions] after the answer has come. *)
Definition receiveSuggestion (result : SuggestionService.Suggestion)
           (st : State) : State :=
  mkState (Some result) [].

Definition handleAcceptChange (changeId : jsstring) (st : State) : State :=
  mkState (suggestion st) (StringSet.add (selectedChangeIds st) changeId).

Definition handleRejectChange (changeId : jsstring) (st : State) : State :=
  mkState (suggestion st) (StringSet.delete (selectedChangeIds st) changeId).

Definition handleAcceptAll (st : State) : State :=
  match suggestion st with
  | None => st
  | Some s =>
      mkState (suggestion st)
              (StringSet.fromArray
                 (map DiffCalculator.id (SuggestionService.changes s)))
  end.

Definition handleRejectAll (st : State) : State :=
  mkState (suggestion st) [].

Definition handleClearSuggestions (st : State) : State :=
  mkState None [].

(** [handleApplyChanges]: the new state and, when the editor is there
    ([get()] returns it) and a suggestion is shown, the markdown handed
    to [setMarkdown]. *)
Definition handleApplyChanges (editor : bool) (st : State)
  : State * option jsstring :=
  match suggestion st with
  | None => (st, None)
  | Some s =>
      if negb editor then (st, None)
      else
        let acceptedChanges :=
          filter (fun c =>
                    StringSet.has (selectedChangeIds st) (DiffCalculator.id c))
                 (SuggestionService.changes s) in
        let newContent :=
          EditorWithSuggestions.applyChangesToContent
            (SuggestionService.original s) acceptedChanges in
        (mkState None [], Some newContent)
  end.

End EditorHandlers.

(* ================================================================== *)
(** * frontend/src/components/DiffHighlighter.jsx *)
(* ================================================================== *)

Module DiffHighlighter.
Import JS.

(** A part of the highlighted text; an unchanged part has neither
    [changeId] nor [isSelected]. *)
Record Piece := mkPiece {
  type : jsstring;
  text : jsstring;
  changeId : option jsstring;
  isSelected : option bool
}.

Definition UNCHANGED : jsstring := str "unchanged".

(** The comparator [(a, b) => a.position.start - b.position.start]. *)
Definition compare (a b : DiffCalculator.Change) : Z :=
  (DiffCalculator.start (DiffCalculator.position a)
   - DiffCalculator.start (DiffCalculator.position b))%Z.

(** The stable sort with this comparator. *)
Fixpoint insert (c : DiffCalculator.Change)
         (sorted : list DiffCalculator.Change)
  : list DiffCalculator.Change :=
  match sorted with
  | [] => [c]
  | y :: rest =>
      if (compare c y <=? 0)%Z then c :: y :: rest
      else y :: insert c rest
  end.

Fixpoint sort (changes : list DiffCalculator.Change)
  : list DiffCalculator.Change :=
  match changes with
  | [] => []
  | c :: rest => insert c (sort rest)
  end.

(** [a || b] on strings. *)
Definition orElse (a b : jsstring) : jsstring :=
  match a with
  | [] => b
  | _ => a
  end.

Section Render.
Variable original : jsstring.
Variable selectedChangeIds : StringSet.t.

(** The part pushed for a change. *)
Definition pieceOf (change : DiffCalculator.Change) : Piece :=
  mkPiece (DiffCalculator.type change)
          (orElse (DiffCalculator.suggested change)
                  (DiffCalculator.original change))
          (Some (DiffCalculator.id change))
          (Some (StringSet.has selectedChangeIds (DiffCalculator.id change))).

(** The loop over the sorted changes and the remaining text after it. *)
Fixpoint renderFrom (sortedChanges : list DiffCalculator.Change)
         (lastIndex : Z) : list Piece :=
  match sortedChanges with
  | [] =>
      if (lastIndex <? len original)%Z
      then [mkPiece UNCHANGED (slice_from original lastIndex) None None]
      else []
  | change :: rest =>
      let s := DiffCalculator.start (DiffCalculator.position change) in
      let e := DiffCalculator.end_ (DiffCalculator.position change) in
      (if (s >? lastIndex)%Z
       then [mkPiece UNCHANGED (slice original lastIndex s) None None]
       else [])
      ++ pieceOf change :: renderFrom rest e
  end.

Definition renderHighlightedText (changes : list DiffCalculator.Change)
  : list Piece :=
  renderFrom (sort changes) 0.
End Render.

End DiffHighlighter.

(* ================================================================== *)
(** * The summary of SuggestionPanel.jsx *)
(* ================================================================== *)

Module SuggestionPanel.
Import JS.

(** [suggestion && suggestion.changes.length > 0], as a condition. *)
Definition hasChanges (suggestion : option SuggestionService.Suggestion)
  : bool :=
  match suggestion with
  | Some s => (Z.of_nat (List.length (SuggestionService.changes s)) >? 0)%Z
  | None => false
  end.

(** [selectedChangeIds.size > 0] *)
Definition hasSelectedChanges (selectedChangeIds : StringSet.t) : bool :=
  (StringSet.size selectedChangeIds >? 0)%Z.

(** [Math.round(suggestion.metadata.confidence * 100)], shown before the
    per cent sign. *)
Definition confidencePercent (suggestion : SuggestionService.Suggestion)
  : Q :=
  SuggestionService.Math.round
    (SuggestionService.confidence (SuggestionService.metadata suggestion)
     * 100).

End SuggestionPanel.

(* ================================================================== *)
(** * Vocabulary of the further properties *)
(* ================================================================== *)

Module MoreProperties.
Import JS DiffCalculator Properties.

(** The tokens lie one after the other from [from] to [to], each as long
    as its value and none empty. *)
Fixpoint tiles (tokens : list Token.t) (from to : Z) : Prop :=
  match tokens with
  | [] => from = to
  | t :: rest =>
      start (Token.position t) = from
      /\ end_ (Token.position t) = (from + len (Token.value t))%Z
      /\ Token.value t <> []
      /\ tiles rest (end_ (Token.position t)) to
  end.

(** No two neighbours of a list are equal. *)
Fixpoint alternating (A : Type) (l : list A) : Prop :=
  match l with
  | x :: ((y :: _) as rest) => x <> y /\ alternating rest
  | _ => True
  end.

(** The class of the first character of a run. *)
Definition runClass (run : jsstring) : charClass :=
  match run with
  | c :: _ => classOf c
  | [] => OtherChar
  end.

Definition typeName (k : charClass) : jsstring :=
  match k with
  | WordChar => str "word"
  | SpaceChar => str "whitespace"
  | OtherChar => str "punctuation"
  end.

Definition inClass (k : charClass) (c : ascii) : bool :=
  sameClass (classOf c) k.

(** The text that results from a diff when only the records chosen by
    [keep] are accepted: an unchanged part stays, a removed part stays
    unless its deletion is accepted, an added part comes in when its
    addition is accepted. *)
Fixpoint acceptedText (uuidv4 : nat -> jsstring) (keep : Change -> bool)
         (diff : list Part.t) (position : Z) (n : nat) : jsstring :=
  match diff with
  | [] => []
  | p :: rest =>
      if Part.added p then
        (if keep (additionAt uuidv4 position n p) then Part.value p else [])
        ++ acceptedText uuidv4 keep rest position (S n)
      else if Part.removed p then
        (if keep (deletionAt uuidv4 position n p) then [] else Part.value p)
        ++ acceptedText uuidv4 keep rest
             (position + len (Part.value p)) (S n)
      else
        Part.value p
        ++ acceptedText uuidv4 keep rest (position + len (Part.value p)) n
  end.

(** Every reason that [getReasonForChange] can give. *)
Definition reasonLabels : list jsstring :=
  [ str "Adds descriptive emphasis"; str "Adds additional context";
    str "Removes unnecessary modifier"; str "Simplifies phrasing";
    str "Subject-verb agreement: collective noun is singular";
    str "Possessive pronoun required"; str "Correct past participle";
    str "Grammar correction"; str "Improves word choice";
    str "Simplifies expression"; str "Adds more detail";
    str "Enhances clarity"; str "Improves content" ].

(** The text of the pieces of the highlighter that are not of the type
    [excluded]. *)
Definition shownWithout (excluded : jsstring)
           (pieces : list DiffHighlighter.Piece) : jsstring :=
  List.concat
    (map DiffHighlighter.text
         (filter (fun piece =>
                    negb (eqb (DiffHighlighter.type piece) excluded))
                 pieces)).

(** The first eight characters of the draws from [from] up to, not
    including, [to] are pairwise different. *)
Definition distinctDraws (uuidv4 : nat -> jsstring) (from to : nat)
  : Prop :=
  forall i j,
    (from <= i < to)%nat -> (from <= j < to)%nat ->
    slice (uuidv4 i) 0 8 = slice (uuidv4 j) 0 8 -> i = j.

(** A request body that the validation lets through. *)
Definition acceptable (body : Validation.Body) : Prop :=
  (exists text,
      Validation.content body = Validation.VString text
      /\ text <> [] /\ (len text <= 10000)%Z)
  /\ (exists t,
         Validation.type body = Validation.VString t /\ recognized t)
  /\ (Validation.truthy (Validation.context body) = true ->
      Validation.context body = Validation.VObject).

(** A suggestion with two records, for concrete runs. *)
Definition sampleSuggestion : SuggestionService.Suggestion :=
  SuggestionService.mkSuggestion
    (str "sug_0a1b2c3d") (str "a very good day") (str "a good day!")
    [ mkChange (str "chg_a1") DELETION (mkPosition 2 7)
               (str "very ") [] (str "Removes unnecessary modifier");
      mkChange (str "chg_b2") ADDITION (mkPosition 15 15)
               [] (str "!") (str "Adds additional context") ]
    (SuggestionService.mkMetadata sampleNow
       (SuggestionService.Name (str "improvement-v1")) 0.91).

(** [A-Za-z] *)
Definition isLetter (c : ascii) : bool :=
  between 65 90 c || between 97 122 c.

(** The text has no letter of [A-Za-z]. *)
Definition letterless (text : jsstring) : bool :=
  forallb (fun c => negb (isLetter c)) text.

(** Every match of the expression takes in a character that one of its
    letters matches: a sufficient test by the form of the expression. *)
Fixpoint needsLetter (r : RegExp.regex) : bool :=
  match r with
  | RegExp.Chr c => isLetter c
  | RegExp.Seq r1 r2 => needsLetter r1 || needsLetter r2
  | RegExp.Alt r1 r2 => needsLetter r1 && needsLetter r2
  | RegExp.Group r' => needsLetter r'
  | _ => false
  end.

(** Every character below 256. *)
Definition allChars : list ascii := map ascii_of_nat (seq 0 256).

(** The loop of [*] in the matcher, for a given way [step] to match the
    starred expression once. *)
Definition starLoop
           (step : nat -> RegExp.capture
                   -> (nat -> RegExp.capture -> option RegExp.state)
                   -> option RegExp.state)
           (k : nat -> RegExp.capture -> option RegExp.state)
  : nat -> nat -> RegExp.capture -> option RegExp.state :=
  fix loop (fuel : nat) (i : nat) (cap : RegExp.capture)
    : option RegExp.state :=
    match
      match fuel with
      | O => None
      | S f =>
          step i cap
               (fun j c => if (i <? j)%nat then loop f j c else None)
      end
    with
    | Some s => Some s
    | None => k i cap
    end.

End MoreProperties.

(* ================================================================== *)
(** * Strings *)
(* ================================================================== *)

Section StringFacts.
Import JS.

Lemma eqb_refl (a : jsstring) : eqb a a = true.
Proof.
  induction a as [|x a IH]; simpl; [reflexivity|].
  now rewrite Ascii.eqb_refl, IH.
Qed.

Lemma eqb_eq (a b : jsstring) : eqb a b = true <-> a = b.
Proof.
  split; [|intros ->; apply eqb_refl].
  revert b; induction a as [|x a IH]; intros [|y b]; simpl;
    try discriminate; [reflexivity|].
  intros H; apply andb_true_iff in H as [Hx Hr].
  apply Ascii.eqb_eq in Hx; subst; f_equal; auto.
Qed.

Lemma eqb_neq (a b : jsstring) : eqb a b = false <-> a <> b.
Proof.
  rewrite <- eqb_eq; destruct (eqb a b); split; congruence.
Qed.

Lemma len_nonneg (s : jsstring) : (0 <= len s)%Z.
Proof. unfold len; lia. Qed.

Lemma len_app (a b : jsstring) : len (a ++ b) = (len a + len b)%Z.
Proof. unfold len; rewrite length_app; lia. Qed.

Lemma len_nil_iff (s : jsstring) : len s = 0%Z <-> s = [].
Proof.
  unfold len; destruct s; simpl; split; try reflexivity; try lia;
    discriminate.
Qed.

Lemma clamp_index_inside (l i : Z) :
  (0 <= i <= l)%Z -> clamp_index l i = i.
Proof.
  intros H; unfold clamp_index.
  destruct (Z.ltb_spec i 0); lia.
Qed.

Lemma clamp_index_range (l i : Z) :
  (0 <= l)%Z -> (0 <= clamp_index l i <= l)%Z.
Proof.
  intros H; unfold clamp_index.
  destruct (Z.ltb_spec i 0); lia.
Qed.

(** [(pre + rest).slice(0, pre.length)] is [pre]. *)
Lemma slice_prefix (pre rest : jsstring) :
  slice (pre ++ rest) 0 (len pre) = pre.
Proof.
  unfold slice.
  pose proof (len_nonneg pre); pose proof (len_nonneg rest).
  rewrite !clamp_index_inside by (rewrite len_app; lia).
  simpl skipn.
  replace (Z.to_nat (Z.max (len pre - 0) 0)) with (List.length pre)
    by (unfold len; lia).
  rewrite firstn_app, Nat.sub_diag, firstn_all; simpl.
  apply app_nil_r.
Qed.

(** [(pre + rest).slice(pre.length)] is [rest]. *)
Lemma slice_from_suffix (pre rest : jsstring) :
  slice_from (pre ++ rest) (len pre) = rest.
Proof.
  unfold slice_from, slice.
  pose proof (len_nonneg pre); pose proof (len_nonneg rest).
  rewrite !clamp_index_inside by (rewrite len_app; lia).
  replace (Z.to_nat (len pre)) with (List.length pre)
    by (unfold len; lia).
  rewrite skipn_app, Nat.sub_diag, skipn_all; simpl.
  apply firstn_all2.
  rewrite len_app; unfold len; lia.
Qed.

(** A slice never has more characters than the string. *)
Lemma slice_length (s : jsstring) (from to : Z) :
  (len (slice s from to) <= len s)%Z.
Proof.
  unfold slice, len.
  rewrite length_firstn, length_skipn; lia.
Qed.

(** A slice is a factor of the string, whatever the indices. *)
Lemma slice_factor (s : jsstring) (from to : Z) :
  exists before after, s = before ++ slice s from to ++ after.
Proof.
  unfold slice.
  set (f := Z.to_nat (clamp_index (len s) from)).
  set (k := Z.to_nat _).
  exists (firstn f s), (skipn k (skipn f s)).
  now rewrite firstn_skipn, firstn_skipn.
Qed.
End StringFacts.

(* ================================================================== *)
(** * The loop of calculateWordDiff *)
(* ================================================================== *)

Section CollectFacts.
Import JS DiffCalculator Properties.
Variable uuidv4 : nat -> jsstring.

Lemma collect_added p rest position n :
  Part.added p = true ->
  collected uuidv4 (p :: rest) position n
  = additionAt uuidv4 position n p :: collected uuidv4 rest position (S n).
Proof.
  intros H; unfold collected; simpl; rewrite H.
  now destruct (collect uuidv4 rest position (S n)).
Qed.

Lemma collect_removed p rest position n :
  Part.added p = false -> Part.removed p = true ->
  collected uuidv4 (p :: rest) position n
  = deletionAt uuidv4 position n p
      :: collected uuidv4 rest (position + len (Part.value p)) (S n).
Proof.
  intros Ha Hr; unfold collected; simpl; rewrite Ha, Hr.
  now destruct (collect uuidv4 rest _ (S n)).
Qed.

Lemma collect_common p rest position n :
  Part.added p = false -> Part.removed p = false ->
  collected uuidv4 (p :: rest) position n
  = collected uuidv4 rest (position + len (Part.value p)) n.
Proof. intros Ha Hr; unfold collected; simpl; now rewrite Ha, Hr. Qed.

(** Case analysis on a part, in the order of the tests of the loop. *)
Ltac by_kind p :=
  let Ha := fresh "Ha" in
  let Hr := fresh "Hr" in
  destruct (Part.added p) eqn:Ha;
  [| destruct (Part.removed p) eqn:Hr ].

(** Every record starts at or after the position at which the loop is
    entered, and the position only advances. *)
Lemma collect_lower diff : forall position n,
  Forall (fun c => (position <= startOf c)%Z) (collected uuidv4 diff position n).
Proof.
  induction diff as [|p rest IH]; intros position n; [constructor|].
  pose proof (len_nonneg (Part.value p)) as Hv.
  by_kind p.
  - rewrite collect_added by assumption.
    constructor; [unfold startOf; simpl; lia | apply IH].
  - rewrite collect_removed by assumption.
    constructor; [unfold startOf; simpl; lia|].
    eapply Forall_impl; [|apply IH]; simpl; intros; lia.
  - rewrite collect_common by assumption.
    eapply Forall_impl; [|apply IH]; simpl; intros; lia.
Qed.

(** The position reached after the whole diff stays within the text that
    the diff takes from the original. *)
Lemma collect_upper diff : forall position n,
  Forall (fun c => (endOf c <= position + len (originalSide diff))%Z)
         (collected uuidv4 diff position n).
Proof.
  induction diff as [|p rest IH]; intros position n; [constructor|].
  pose proof (len_nonneg (Part.value p)) as Hv.
  pose proof (len_nonneg (originalSide rest)) as Hr'.
  unfold originalSide in *; simpl filter.
  by_kind p; simpl negb; cbv iota.
  - rewrite collect_added by assumption.
    constructor; [unfold endOf; simpl; lia | apply IH].
  - rewrite collect_removed by assumption.
    simpl; rewrite len_app.
    constructor; [unfold endOf; simpl; lia|].
    eapply Forall_impl; [|apply IH]; simpl; intros; lia.
  - rewrite collect_common by assumption.
    simpl; rewrite len_app.
    eapply Forall_impl; [|apply IH]; simpl; intros; lia.
Qed.

(** Each record ends before the next ones start. *)
Lemma collect_chain diff : forall position n,
  StronglySorted (fun a b => (endOf a <= startOf b)%Z)
                 (collected uuidv4 diff position n).
Proof.
  induction diff as [|p rest IH]; intros position n; [constructor|].
  pose proof (len_nonneg (Part.value p)) as Hv.
  by_kind p.
  - rewrite collect_added by assumption.
    constructor; [apply IH|].
    eapply Forall_impl; [|apply collect_lower]; simpl; intros c Hc.
    unfold endOf; simpl; exact Hc.
  - rewrite collect_removed by assumption.
    constructor; [apply IH|].
    eapply Forall_impl; [|apply collect_lower]; simpl; intros c Hc.
    unfold endOf; simpl; exact Hc.
  - rewrite collect_common by assumption; apply IH.
Qed.

(** Start and end of each record are in order. *)
Lemma collect_ordered diff : forall position n,
  Forall (fun c => (startOf c <= endOf c)%Z) (collected uuidv4 diff position n).
Proof.
  induction diff as [|p rest IH]; intros position n; [constructor|].
  pose proof (len_nonneg (Part.value p)) as Hv.
  by_kind p.
  - rewrite collect_added by assumption.
    constructor; [unfold startOf, endOf; simpl; lia | apply IH].
  - rewrite collect_removed by assumption.
    constructor; [unfold startOf, endOf; simpl; lia | apply IH].
  - rewrite collect_common by assumption; apply IH.
Qed.

(** The records pushed by the loop are additions and deletions of the
    shape that the data model gives them. *)
Lemma collect_shapes diff : forall position n,
  Forall (fun c => additionShape c /\ deletionShape c
                   /\ type c <> MODIFICATION)
         (collected uuidv4 diff position n).
Proof.
  induction diff as [|p rest IH]; intros position n; [constructor|].
  by_kind p.
  - rewrite collect_added by assumption.
    constructor; [|apply IH].
    unfold additionShape, deletionShape, startOf, endOf; simpl.
    repeat split; try discriminate; auto.
  - rewrite collect_removed by assumption.
    constructor; [|apply IH].
    unfold additionShape, deletionShape, startOf, endOf; simpl.
    repeat split; try discriminate; auto; lia.
  - rewrite collect_common by assumption; apply IH.
Qed.

(** In normal form the starts increase strictly. *)
Lemma collect_strict diff : forall position n,
  normal diff = true ->
  StronglySorted (fun a b => (startOf a < startOf b)%Z)
                 (collected uuidv4 diff position n).
Proof.
  induction diff as [|p rest IH]; intros position n Hn; [constructor|].
  simpl in Hn; apply andb_true_iff in Hn as [Hp Hrest].
  by_kind p.
  - rewrite collect_added by assumption.
    constructor; [now apply IH|].
    destruct rest as [|q rest']; [constructor|].
    apply andb_true_iff in Hp as [Hq Hne].
    unfold isCommon in Hq; apply andb_true_iff in Hq as [Hqa Hqr].
    apply negb_true_iff in Hqa, Hqr.
    rewrite collect_common by assumption.
    assert (0 < len (Part.value q))%Z.
    { unfold nonEmpty in Hne; apply negb_true_iff, eqb_neq in Hne.
      pose proof (len_nonneg (Part.value q)).
      pose proof (len_nil_iff (Part.value q)) as [? _].
      destruct (Z.eq_dec (len (Part.value q)) 0); [tauto | lia]. }
    eapply Forall_impl; [|apply collect_lower]; simpl; intros c Hc.
    unfold startOf at 1; simpl; lia.
  - rewrite collect_removed by assumption.
    constructor; [now apply IH|].
    assert (0 < len (Part.value p))%Z.
    { unfold nonEmpty in Hp; apply negb_true_iff, eqb_neq in Hp.
      pose proof (len_nonneg (Part.value p)).
      pose proof (len_nil_iff (Part.value p)) as [? _].
      destruct (Z.eq_dec (len (Part.value p)) 0); [tauto | lia]. }
    eapply Forall_impl; [|apply collect_lower]; simpl; intros c Hc.
    unfold startOf at 1; simpl; lia.
  - rewrite collect_common by assumption; now apply IH.
Qed.
End CollectFacts.

(* ================================================================== *)
(** * mergeAdjacentChanges *)
(* ================================================================== *)

Section MergeFacts.
Import JS DiffCalculator Properties.
Variable uuidv4 : nat -> jsstring.

(** Induction that follows the loop: one or two records at a time. *)
Lemma changes_ind2 (P : list Change -> Prop) :
  P [] ->
  (forall c, P [c]) ->
  (forall c d rest, P rest -> P (d :: rest) -> P (c :: d :: rest)) ->
  forall l, P l.
Proof.
  intros H0 H1 H2 l.
  enough (P l /\ forall c, P (c :: l)) by tauto.
  induction l as [|d rest [IH IH']]; split; auto.
Qed.

(** The loop at an index that has a successor. *)
Lemma merge_step (c d : Change) (rest : list Change) (n : nat) :
  mergeAdjacentChanges uuidv4 (c :: d :: rest) n
  = if eqb (type c) DELETION && eqb (type d) ADDITION
       && (start (position d) =? start (position c))%Z
    then
      let '(merged, n') := mergeAdjacentChanges uuidv4 rest (S n) in
      (mkChange (changeId uuidv4 n) MODIFICATION (position c)
                (original c) (suggested d)
                (getReasonForChange MODIFICATION (original c) (suggested d))
       :: merged, n')
    else
      let '(merged, n') := mergeAdjacentChanges uuidv4 (d :: rest) n in
      (c :: merged, n').
Proof. reflexivity. Qed.

(** The guard as coded: a deletion followed by an addition with the same
    start is replaced by one modification at the position of the
    deletion. *)
Lemma merge_equal_starts (c d : Change) (rest : list Change) (n : nat) :
  type c = DELETION -> type d = ADDITION ->
  start (position d) = start (position c) ->
  fst (mergeAdjacentChanges uuidv4 (c :: d :: rest) n)
  = mkChange (changeId uuidv4 n) MODIFICATION (position c)
             (original c) (suggested d)
             (getReasonForChange MODIFICATION (original c) (suggested d))
    :: fst (mergeAdjacentChanges uuidv4 rest (S n)).
Proof.
  intros Hc Hd Hs; rewrite merge_step, Hc, Hd, Hs, Z.eqb_refl.
  change (eqb DELETION DELETION && eqb ADDITION ADDITION && true) with true.
  cbv iota; now destruct (mergeAdjacentChanges uuidv4 rest (S n)).
Qed.

(** When the starts increase strictly the guard of the merge never
    holds, and the loop copies its input. *)
Lemma merge_strict_id (l : list Change) : forall n,
  StronglySorted (fun a b => (startOf a < startOf b)%Z) l ->
  mergeAdjacentChanges uuidv4 l n = (l, n).
Proof.
  induction l as [|c tail IH]; intros n Hs; [reflexivity|].
  inversion Hs as [|? ? Htail Hall]; subst.
  destruct tail as [|next rest]; [reflexivity|].
  assert (Hlt : (startOf c < startOf next)%Z) by now inversion Hall.
  unfold startOf in Hlt.
  rewrite merge_step.
  replace (start (position next) =? start (position c))%Z with false
    by (symmetry; apply Z.eqb_neq; lia).
  rewrite andb_false_r.
  now rewrite (IH n Htail).
Qed.

(** A property of records that a merged record inherits from the
    deletion whose position it takes is kept by the merge. *)
Lemma merge_Forall (P : Change -> Prop) :
  (forall c c', position c' = position c -> type c' = MODIFICATION ->
                P c -> P c') ->
  forall l n, Forall P l -> Forall P (fst (mergeAdjacentChanges uuidv4 l n)).
Proof.
  intros Hinherit l.
  induction l as [| c | c d rest IHrest IHtail] using changes_ind2;
    intros n Hall.
  - constructor.
  - exact Hall.
  - rewrite merge_step.
    inversion Hall as [|? ? Hc Htail]; subst.
    inversion Htail as [|? ? Hd Hrest]; subst.
    destruct (eqb (type c) DELETION && eqb (type d) ADDITION
              && (start (position d) =? start (position c))%Z).
    + specialize (IHrest (S n) Hrest).
      destruct (mergeAdjacentChanges uuidv4 rest (S n)) as [merged n'].
      constructor; [|exact IHrest].
      now apply (Hinherit c).
    + specialize (IHtail n Htail).
      destruct (mergeAdjacentChanges uuidv4 (d :: rest) n) as [merged n'].
      now constructor.
Qed.

(** An order on positions that holds along the input holds along the
    output. *)
Lemma merge_sorted (R : Position -> Position -> Prop) :
  forall l n,
    StronglySorted (fun a b => R (position a) (position b)) l ->
    StronglySorted (fun a b => R (position a) (position b))
                   (fst (mergeAdjacentChanges uuidv4 l n)).
Proof.
  intros l.
  induction l as [| c | c d rest IHrest IHtail] using changes_ind2;
    intros n Hs.
  - constructor.
  - exact Hs.
  - inversion Hs as [|? ? Htail Hall]; subst.
    inversion Htail as [|? ? Hrest Hd]; subst.
    inversion Hall as [|? ? Hcd Hcrest]; subst.
    assert (Hinh : forall c0 c', position c' = position c0 ->
                     type c' = MODIFICATION ->
                     R (position c) (position c0) ->
                     R (position c) (position c'))
      by (intros ? ? Hp _ H; now rewrite Hp).
    pose proof (merge_Forall (P := fun x => R (position c) (position x))
                             Hinh) as HF.
    rewrite merge_step.
    destruct (eqb (type c) DELETION && eqb (type d) ADDITION
              && (start (position d) =? start (position c))%Z).
    + specialize (IHrest (S n) Hrest).
      specialize (HF rest (S n) Hcrest).
      destruct (mergeAdjacentChanges uuidv4 rest (S n)) as [merged n'].
      constructor; [exact IHrest | exact HF].
    + specialize (IHtail n Htail).
      specialize (HF (d :: rest) n Hall).
      destruct (mergeAdjacentChanges uuidv4 (d :: rest) n) as [merged n'].
      constructor; [exact IHtail | exact HF].
Qed.

(** The merge returns a record for every non-empty input. *)
Lemma merge_nonempty (l : list Change) (n : nat) :
  l <> [] -> fst (mergeAdjacentChanges uuidv4 l n) <> [].
Proof.
  destruct l as [|c [|d rest]]; [congruence | discriminate |].
  intros _; rewrite merge_step.
  destruct (_ && _).
  - now destruct (mergeAdjacentChanges uuidv4 rest (S n)).
  - now destruct (mergeAdjacentChanges uuidv4 (d :: rest) n).
Qed.
End MergeFacts.

(* ================================================================== *)
(** * applyChangesToContent *)
(* ================================================================== *)

Section ReconcileFacts.
Import JS DiffCalculator Properties EditorWithSuggestions.

(** An element that the comparator puts after every element of the
    sorted rest goes last. *)
Lemma insert_last (c : Change) (l : list Change) :
  Forall (fun y => (startOf c < startOf y)%Z) l ->
  insert c l = l ++ [c].
Proof.
  induction 1 as [|y l Hy Hl IH]; [reflexivity|].
  simpl; unfold compare.
  unfold startOf in Hy.
  destruct (Z.leb_spec (start (position y) - start (position c)) 0);
    [lia | now rewrite IH].
Qed.

(** Descending order of strictly increasing starts is the reverse. *)
Lemma sort_strict (l : list Change) :
  StronglySorted (fun a b => (startOf a < startOf b)%Z) l ->
  sort l = rev l.
Proof.
  induction 1 as [|c l Hs IH Hall]; [reflexivity|].
  simpl; rewrite IH.
  apply insert_last.
  now apply Forall_rev.
Qed.

Lemma applyChange_addition (result : jsstring) (c : Change) :
  type c = ADDITION ->
  applyChange result c
  = slice result 0 (startOf c) ++ suggested c
      ++ slice_from result (startOf c).
Proof. intros H; unfold applyChange; now rewrite H. Qed.

Lemma applyChange_deletion (result : jsstring) (c : Change) :
  type c = DELETION ->
  applyChange result c
  = slice result 0 (startOf c) ++ slice_from result (endOf c).
Proof. intros H; unfold applyChange; now rewrite H. Qed.

Lemma applyChange_modification (result : jsstring) (c : Change) :
  type c = MODIFICATION ->
  applyChange result c
  = slice result 0 (startOf c) ++ suggested c
      ++ slice_from result (endOf c).
Proof. intros H; unfold applyChange; now rewrite H. Qed.

(** Splicing the records of the loop from the last to the first turns the
    text that the diff takes from the original into the text that it gives
    to the transformed string; [pre] is the text before the position at
    which the loop is entered and is left alone. *)
Lemma splice_collected (uuidv4 : nat -> jsstring) (diff : list Part.t) :
  forall (pre : jsstring) (n : nat),
    fold_left applyChange (rev (collected uuidv4 diff (len pre) n))
              (pre ++ originalSide diff)
    = pre ++ suggestedSide diff.
Proof.
  induction diff as [|p rest IH]; intros pre n; [reflexivity|].
  unfold originalSide, suggestedSide in *; simpl filter.
  destruct (Part.added p) eqn:Ha; [| destruct (Part.removed p) eqn:Hr];
    simpl negb; simpl orb; cbv iota.
  - rewrite collect_added by assumption.
    simpl rev; rewrite fold_left_app, IH; simpl fold_left.
    rewrite applyChange_addition by reflexivity.
    unfold startOf; simpl.
    now rewrite slice_prefix, slice_from_suffix.
  - rewrite collect_removed by assumption.
    simpl rev; rewrite fold_left_app; simpl fold_left.
    simpl List.concat.
    rewrite <- len_app.
    rewrite (app_assoc pre (Part.value p)), IH.
    rewrite applyChange_deletion by reflexivity.
    unfold startOf, endOf; simpl.
    rewrite <- len_app, slice_from_suffix.
    now rewrite <- app_assoc, slice_prefix.
  - rewrite collect_common by assumption.
    simpl List.concat.
    rewrite <- len_app.
    rewrite !(app_assoc pre (Part.value p)).
    apply IH.
Qed.

(** The whole of [calculateWordDiff] on a diff in normal form: the merge
    finds nothing to merge and the result is what the loop pushed. *)
Lemma calculateWordDiff_normal diffWords uuidv4 original transformed n :
  normal (diffWords original transformed) = true ->
  fst (calculateWordDiff diffWords uuidv4 original transformed n)
  = collected uuidv4 (diffWords original transformed) 0 n.
Proof.
  intros Hn; unfold calculateWordDiff, collected.
  pose proof (collect_strict uuidv4 _ 0 n Hn) as Hs.
  unfold collected in Hs.
  destruct (collect uuidv4 _ 0 n) as [changes n1]; simpl in *.
  now rewrite merge_strict_id.
Qed.

(** Reconciling with every record of the diff gives the transformed
    string. *)
Lemma reconcile_all diffWords uuidv4 original transformed n :
  editScript original transformed (diffWords original transformed) ->
  applyChangesToContent original
    (fst (calculateWordDiff diffWords uuidv4 original transformed n))
  = transformed.
Proof.
  intros (Ho & Ht & Hn).
  rewrite calculateWordDiff_normal by assumption.
  unfold applyChangesToContent.
  rewrite sort_strict by now apply collect_strict.
  pose proof (splice_collected uuidv4 (diffWords original transformed) [] n)
    as H.
  simpl in H; change (len []) with 0%Z in H.
  now rewrite Ho, Ht in H.
Qed.
End ReconcileFacts.

(* ================================================================== *)
(** * Properties of the diff and of the reconciliation *)
(* ================================================================== *)

Section DiffProperties.
Import JS DiffCalculator Properties EditorWithSuggestions.
Import SuggestionRules.

Lemma StronglySorted_pairs (A : Type) (R : A -> A -> Prop) (l : list A) :
  StronglySorted R l -> ForallOrdPairs R l.
Proof. induction 1; constructor; auto. Qed.

Lemma StronglySorted_weaken (A : Type) (R S : A -> A -> Prop) (P : A -> Prop)
      (l : list A) :
  (forall a b, P a -> R a b -> S a b) ->
  Forall P l -> StronglySorted R l -> StronglySorted S l.
Proof.
  intros HRS HP Hs; induction Hs as [|a l Hs IH Ha]; constructor.
  - apply IH; now inversion HP.
  - inversion HP; subst.
    eapply Forall_impl; [|exact Ha]; simpl; auto.
Qed.

(** The round trip of an exact edit script.  For every content, context
    and recognized category (one for which [selectRules] returns its rule
    set), when [diffWords] returns an exact edit script in normal form
    from the content to the rewritten text, [generateSuggestions] is
    fulfilled with a suggestion for that content, and applying every
    change record of the suggestion to the original string with
    [applyChangesToContent] yields exactly its suggested string.  The
    condition is needed: see [round_trip_loses_white_space]. *)
Theorem round_trip
        (diffWords : jsstring -> jsstring -> list Part.t)
        (uuidv4 : nat -> jsstring) (now content type : jsstring)
        (ctx : context) (n : nat) (rules : list RuleSpec) :
  SuggestionService.selectRules type = Normal rules ->
  editScript content (SuggestionService.applyRules content rules ctx)
             (diffWords content
                        (SuggestionService.applyRules content rules ctx)) ->
  exists s,
    SuggestionService.generateSuggestions diffWords uuidv4 now content
      type ctx n = Normal s
    /\ SuggestionService.original s = content
    /\ applyChangesToContent (SuggestionService.original s)
         (SuggestionService.changes s)
       = SuggestionService.suggested s.
Proof.
  intros Hrules Hscript.
  unfold SuggestionService.generateSuggestions; rewrite Hrules.
  pose proof (reconcile_all diffWords uuidv4 n Hscript) as Hall.
  destruct (calculateWordDiff diffWords uuidv4 content
              (SuggestionService.applyRules content rules ctx) n) as [cs n1].
  eexists; split; [reflexivity|]; simpl; auto.
Qed.

Lemma round_trip_witness :
  exists s,
    SuggestionService.generateSuggestions DiffEngine.diffWords sampleUuid
      sampleNow (str "The team are working on it.") (str "grammar") [] 0
    = Normal s
    /\ SuggestionService.original s = str "The team are working on it."
    /\ applyChangesToContent (SuggestionService.original s)
         (SuggestionService.changes s)
       = SuggestionService.suggested s.
Proof.
  apply (@round_trip DiffEngine.diffWords sampleUuid sampleNow
           (str "The team are working on it.") (str "grammar") [] 0
           grammarRules).
  - reflexivity.
  - repeat split; vm_compute; reflexivity.
Defined.

(** The normal form matters: were an insertion reported before a removal
    at the same place, both records would start at the same offset, the
    sort would leave them in this order, and the removal would then cut
    into the inserted text. *)
Remark insertion_before_removal :
  let diff := [ Part.mk (str "is") true false;
                Part.mk (str "are") false true ] in
  originalSide diff = str "are"
  /\ suggestedSide diff = str "is"
  /\ applyChangesToContent (str "are")
       (fst (calculateWordDiff (fun _ _ => diff) sampleUuid
               (str "are") (str "is") 0))
     = str "re".
Proof. repeat split; vm_compute; reflexivity. Qed.

(** The invariants of the change records.  For every original and
    transformed string for which the parts of [diffWords] that are not
    insertions spell the original (without this the ends can lie beyond
    the original: see [deletion_beyond_original]), the list returned by
    [calculateWordDiff] is sorted
    ascending by [position.start], no record reaches into a later one,
    every record has [0 <= start <= end <= original.length], every
    addition has an empty original text and [start = end], and every
    deletion has an empty suggested text and [end - start] equal to the
    length of its original text. *)
Theorem change_record_invariants
        (diffWords : jsstring -> jsstring -> list Part.t)
        (uuidv4 : nat -> jsstring) (original transformed : jsstring)
        (n : nat) :
  originalSide (diffWords original transformed) = original ->
  let changes :=
    fst (calculateWordDiff diffWords uuidv4 original transformed n) in
  sortedByStart changes
  /\ nonOverlapping changes
  /\ Forall (inRange original) changes
  /\ Forall additionShape changes
  /\ Forall deletionShape changes.
Proof.
  intros Ho changes; subst changes.
  unfold calculateWordDiff.
  set (diff := diffWords original transformed) in *.
  pose proof (collect_lower uuidv4 diff 0 n) as Hlow.
  pose proof (collect_upper uuidv4 diff 0 n) as Hup.
  pose proof (collect_chain uuidv4 diff 0 n) as Hchain.
  pose proof (collect_ordered uuidv4 diff 0 n) as Hord.
  pose proof (collect_shapes uuidv4 diff 0 n) as Hshape.
  unfold collected in *.
  destruct (collect uuidv4 diff 0 n) as [raw n1]; simpl in *.
  rewrite Ho in Hup.
  repeat split.
  - apply (merge_sorted uuidv4 (fun p q => (start p <= start q)%Z)).
    eapply StronglySorted_weaken; [|exact Hord|exact Hchain].
    unfold startOf, endOf; simpl; intros; lia.
  - apply StronglySorted_pairs.
    apply (merge_sorted uuidv4 (fun p q => (end_ p <= start q)%Z)).
    exact Hchain.
  - apply merge_Forall.
    + unfold inRange, startOf, endOf; intros c c' Hp _; now rewrite Hp.
    + rewrite Forall_forall in *; intros c Hc.
      specialize (Hlow c Hc); specialize (Hup c Hc).
      specialize (Hord c Hc); unfold inRange; lia.
  - apply merge_Forall.
    + unfold additionShape; intros c c' _ Hm _ Ha.
      rewrite Hm in Ha; discriminate.
    + eapply Forall_impl; [|exact Hshape]; simpl; tauto.
  - apply merge_Forall.
    + unfold deletionShape; intros c c' _ Hm _ Ha.
      rewrite Hm in Ha; discriminate.
    + eapply Forall_impl; [|exact Hshape]; simpl; tauto.
Qed.

Lemma change_record_invariants_witness :
  let original := str "We utilize state-of-the-art methodologies." in
  let changes :=
    fst (calculateWordDiff DiffEngine.diffWords sampleUuid original
           (str "We use modern methodologies.") 0) in
  sortedByStart changes
  /\ nonOverlapping changes
  /\ Forall (inRange original) changes
  /\ Forall additionShape changes
  /\ Forall deletionShape changes.
Proof.
  apply (@change_record_invariants DiffEngine.diffWords sampleUuid
           (str "We utilize state-of-the-art methodologies.")
           (str "We use modern methodologies.") 0).
  vm_compute; reflexivity.
Defined.

(** C2 - Merge of a replacement (the code at the failing input).  When
    [diffWords] reports the replacement of "are" by "is" as a removal
    directly followed by an insertion, [calculateWordDiff] returns two
    adjacent records, the deletion of "are" at [9, 12) and the addition of
    "is" at 12, and no modification record: the addition starts where the
    deletion ends, so the guard of [mergeAdjacentChanges], which compares
    the two starts, fails. *)
Theorem merge_misses_replacement
        (diffWords : jsstring -> jsstring -> list Part.t)
        (uuidv4 : nat -> jsstring) (n : nat) :
  diffWords (str "The team are working on it.")
            (str "The team is working on it.")
  = [ Part.mk (str "The team ") false false;
      Part.mk (str "are") false true;
      Part.mk (str "is") true false;
      Part.mk (str " working on it.") false false ] ->
  map (fun c => (type c, position c, original c, suggested c))
      (fst (calculateWordDiff diffWords uuidv4
              (str "The team are working on it.")
              (str "The team is working on it.") n))
  = [ (DELETION, mkPosition 9 12, str "are", []);
      (ADDITION, mkPosition 12 12, [], str "is") ].
Proof.
  intros Hdiff; unfold calculateWordDiff; rewrite Hdiff.
  vm_compute; reflexivity.
Qed.

Lemma merge_misses_replacement_witness :
  map (fun c => (type c, position c, original c, suggested c))
      (fst (calculateWordDiff DiffEngine.diffWords sampleUuid
              (str "The team are working on it.")
              (str "The team is working on it.") 0))
  = [ (DELETION, mkPosition 9 12, str "are", []);
      (ADDITION, mkPosition 12 12, [], str "is") ].
Proof.
  apply (@merge_misses_replacement DiffEngine.diffWords sampleUuid 0).
  vm_compute; reflexivity.
Defined.

(** The same for every diff in normal form: no modification record is
    ever returned. *)
Lemma merge_never_fires
      (diffWords : jsstring -> jsstring -> list Part.t)
      (uuidv4 : nat -> jsstring) (original transformed : jsstring)
      (n : nat) :
  normal (diffWords original transformed) = true ->
  Forall (fun c => type c <> MODIFICATION)
         (fst (calculateWordDiff diffWords uuidv4 original transformed n)).
Proof.
  intros Hn; rewrite calculateWordDiff_normal by assumption.
  eapply Forall_impl; [|apply collect_shapes]; simpl; tauto.
Qed.
End DiffProperties.

Section ReconcileProperties.
Import JS DiffCalculator Properties EditorWithSuggestions.

Lemma insert_permutation (c : Change) (l : list Change) :
  Permutation (insert c l) (c :: l).
Proof.
  induction l as [|y l IH]; simpl; [reflexivity|].
  destruct (compare c y <=? 0)%Z; [reflexivity|].
  rewrite IH; apply perm_swap.
Qed.

Lemma sort_permutation (l : list Change) : Permutation (sort l) l.
Proof.
  induction l as [|c l IH]; simpl; [reflexivity|].
  rewrite insert_permutation; now constructor.
Qed.

Lemma insert_descending (c : Change) (l : list Change) :
  StronglySorted (fun a b => (startOf b <= startOf a)%Z) l ->
  StronglySorted (fun a b => (startOf b <= startOf a)%Z) (insert c l).
Proof.
  induction 1 as [|y l Hs IH Hall]; simpl; [repeat constructor|].
  unfold compare; fold (startOf y) (startOf c).
  destruct (Z.leb_spec (startOf y - startOf c) 0).
  - constructor; [now constructor|].
    constructor; [lia|].
    eapply Forall_impl; [|exact Hall]; simpl; intros; lia.
  - constructor; [exact IH|].
    rewrite (insert_permutation c l).
    constructor; [lia | exact Hall].
Qed.

Lemma sort_descending (l : list Change) :
  StronglySorted (fun a b => (startOf b <= startOf a)%Z) (sort l).
Proof.
  induction l as [|c l IH]; simpl; [constructor|].
  now apply insert_descending.
Qed.

(** C5 (as amended) - overlapping records are not rejected.  For every
    original string and every accepted list with two records, at different
    indices, whose ranges overlap, reconciliation completes normally with
    the string obtained by splicing the records one after the other in
    descending order of [position.start], which is a reordering of the
    accepted list; it does not end in an OverlappingChanges error. *)
Theorem overlapping_changes_spliced
        (original : jsstring) (accepted : list Change)
        (i j : nat) (a b : Change) :
  nth_error accepted i = Some a ->
  nth_error accepted j = Some b ->
  i <> j ->
  overlap a b ->
  reconcile original accepted
  = Normal (fold_left applyChange (sort accepted) original)
  /\ Permutation (sort accepted) accepted
  /\ StronglySorted (fun x y => (startOf y <= startOf x)%Z) (sort accepted)
  /\ reconcile original accepted <> Throw OverlappingChanges.
Proof.
  intros _ _ _ _; repeat split.
  - apply sort_permutation.
  - apply sort_descending.
  - discriminate.
Qed.

Lemma overlapping_changes_spliced_witness :
  let a := mkChange (str "chg_1a2b3c4d") MODIFICATION (mkPosition 0 5)
                    (str "Hello") (str "Howdy") (str "Enhances clarity") in
  let b := mkChange (str "chg_5e6f7a8b") DELETION (mkPosition 3 8)
                    (str "lo wo") [] (str "Simplifies phrasing") in
  reconcile (str "Hello world.") [a; b]
  = Normal (fold_left applyChange (sort [a; b]) (str "Hello world."))
  /\ Permutation (sort [a; b]) [a; b]
  /\ StronglySorted (fun x y => (startOf y <= startOf x)%Z) (sort [a; b])
  /\ reconcile (str "Hello world.") [a; b] <> Throw OverlappingChanges.
Proof.
  intros a b.
  apply (@overlapping_changes_spliced (str "Hello world.") [a; b] 0 1 a b).
  - reflexivity.
  - reflexivity.
  - discriminate.
  - unfold overlap, startOf, endOf; simpl; lia.
Defined.

(** C5 (as stated) fails: two overlapping records are accepted and a
    spliced string is returned. *)
Lemma overlapping_changes_accepted :
  let a := mkChange (str "chg_1a2b3c4d") MODIFICATION (mkPosition 0 5)
                    (str "Hello") (str "Howdy") (str "Enhances clarity") in
  let b := mkChange (str "chg_5e6f7a8b") DELETION (mkPosition 3 8)
                    (str "lo wo") [] (str "Simplifies phrasing") in
  overlap a b
  /\ reconcile (str "Hello world.") [a; b] = Normal (str "Howdyd.").
Proof.
  intros a b; split.
  - unfold overlap, startOf, endOf; simpl; lia.
  - vm_compute; reflexivity.
Qed.

(** C10 - Reconciliation is total.  For every original string and every
    list of change records, with overlapping ranges or positions outside
    the string as well, [applyChangesToContent] returns a string: the
    completion of [reconcile] is normal and never a thrown error.  The
    slices it takes never reach outside the string they are taken from:
    whatever the indices, a slice is a factor of the string, and [slice]
    on indices inside the string is the text between them. *)
Theorem reconciliation_total :
  (forall (original : jsstring) (changes : list Change),
      (exists result,
          reconcile original changes = Normal result
          /\ result = applyChangesToContent original changes)
      /\ forall e, reconcile original changes <> Throw e)
  /\ (forall (s : jsstring) (from to : Z),
         (len (slice s from to) <= len s)%Z
         /\ exists before after, s = before ++ slice s from to ++ after)
  /\ (forall (a b c : jsstring),
         slice (a ++ b ++ c) (len a) (len a + len b) = b).
Proof.
  split; [|split].
  - intros original changes; split.
    + now eexists.
    + discriminate.
  - intros s from to; split; [apply slice_length | apply slice_factor].
  - intros a b c.
    unfold slice.
    pose proof (len_nonneg a); pose proof (len_nonneg b);
      pose proof (len_nonneg c).
    rewrite !clamp_index_inside by (rewrite !len_app; lia).
    replace (Z.to_nat (len a)) with (List.length a) by (unfold len; lia).
    replace (Z.to_nat (Z.max (len a + len b - len a) 0))
      with (List.length b) by (unfold len; lia).
    rewrite skipn_app, Nat.sub_diag, skipn_all; simpl.
    rewrite firstn_app, Nat.sub_diag, firstn_all; simpl.
    apply app_nil_r.
Qed.

(** Positions outside the string are clamped by [slice]: a deletion that
    reaches beyond both ends empties the string, and an addition beyond
    the end appends. *)
Example reconcile_out_of_range :
  reconcile (str "abc")
    [mkChange (str "chg_0a1b2c3d") DELETION (mkPosition (-5) 100)
              (str "abc") [] (str "Simplifies phrasing")]
  = Normal []
  /\ reconcile (str "abc")
       [mkChange (str "chg_4e5f6a7b") ADDITION (mkPosition 100 100)
                 [] (str "de") (str "Adds additional context")]
     = Normal (str "abcde").
Proof. split; vm_compute; reflexivity. Qed.

(** Reconciling with no record returns the original string. *)
Example reconcile_nothing (original : jsstring) :
  reconcile original [] = Normal original.
Proof. reflexivity. Qed.
End ReconcileProperties.

(* ================================================================== *)
(** * Properties of the suggestion service *)
(* ================================================================== *)

Section ServiceProperties.
Import JS DiffCalculator Properties SuggestionRules.

(** [selectRules] returns a rule set exactly on the four categories. *)
Lemma selectRules_recognized (type : jsstring) :
  recognized type
  <-> exists rules, SuggestionService.selectRules type = Normal rules.
Proof.
  unfold recognized, SuggestionService.selectRules; split.
  - intros [H | [H | [H | [H | []]]]]; subst; eexists; reflexivity.
  - intros [rules H].
    destruct (eqb type (str "improve")) eqn:E1;
      [apply eqb_eq in E1; simpl; auto|].
    destruct (eqb type (str "grammar")) eqn:E2;
      [apply eqb_eq in E2; simpl; auto|].
    destruct (eqb type (str "simplify")) eqn:E3;
      [apply eqb_eq in E3; simpl; auto|].
    destruct (eqb type (str "expand")) eqn:E4;
      [apply eqb_eq in E4; simpl; auto 6|].
    discriminate.
Qed.

(** C4 (as amended) - unknown category.  For every category outside
    improve, grammar, simplify and expand, and for every content and
    context, [generateSuggestions] is rejected with status 500, code
    GENERATION_FAILED, the message "Failed to generate suggestions" and,
    as [details.reason], "Unknown suggestion type: " followed by the
    category; no rule set is applied in its place. *)
Theorem unknown_category_fails
        (diffWords : jsstring -> jsstring -> list Part.t)
        (uuidv4 : nat -> jsstring) (now content type : jsstring)
        (ctx : context) (n : nat) :
  ~ recognized type ->
  SuggestionService.generateSuggestions diffWords uuidv4 now content type
    ctx n
  = Throw (SuggestionService.mkFailure 500 (str "GENERATION_FAILED")
             (str "Failed to generate suggestions")
             (str "Unknown suggestion type: " ++ type)).
Proof.
  intros Hun.
  unfold SuggestionService.generateSuggestions.
  destruct (SuggestionService.selectRules type) as [rules|msg] eqn:E.
  - exfalso; apply Hun, selectRules_recognized; eauto.
  - unfold SuggestionService.selectRules in E.
    repeat match type of E with
           | (if ?b then _ else _) = _ => destruct b; [discriminate|]
           end.
    now inversion E.
Qed.

Lemma unknown_category_fails_witness :
  SuggestionService.generateSuggestions DiffEngine.diffWords sampleUuid
    sampleNow (str "Our app is good.") (str "translate") [] 0
  = Throw (SuggestionService.mkFailure 500 (str "GENERATION_FAILED")
             (str "Failed to generate suggestions")
             (str "Unknown suggestion type: " ++ str "translate")).
Proof.
  apply (@unknown_category_fails DiffEngine.diffWords sampleUuid sampleNow
           (str "Our app is good.") (str "translate") [] 0).
  unfold recognized; simpl.
  intros [H | [H | [H | [H | []]]]]; discriminate.
Defined.

(** C4 (as stated) fails: the error code of the rejection is not
    UNKNOWN_CATEGORY. *)
Lemma unknown_category_code :
  exists failure,
    SuggestionService.generateSuggestions DiffEngine.diffWords sampleUuid
      sampleNow (str "Our app is good.") (str "translate") [] 0
    = Throw failure
    /\ SuggestionService.code failure = str "GENERATION_FAILED"
    /\ SuggestionService.code failure <> str "UNKNOWN_CATEGORY".
Proof.
  eexists; split; [reflexivity|]; split; [reflexivity | discriminate].
Qed.

(** C3 - The simplify scenario (the code at the failing input).  On "We
    utilize state-of-the-art methodologies." the simplify rules rewrite
    "utilize" and "state-of-the-art".  The entry of their table that
    turns "methodology" into "method" is applied as the whole-word
    pattern [\bmethodology\b], which rewrites the singular and does not
    match the plural "methodologies".  Whatever [diffWords] returns and
    whatever the context, the suggested string is "We use modern
    methodologies." and not "We use modern methods.". *)
Theorem simplify_misses_plural
        (diffWords : jsstring -> jsstring -> list Part.t)
        (uuidv4 : nat -> jsstring) (now : jsstring) (ctx : context)
        (n : nat) :
  exists s,
    SuggestionService.generateSuggestions diffWords uuidv4 now
      (str "We utilize state-of-the-art methodologies.") (str "simplify")
      ctx n = Normal s
    /\ SuggestionService.original s
       = str "We utilize state-of-the-art methodologies."
    /\ SuggestionService.suggested s = str "We use modern methodologies."
    /\ SuggestionService.suggested s <> str "We use modern methods."
    /\ RegExp.replace_gi (RegExp.whole "methodology") "method"
         (str "methodology")
       = str "method"
    /\ RegExp.replace_gi (RegExp.whole "methodology") "method"
         (str "methodologies")
       = str "methodologies".
Proof.
  assert (Hrules : SuggestionService.applyRules
                     (str "We utilize state-of-the-art methodologies.")
                     simplificationRules ctx
                   = str "We use modern methodologies.")
    by (vm_compute; reflexivity).
  unfold SuggestionService.generateSuggestions.
  change (SuggestionService.selectRules (str "simplify"))
    with (@Normal (list RuleSpec) jsstring simplificationRules).
  cbv iota; rewrite Hrules.
  destruct (calculateWordDiff diffWords uuidv4 _ _ n) as [changes n1].
  eexists; split; [reflexivity|].
  repeat split; try discriminate; vm_compute; reflexivity.
Qed.
End ServiceProperties.

(* ================================================================== *)
(** * calculateConfidence *)
(* ================================================================== *)

Section ConfidenceProperties.
Import JS DiffCalculator Properties.
Import SuggestionService.

Lemma max_le (a b : Q) : a <= b -> Math.max a b == b.
Proof.
  intros H; unfold Math.max.
  apply Qle_bool_iff in H; now rewrite H.
Qed.

Lemma max_gt (a b : Q) : b < a -> Math.max a b == a.
Proof.
  intros H; unfold Math.max.
  destruct (Qle_bool a b) eqn:E; [|reflexivity].
  apply Qle_bool_iff in E; lra.
Qed.

(** [Math.round] leaves an integer as it is. *)
Lemma round_integer (q : Q) (z : Z) :
  q == inject_Z z -> Math.round q = inject_Z z.
Proof.
  intros H; unfold Math.round; f_equal.
  rewrite (Qfloor_comp (q + (1 # 2)) (inject_Z z + (1 # 2)))
    by (rewrite H; reflexivity).
  unfold Qfloor, Qplus, inject_Z; simpl.
  symmetry; apply Z.div_unique with 1%Z; lia.
Qed.

(** The size penalty is one hundredth for each large change. *)
Lemma sizePenalty_sum (changes : list Change) : forall acc : Q,
  fold_left
    (fun sum change =>
       let size := Z.max (len (DiffCalculator.original change))
                         (len (DiffCalculator.suggested change)) in
       sum + (if (size >? 20)%Z then 0.01 else 0))
    changes acc
  == acc + inject_Z (Z.of_nat (largeChanges changes)) * 0.01.
Proof.
  induction changes as [|c rest IH]; intros acc.
  - unfold largeChanges; simpl; change (inject_Z 0) with 0; lra.
  - simpl fold_left; rewrite IH.
    unfold largeChanges; simpl filter.
    destruct (Z.max _ _ >? 20)%Z.
    + simpl List.length; rewrite Nat2Z.inj_succ; unfold Z.succ.
      rewrite inject_Z_plus; change (inject_Z 1) with 1; lra.
    + lra.
Qed.

Lemma largeChanges_le (changes : list Change) :
  (largeChanges changes <= List.length changes)%nat.
Proof. unfold largeChanges; apply filter_length_le. Qed.

(** The score before clamping and rounding, in hundredths. *)
Lemma raw_score_hundredths (a b : Z) (x : Q) :
  x == 0.95 - inject_Z a * 0.02 - inject_Z b * 0.01 ->
  x * 100 == inject_Z (95 - 2 * a - b).
Proof.
  intros ->.
  unfold Z.sub; rewrite !inject_Z_plus, !inject_Z_opp, inject_Z_mult.
  change (inject_Z 95) with 95; change (inject_Z 2) with 2.
  lra.
Qed.

Lemma max_hundredths (z : Z) (x : Q) :
  x * 100 == inject_Z z ->
  Math.max 0.5 x * 100 == inject_Z (Z.max 50 z).
Proof.
  intros Hx.
  destruct (Z.max_spec 50 z) as [[Hlt ->] | [Hle ->]].
  - rewrite Zlt_Qlt in Hlt; change (inject_Z 50) with 50 in Hlt.
    rewrite max_le; [exact Hx | lra].
  - rewrite Zle_Qle in Hle; change (inject_Z 50) with 50 in *.
    destruct (Qlt_le_dec x 0.5) as [Hsmall | Hbig].
    + rewrite max_gt by exact Hsmall; lra.
    + rewrite max_le by exact Hbig; lra.
Qed.

(** The score in hundredths. *)
Lemma confidence_hundredths (changes : list Change) :
  changes <> [] ->
  calculateConfidence changes
  == inject_Z (Z.max 50 (95 - 2 * Z.of_nat (List.length changes)
                         - Z.of_nat (largeChanges changes))) / 100.
Proof.
  intros Hne; unfold calculateConfidence.
  destruct changes as [|c rest]; [congruence|].
  set (l := c :: rest) in *.
  change (List.length l =? 0)%nat with false; cbv iota.
  set (x := 0.95 - _ * 0.02 - _).
  assert (Hx : x * 100 == inject_Z (95 - 2 * Z.of_nat (List.length l)
                                    - Z.of_nat (largeChanges l))).
  { apply raw_score_hundredths; subst x.
    rewrite sizePenalty_sum; lra. }
  apply max_hundredths in Hx.
  rewrite (round_integer Hx).
  reflexivity.
Qed.

(** C8 - Confidence score.  With numbers as exact rationals: for a
    non-empty list of change records the score is
    [max(0.5, 0.95 - 0.02 * n - 0.01 * k)], where [n] is the number of
    records and [k] the number of those whose longer text has more than
    20 characters; this value is a whole number of hundredths,
    so rounding to two decimal places returns it unchanged.  The empty
    list scores exactly 1.  The score always lies between 0 and 1. *)
Theorem confidence_score (changes : list Change) :
  let n := inject_Z (Z.of_nat (List.length changes)) in
  let k := inject_Z (Z.of_nat (largeChanges changes)) in
  (changes = [] -> calculateConfidence changes == 1)
  /\ (changes <> [] ->
      calculateConfidence changes
      == Math.max 0.5 (0.95 - 0.02 * n - 0.01 * k)
      /\ exists hundredths : Z,
           calculateConfidence changes == inject_Z hundredths / 100)
  /\ 0 <= calculateConfidence changes <= 1.
Proof.
  intros n k; split; [|split].
  - intros ->; reflexivity.
  - intros Hne; split; [|eexists; now apply confidence_hundredths].
    rewrite (confidence_hundredths Hne).
    assert (Hm : Math.max 0.5 (0.95 - 0.02 * n - 0.01 * k) * 100
                 == inject_Z (Z.max 50
                                (95 - 2 * Z.of_nat (List.length changes)
                                 - Z.of_nat (largeChanges changes)))).
    { apply max_hundredths, raw_score_hundredths; subst n k; lra. }
    rewrite <- Hm; field.
  - destruct changes as [|c rest]; [split; discriminate|].
    rewrite confidence_hundredths by discriminate.
    set (z := Z.max 50 _).
    assert (Hz : (50 <= z <= 95)%Z).
    { subst z.
      pose proof (Nat2Z.is_nonneg (List.length (c :: rest))).
      pose proof (Nat2Z.is_nonneg (largeChanges (c :: rest))).
      lia. }
    destruct Hz as [Hlo Hhi].
    rewrite Zle_Qle in Hlo, Hhi.
    change (inject_Z 50) with 50 in Hlo; change (inject_Z 95) with 95 in Hhi.
    split.
    + apply Qle_shift_div_l; [reflexivity | lra].
    + apply Qle_shift_div_r; [reflexivity | lra].
Qed.

Lemma confidence_score_witness :
  let changes :=
    [ mkChange (str "chg_0a1b2c3d") DELETION (mkPosition 11 27)
               (str "state-of-the-art") [] (str "Simplifies phrasing");
      mkChange (str "chg_4e5f6a7b") ADDITION (mkPosition 27 27)
               [] (str "a modern, well understood and documented")
               (str "Adds additional context") ] in
  calculateConfidence changes == 0.90
  /\ calculateConfidence [] == 1.
Proof.
  intros changes.
  destruct (confidence_score changes) as (_ & Hformula & _).
  destruct (confidence_score []) as (Hempty & _ & _).
  split.
  - destruct Hformula as [-> _]; [discriminate | reflexivity].
  - apply Hempty; reflexivity.
Defined.
End ConfidenceProperties.

(* ================================================================== *)
(** * getReasonForChange *)
(* ================================================================== *)

Section ReasonProperties.
Import JS RegExp DiffCalculator Properties.

Lemma gt_true (a b : Q) : gt a b = true <-> b < a.
Proof.
  unfold gt; rewrite negb_true_iff.
  destruct (Qle_bool a b) eqn:E.
  - apply Qle_bool_iff in E; split; [discriminate | lra].
  - split; [intros _ | reflexivity].
    apply Qnot_le_lt; intros H; apply Qle_bool_iff in H; congruence.
Qed.

Lemma gt_false (a b : Q) : gt a b = false <-> a <= b.
Proof.
  unfold gt; rewrite negb_false_iff; apply Qle_bool_iff.
Qed.

Lemma number_nonneg (s : jsstring) : 0 <= number (len s).
Proof.
  unfold number; change 0 with (inject_Z 0).
  rewrite <- Zle_Qle; apply len_nonneg.
Qed.

Lemma getGrammarReason_nonempty (a b : jsstring) : getGrammarReason a b <> [].
Proof.
  unfold getGrammarReason.
  repeat match goal with
         | |- (if ?c then _ else _) <> _ => destruct c
         end; discriminate.
Qed.

(** A reason is never the empty string, whatever the type. *)
Lemma reason_nonempty (type original suggested : jsstring) :
  getReasonForChange type original suggested <> [].
Proof.
  unfold getReasonForChange.
  repeat match goal with
         | |- getGrammarReason _ _ <> _ => apply getGrammarReason_nonempty
         | |- (if ?c then _ else _) <> _ => destruct c
         end; discriminate.
Qed.

(** C9 (as amended) - reasons by default.  For a modification that is
    neither a grammar correction nor a word-choice improvement, the reason
    is "Simplifies expression" when the original text is more than one and
    a half times as long as the suggested text, "Adds more detail" when the
    suggested text is more than one and a half times as long as the
    original text, and "Enhances clarity" otherwise.  An addition gets
    "Adds descriptive emphasis" when its lower-cased text contains one of
    the words innovative, exceptional, comprehensive, and "Adds additional
    context" otherwise.  A deletion gets "Removes unnecessary modifier"
    when its lower-cased text contains one of the words very, really,
    quite, just, and "Simplifies phrasing" otherwise.  The reason is never
    empty. *)
Theorem reason_defaults (original suggested : jsstring) :
  isGrammarCorrection (toLowerCase original) (toLowerCase suggested)
  = false ->
  isWordChoiceImprovement (toLowerCase original) (toLowerCase suggested)
  = false ->
  let longer a b := number (len b) * 1.5 < number (len a) in
  (longer original suggested ->
   getReasonForChange MODIFICATION original suggested
   = str "Simplifies expression")
  /\ (longer suggested original ->
      getReasonForChange MODIFICATION original suggested
      = str "Adds more detail")
  /\ (~ longer original suggested -> ~ longer suggested original ->
      getReasonForChange MODIFICATION original suggested
      = str "Enhances clarity")
  /\ (forall before text,
         getReasonForChange ADDITION before text
         = if test false (toLowerCase text) emphasisWords
           then str "Adds descriptive emphasis"
           else str "Adds additional context")
  /\ (forall text after,
         getReasonForChange DELETION text after
         = if test false (toLowerCase text) fillerWords
           then str "Removes unnecessary modifier"
           else str "Simplifies phrasing")
  /\ (forall type a b, getReasonForChange type a b <> []).
Proof.
  intros Hg Hw longer.
  assert (Hm : getReasonForChange MODIFICATION original suggested
               = if gt (number (len original)) (number (len suggested) * 1.5)
                 then str "Simplifies expression"
                 else if gt (number (len suggested))
                            (number (len original) * 1.5)
                 then str "Adds more detail"
                 else str "Enhances clarity").
  { unfold getReasonForChange.
    change (eqb MODIFICATION ADDITION) with false.
    change (eqb MODIFICATION DELETION) with false.
    change (eqb MODIFICATION MODIFICATION) with true.
    cbv iota; now rewrite Hg, Hw. }
  pose proof (number_nonneg original) as Ho.
  pose proof (number_nonneg suggested) as Hs.
  subst longer; cbv beta.
  repeat split.
  - intros H; rewrite Hm.
    apply gt_true in H; now rewrite H.
  - intros H; rewrite Hm.
    destruct (gt (number (len original)) (number (len suggested) * 1.5))
      eqn:E.
    + apply gt_true in E; lra.
    + apply gt_true in H; now rewrite H.
  - intros H1 H2; rewrite Hm.
    destruct (gt (number (len original)) (number (len suggested) * 1.5))
      eqn:E1; [apply gt_true in E1; contradiction|].
    destruct (gt (number (len suggested)) (number (len original) * 1.5))
      eqn:E2; [apply gt_true in E2; contradiction|].
    reflexivity.
  - intros type a b; apply reason_nonempty.
Qed.

Lemma reason_defaults_witness :
  getReasonForChange MODIFICATION (str "at this point in time") (str "now")
  = str "Simplifies expression"
  /\ getReasonForChange ADDITION [] (str "an innovative ")
     = str "Adds descriptive emphasis"
  /\ getReasonForChange DELETION (str "really ") []
     = str "Removes unnecessary modifier".
Proof.
  destruct (@reason_defaults (str "at this point in time") (str "now"))
    as (H1 & _ & _ & H4 & H5 & _).
  - vm_compute; reflexivity.
  - vm_compute; reflexivity.
  - split; [|split].
    + apply H1; vm_compute; reflexivity.
    + rewrite H4; vm_compute; reflexivity.
    + rewrite H5; vm_compute; reflexivity.
Defined.

(** C9 (as stated) fails: the reason of a modification that only adds
    length is "Adds more detail", not "adds detail", and an addition may
    get another reason than the default. *)
Lemma reason_labels_differ :
  isGrammarCorrection (toLowerCase (str "ab")) (toLowerCase (str "abcd"))
  = false
  /\ isWordChoiceImprovement (toLowerCase (str "ab"))
                             (toLowerCase (str "abcd")) = false
  /\ number (len (str "ab")) * 1.5 < number (len (str "abcd"))
  /\ getReasonForChange MODIFICATION (str "ab") (str "abcd")
     = str "Adds more detail"
  /\ getReasonForChange MODIFICATION (str "ab") (str "abcd")
     <> str "adds detail"
  /\ getReasonForChange ADDITION [] (str "innovative ")
     = str "Adds descriptive emphasis"
  /\ getReasonForChange ADDITION [] (str "innovative ")
     <> str "adds context".
Proof.
  repeat split; try (vm_compute; reflexivity); vm_compute; discriminate.
Qed.
End ReasonProperties.

(* ================================================================== *)
(** * tokenize *)
(* ================================================================== *)

Section TokenizeFacts.
Import JS DiffCalculator Properties.

(** The matches of the tokenizer spell the text: nothing is skipped. *)
Lemma matches_concat (text : jsstring) : List.concat (matches text) = text.
Proof.
  induction text as [|c rest IH]; [reflexivity|].
  simpl matches.
  destruct (matches rest) as [|[|d run] more]; simpl in *;
    try (now rewrite IH).
  destruct (sameClass (classOf c) (classOf d)); simpl; now rewrite <- IH.
Qed.

Lemma sameClass_eq (a b : charClass) : sameClass a b = true <-> a = b.
Proof. destruct a, b; simpl; split; congruence. Qed.

(** Each match is a non-empty run of characters of one class. *)
Lemma matches_uniform (text : jsstring) :
  Forall (fun run =>
            exists c tail,
              run = c :: tail
              /\ Forall (fun d => classOf d = classOf c) tail)
         (matches text).
Proof.
  induction text as [|c rest IH]; [constructor|].
  simpl matches.
  destruct (matches rest) as [|[|d run] more].
  - constructor; [|constructor]. exists c, []; auto.
  - constructor; [|exact IH]. exists c, []; auto.
  - inversion IH as [|? ? (d' & tail & Hrun & Htail) Hmore]; subst.
    inversion Hrun; subst d' tail.
    destruct (sameClass (classOf c) (classOf d)) eqn:E.
    + apply sameClass_eq in E.
      constructor; [|exact Hmore].
      exists c, (d :: run); split; [reflexivity|].
      constructor; [congruence|].
      eapply Forall_impl; [|exact Htail]; simpl; congruence.
    + constructor; [|exact IH]. exists c, []; auto.
Qed.

Lemma tokensFrom_values (values : list jsstring) : forall index,
  map Token.value (tokensFrom values index) = values.
Proof.
  induction values as [|v rest IH]; intros index; simpl;
    [reflexivity | now rewrite IH].
Qed.

(** No character is both of a word and white space. *)
Lemma space_not_word (c : ascii) : isSpace c = true -> isWord c = false.
Proof.
  destruct c as [[] [] [] [] [] [] [] []]; vm_compute; congruence.
Qed.

Lemma classOf_space (c : ascii) :
  classOf c = SpaceChar <-> isSpace c = true.
Proof.
  unfold classOf; split.
  - destruct (isWord c); [discriminate|].
    destruct (isSpace c); [reflexivity | discriminate].
  - intros H; now rewrite (space_not_word _ H), H.
Qed.

(** A match that contains a white space character is white space
    throughout, and is typed so. *)
Lemma tokenType_whitespace (run : jsstring) (c : ascii) (tail : jsstring) :
  run = c :: tail ->
  Forall (fun d => classOf d = classOf c) tail ->
  (exists d, In d run /\ isSpace d = true) ->
  forallb isSpace run = true /\ tokenType run = str "whitespace".
Proof.
  intros -> Htail (d & Hin & Hd).
  assert (Hc : classOf c = SpaceChar).
  { apply classOf_space in Hd.
    destruct Hin as [-> | Hin]; [exact Hd|].
    rewrite Forall_forall in Htail; now rewrite <- (Htail d Hin). }
  assert (Hall : forallb isSpace (c :: tail) = true).
  { apply forallb_forall; intros x [<- | Hx].
    - now apply classOf_space.
    - rewrite Forall_forall in Htail.
      apply classOf_space; now rewrite (Htail x Hx). }
  split; [exact Hall|].
  unfold tokenType.
  change (negb (eqb (c :: tail) [])) with true; cbv iota beta.
  rewrite Hall.
  replace (forallb isWord (c :: tail)) with false; [reflexivity|].
  simpl; apply classOf_space in Hc.
  now rewrite (space_not_word _ Hc).
Qed.

(** A diff for which the loop pushes no record has equal sides. *)
Lemma collected_nil_sides (uuidv4 : nat -> jsstring) (diff : list Part.t) :
  forall position n,
    collected uuidv4 diff position n = [] ->
    originalSide diff = suggestedSide diff.
Proof.
  induction diff as [|p rest IH]; intros position n H; [reflexivity|].
  destruct (Part.added p) eqn:Ha; [| destruct (Part.removed p) eqn:Hr].
  - rewrite collect_added in H by assumption; discriminate.
  - rewrite collect_removed in H by assumption; discriminate.
  - rewrite collect_common in H by assumption.
    unfold originalSide, suggestedSide in *; simpl.
    rewrite Ha, Hr; simpl.
    f_equal; eapply IH; eassumption.
Qed.

(** Different strings always give a record. *)
Lemma diff_nonempty
      (diffWords : jsstring -> jsstring -> list Part.t)
      (uuidv4 : nat -> jsstring) (original transformed : jsstring)
      (n : nat) :
  originalSide (diffWords original transformed) = original ->
  suggestedSide (diffWords original transformed) = transformed ->
  original <> transformed ->
  fst (calculateWordDiff diffWords uuidv4 original transformed n) <> [].
Proof.
  intros Ho Ht Hne; unfold calculateWordDiff.
  pose proof (@collected_nil_sides uuidv4 (diffWords original transformed)
                0 n) as Hnil.
  unfold collected in Hnil.
  destruct (collect uuidv4 (diffWords original transformed) 0 n)
    as [raw n1]; simpl in Hnil.
  apply merge_nonempty.
  intros ->; apply Hne.
  pose proof (Hnil eq_refl) as Hsides; congruence.
Qed.

End TokenizeFacts.

(* ================================================================== *)
(** * The word diff of the design document is an exact edit script *)
(* ================================================================== *)

Section DiffEngineFacts.
Import JS DiffCalculator Properties DiffEngine.

Lemma walk_nil (rows : list (list nat)) (b : list jsstring) :
  walk [] rows b = map Inserted b.
Proof. reflexivity. Qed.

Lemma walk_cons_nil (x : jsstring) (a : list jsstring)
      (rows : list (list nat)) :
  walk (x :: a) rows [] = map Deleted (x :: a).
Proof. reflexivity. Qed.

Lemma walk_cons_cons (x y : jsstring) (a b : list jsstring)
      (rows : list (list nat)) :
  walk (x :: a) rows (y :: b)
  = if eqb x y then Common x :: walk a (map (@tl nat) (tl rows)) b
    else if (hd O (tl (hd [] rows)) <=? hd O (hd [] (tl rows)))%nat
    then Deleted x :: walk a (tl rows) (y :: b)
    else Inserted y :: walk (x :: a) (map (@tl nat) rows) b.
Proof. reflexivity. Qed.

Lemma tokensBefore_inserted (b : list jsstring) :
  tokensBefore (map Inserted b) = [].
Proof. induction b; simpl; auto. Qed.

Lemma tokensAfter_inserted (b : list jsstring) :
  tokensAfter (map Inserted b) = b.
Proof.
  unfold tokensAfter; induction b as [|y b IH]; simpl; [|rewrite IH]; auto.
Qed.

Lemma tokensBefore_deleted (a : list jsstring) :
  tokensBefore (map Deleted a) = a.
Proof.
  unfold tokensBefore; induction a as [|x a IH]; simpl; [|rewrite IH]; auto.
Qed.

Lemma tokensAfter_deleted (a : list jsstring) :
  tokensAfter (map Deleted a) = [].
Proof. induction a; simpl; auto. Qed.

Lemma tokens_common (x : jsstring) (script : list op) :
  tokensBefore (Common x :: script) = x :: tokensBefore script
  /\ tokensAfter (Common x :: script) = x :: tokensAfter script.
Proof. split; reflexivity. Qed.

Lemma tokens_deleted (x : jsstring) (script : list op) :
  tokensBefore (Deleted x :: script) = x :: tokensBefore script
  /\ tokensAfter (Deleted x :: script) = tokensAfter script.
Proof. split; reflexivity. Qed.

Lemma tokens_inserted (y : jsstring) (script : list op) :
  tokensBefore (Inserted y :: script) = tokensBefore script
  /\ tokensAfter (Inserted y :: script) = y :: tokensAfter script.
Proof. split; reflexivity. Qed.

(** Whatever the table, the walk takes the tokens of the first list and
    gives those of the second. *)
Lemma walk_sides (a : list jsstring) : forall b rows,
  tokensBefore (walk a rows b) = a /\ tokensAfter (walk a rows b) = b.
Proof.
  induction a as [|x a IHa]; intros b rows.
  - rewrite walk_nil; split;
      [apply tokensBefore_inserted | apply tokensAfter_inserted].
  - revert rows; induction b as [|y b IHb]; intros rows.
    + rewrite walk_cons_nil; split;
        [apply tokensBefore_deleted | apply tokensAfter_deleted].
    + rewrite walk_cons_cons.
      destruct (eqb x y) eqn:E.
      * apply eqb_eq in E; subst y.
        destruct (IHa b (map (@tl nat) (tl rows))) as [H1 H2].
        destruct (tokens_common x (walk a (map (@tl nat) (tl rows)) b))
          as [-> ->].
        now rewrite H1, H2.
      * destruct (_ <=? _)%nat.
        -- destruct (IHa (y :: b) (tl rows)) as [H1 H2].
           destruct (tokens_deleted x (walk a (tl rows) (y :: b)))
             as [-> ->].
           now rewrite H1, H2.
        -- destruct (IHb (map (@tl nat) rows)) as [H1 H2].
           destruct (tokens_inserted y
                       (walk (x :: a) (map (@tl nat) rows) b)) as [-> ->].
           now rewrite H1, H2.
Qed.

(** Collapsing runs keeps the text of both sides. *)
Lemma collapse_sides (script : list op) :
  originalSide (collapse script) = List.concat (tokensBefore script)
  /\ suggestedSide (collapse script) = List.concat (tokensAfter script).
Proof.
  induction script as [|o rest [IH1 IH2]]; [split; reflexivity|].
  simpl collapse.
  destruct (collapse rest) as [|p parts].
  - unfold originalSide, suggestedSide, tokensBefore, tokensAfter in *.
    destruct o; simpl in *; rewrite <- ?IH1, <- ?IH2; auto.
  - unfold originalSide, suggestedSide, tokensBefore, tokensAfter in *.
    destruct p as [v pa pr].
    destruct o, pa, pr; simpl in *;
      rewrite <- ?IH1, <- ?IH2, <- ?app_assoc; auto.
Qed.

(** ** The table *)

Lemma lcs_nil_r (a : list jsstring) : lcs a [] = O.
Proof. destruct a; reflexivity. Qed.

Lemma lcs_cons_cons (x y : jsstring) (a b : list jsstring) :
  lcs (x :: a) (y :: b)
  = if eqb x y then S (lcs a b)
    else Nat.max (lcs a (y :: b)) (lcs (x :: a) b).
Proof. reflexivity. Qed.

Lemma suffixes_cons (A : Type) (x : A) (l : list A) :
  suffixes (x :: l) = (x :: l) :: suffixes l.
Proof. reflexivity. Qed.

Lemma hd_suffixes (A B : Type) (f : list A -> B) (d : B) (l : list A) :
  hd d (map f (suffixes l)) = f l.
Proof. destruct l; reflexivity. Qed.

Lemma lcsRow_spec (x : jsstring) (a b : list jsstring) :
  lcsRow x b (map (lcs a) (suffixes b)) = map (lcs (x :: a)) (suffixes b).
Proof.
  induction b as [|y b IH]; [reflexivity|].
  rewrite suffixes_cons; cbn [map lcsRow tl].
  rewrite IH, !hd_suffixes; cbn [hd].
  now rewrite lcs_cons_cons.
Qed.

Lemma zero_row (b : list jsstring) :
  repeat O (S (List.length b)) = map (lcs []) (suffixes b).
Proof.
  induction b as [|y b IH]; [reflexivity|].
  rewrite suffixes_cons; cbn [map List.length].
  now rewrite <- IH.
Qed.

(** The table that [diffWords] builds is the table of [lcs]. *)
Lemma lcsTable_spec (a b : list jsstring) : lcsTable a b = lcsRows a b.
Proof.
  unfold lcsRows; induction a as [|x a IH].
  - cbn [lcsTable suffixes map]; f_equal; apply zero_row.
  - rewrite suffixes_cons; cbn [map lcsTable].
    rewrite IH, hd_suffixes.
    now rewrite lcsRow_spec.
Qed.

Lemma lcsRows_down (x : jsstring) (a b : list jsstring) :
  tl (lcsRows (x :: a) b) = lcsRows a b.
Proof. reflexivity. Qed.

Lemma lcsRows_right (y : jsstring) (a b : list jsstring) :
  map (@tl nat) (lcsRows a (y :: b)) = lcsRows a b.
Proof.
  unfold lcsRows; rewrite map_map; apply map_ext; intros a'.
  now rewrite suffixes_cons.
Qed.

(** The walk over the table of [lcs]. *)
Lemma walk_lcs (x y : jsstring) (a b : list jsstring) :
  walk (x :: a) (lcsRows (x :: a) (y :: b)) (y :: b)
  = if eqb x y then Common x :: walk a (lcsRows a b) b
    else if (lcs (x :: a) b <=? lcs a (y :: b))%nat
    then Deleted x :: walk a (lcsRows a (y :: b)) (y :: b)
    else Inserted y :: walk (x :: a) (lcsRows (x :: a) b) b.
Proof.
  rewrite walk_cons_cons.
  rewrite lcsRows_down, !lcsRows_right.
  replace (hd O (tl (hd [] (lcsRows (x :: a) (y :: b)))))
    with (lcs (x :: a) b)
    by (unfold lcsRows; rewrite hd_suffixes, suffixes_cons; cbn [map tl];
        now rewrite hd_suffixes).
  replace (hd O (hd [] (lcsRows a (y :: b)))) with (lcs a (y :: b))
    by (unfold lcsRows; now rewrite !hd_suffixes).
  reflexivity.
Qed.

(** ** Deletions come before insertions *)

Lemma lcs_step_l (x : jsstring) (a : list jsstring) :
  (forall b y, lcs a b <= lcs a (y :: b))%nat ->
  forall b, (lcs (x :: a) b <= S (lcs a b))%nat.
Proof.
  intros Hmono; induction b as [|z b IH]; [simpl; lia|].
  rewrite lcs_cons_cons.
  pose proof (Hmono b z).
  destruct (eqb x z); lia.
Qed.

Lemma lcs_mono_r (a : list jsstring) : forall b y,
  (lcs a b <= lcs a (y :: b))%nat.
Proof.
  induction a as [|x a IH]; intros b y; [simpl; lia|].
  rewrite lcs_cons_cons.
  pose proof (@lcs_step_l x a IH b).
  destruct (eqb x y); lia.
Qed.

Lemma deletionsFirst_cons (o : op) (script : list op) :
  deletionsFirst (o :: script)
  = negb (isInserted o && startsWithDeletion script)
    && deletionsFirst script.
Proof. reflexivity. Qed.

Lemma deletionsFirst_inserted (b : list jsstring) :
  deletionsFirst (map Inserted b) = true.
Proof.
  induction b as [|y b IH]; [reflexivity|].
  cbn [map]; rewrite deletionsFirst_cons, IH.
  now destruct b.
Qed.

Lemma deletionsFirst_deleted (a : list jsstring) :
  deletionsFirst (map Deleted a) = true.
Proof.
  induction a as [|x a IH]; [reflexivity|].
  cbn [map]; now rewrite deletionsFirst_cons, IH.
Qed.

(** Where keeping the head of the first list gives a longer common
    subsequence than dropping it, the walk does not drop it. *)
Lemma walk_keeps_head (x : jsstring) (a b : list jsstring) :
  (lcs a b < lcs (x :: a) b)%nat ->
  startsWithDeletion (walk (x :: a) (lcsRows (x :: a) b) b) = false.
Proof.
  destruct b as [|y b]; [rewrite !lcs_nil_r; lia|].
  intros H; rewrite walk_lcs.
  rewrite lcs_cons_cons in H.
  destruct (eqb x y); [reflexivity|].
  destruct (Nat.leb_spec (lcs (x :: a) b) (lcs a (y :: b)));
    [lia | reflexivity].
Qed.

Lemma walk_deletionsFirst (a : list jsstring) : forall b,
  deletionsFirst (walk a (lcsRows a b) b) = true.
Proof.
  induction a as [|x a IHa]; intros b.
  - rewrite walk_nil; apply deletionsFirst_inserted.
  - induction b as [|y b IHb].
    + rewrite walk_cons_nil; apply deletionsFirst_deleted.
    + rewrite walk_lcs.
      destruct (eqb x y).
      * now rewrite deletionsFirst_cons, IHa.
      * destruct (Nat.leb_spec (lcs (x :: a) b) (lcs a (y :: b))).
        -- now rewrite deletionsFirst_cons, IHa.
        -- rewrite deletionsFirst_cons, IHb.
           rewrite walk_keeps_head; [reflexivity|].
           pose proof (lcs_mono_r a b y); lia.
Qed.

(** ** Normal form of the collapsed script *)

Lemma tokens_all (P : jsstring -> Prop) (script : list op) :
  Forall P (tokensBefore script) -> Forall P (tokensAfter script) ->
  Forall (fun o => P (tokenOf o)) script.
Proof.
  unfold tokensBefore, tokensAfter.
  induction script as [|o rest IH]; intros Hb Ha; [constructor|].
  destruct o; simpl in *; inversion Hb; inversion Ha; subst;
    constructor; auto.
Qed.

Lemma normal_same_flags (p p' : Part.t) (parts : list Part.t) :
  Part.added p' = Part.added p ->
  Part.removed p' = Part.removed p ->
  nonEmpty (Part.value p') = true ->
  normal (p :: parts) = true -> normal (p' :: parts) = true.
Proof.
  intros Ha Hr Hv; cbn [normal]; rewrite Ha, Hr, Hv.
  destruct (Part.added p), (Part.removed p); auto;
    intros H; apply andb_true_iff in H as [_ H]; exact H.
Qed.

Lemma nonEmpty_app (a b : jsstring) :
  nonEmpty a = true -> nonEmpty (a ++ b) = true.
Proof. destruct a; [discriminate | reflexivity]. Qed.

(** Collapsing a script in which deletions come first and no token is
    empty gives parts in normal form; the first part is of the kind of the
    first step. *)
Lemma collapse_normal (script : list op) :
  Forall (fun o => nonEmpty (tokenOf o) = true) script ->
  deletionsFirst script = true ->
  normal (collapse script) = true
  /\ Forall (fun p => nonEmpty (Part.value p) = true) (collapse script)
  /\ match script with
     | [] => collapse script = []
     | o :: _ =>
         exists p parts, collapse script = p :: parts /\ sameKind o p = true
     end.
Proof.
  induction script as [|o rest IH]; intros Htok Hdf;
    [repeat split; constructor|].
  inversion Htok as [|? ? Ho Hrest]; subst.
  rewrite deletionsFirst_cons in Hdf.
  apply andb_true_iff in Hdf as [Hhead Hdf].
  destruct (IH Hrest Hdf) as (Hn & Hv & Hk); clear IH.
  cbn [collapse].
  destruct rest as [|o' rest'].
  - rewrite Hk.
    destruct o; simpl in *; rewrite ?Ho; repeat split; eauto.
  - destruct Hk as (p & parts & Hc & Hsame); rewrite Hc in *.
    inversion Hv as [|? ? Hp Hparts]; subst.
    destruct (sameKind o p) eqn:E.
    + repeat split.
      * apply (@normal_same_flags p _ parts);
          [reflexivity | reflexivity | | exact Hn].
        now apply nonEmpty_app.
      * constructor; [now apply nonEmpty_app | exact Hparts].
      * eexists _, _; split; [reflexivity|].
        destruct o; exact E.
    + repeat split.
      * change (normal (partOf o :: p :: parts))
          with ((if Part.added (partOf o)
                 then isCommon p && nonEmpty (Part.value p)
                 else if Part.removed (partOf o)
                      then nonEmpty (Part.value (partOf o))
                      else true)
                && normal (p :: parts)).
        rewrite Hn, andb_true_r.
        destruct o as [v | v | v]; cbn [partOf Part.added Part.removed
                                        Part.value]; auto.
        rewrite Hp, andb_true_r.
        cbn [isInserted startsWithDeletion andb] in Hhead.
        apply negb_true_iff in Hhead.
        cbn [sameKind] in E.
        unfold isCommon; rewrite E.
        destruct o'; cbn [sameKind isDeleted] in *; congruence.
      * constructor; [|exact Hv].
        destruct o; exact Ho.
      * eexists _, _; split; [reflexivity|].
        destruct o; reflexivity.
Qed.

(** The word diff of the design document returns, for every two strings,
    an exact edit script in normal form. *)
Theorem diffWords_exact (original transformed : jsstring) :
  editScript original transformed
             (DiffEngine.diffWords original transformed).
Proof.
  unfold DiffEngine.diffWords, tokenize.
  rewrite !tokensFrom_values, lcsTable_spec.
  set (a := matches original); set (b := matches transformed).
  destruct (@walk_sides a b (lcsRows a b)) as [Hb Ha].
  destruct (collapse_sides (walk a (lcsRows a b) b)) as [Ho Ht].
  repeat split.
  - rewrite Ho, Hb; apply matches_concat.
  - rewrite Ht, Ha; apply matches_concat.
  - apply collapse_normal; [|apply walk_deletionsFirst].
    assert (Hne : forall text,
               Forall (fun v => nonEmpty v = true) (matches text)).
    { intros text; eapply Forall_impl; [|apply matches_uniform].
      simpl; intros v (c & tail & -> & _); reflexivity. }
    apply (@tokens_all (fun v => nonEmpty v = true)).
    + rewrite Hb; apply Hne.
    + rewrite Ha; apply Hne.
Qed.

(** With that diff the round trip and the invariants of the change
    records hold without any assumption. *)
Corollary reconcile_all_design (uuidv4 : nat -> jsstring)
          (original transformed : jsstring) (n : nat) :
  EditorWithSuggestions.applyChangesToContent original
    (fst (calculateWordDiff DiffEngine.diffWords uuidv4 original
            transformed n))
  = transformed.
Proof. apply reconcile_all, diffWords_exact. Qed.

Corollary round_trip_design (uuidv4 : nat -> jsstring)
          (now content type : jsstring) (ctx : SuggestionRules.context)
          (n : nat) :
  recognized type ->
  exists s,
    SuggestionService.generateSuggestions DiffEngine.diffWords uuidv4 now
      content type ctx n = Normal s
    /\ EditorWithSuggestions.applyChangesToContent content
         (SuggestionService.changes s)
       = SuggestionService.suggested s.
Proof.
  intros Hrec; apply selectRules_recognized in Hrec as [rules Hrules].
  unfold SuggestionService.generateSuggestions; rewrite Hrules.
  pose proof (reconcile_all_design uuidv4 content
                (SuggestionService.applyRules content rules ctx) n) as Hall.
  destruct (calculateWordDiff DiffEngine.diffWords uuidv4 content
              (SuggestionService.applyRules content rules ctx) n)
    as [cs n1].
  eexists; split; [reflexivity | exact Hall].
Qed.
End DiffEngineFacts.

(* ================================================================== *)
(** * Differences in white space *)
(* ================================================================== *)

Section WhitespaceDifferences.
Import JS DiffCalculator Properties.

(** Differences in white space under the word diff of the design
    document.  For every two different strings that are equal up to
    white space, [calculateWordDiff], were it to run over that diff,
    would return a non-empty list of change records.  The tokenizer keeps white space: the values of the
    tokens of a text spell the whole text, and a token that contains a
    white space character consists of white space only and has the type
    whitespace. *)
Theorem whitespace_differences_recorded
        (uuidv4 : nat -> jsstring) (original transformed : jsstring)
        (n : nat) :
  differOnlyInWhitespace original transformed ->
  fst (calculateWordDiff DiffEngine.diffWords uuidv4 original
         transformed n) <> []
  /\ (forall text,
         List.concat (map Token.value (tokenize text)) = text
         /\ Forall (fun t =>
                      (exists c, In c (Token.value t) /\ isSpace c = true) ->
                      forallb isSpace (Token.value t) = true
                      /\ Token.type t = str "whitespace")
                   (tokenize text)).
Proof.
  intros [Hne _]; split.
  - destruct (diffWords_exact original transformed) as (Ho & Ht & _).
    now apply diff_nonempty.
  - intros text; unfold tokenize; split.
    + now rewrite tokensFrom_values, matches_concat.
    + pose proof (matches_uniform text) as Hu.
      generalize 0%Z.
      induction Hu as [|run more (c & tail & Hrun & Htail) Hmore IH];
        intros index; simpl; constructor; auto.
      simpl; now apply (@tokenType_whitespace run c tail).
Qed.

Lemma whitespace_differences_recorded_witness :
  fst (calculateWordDiff DiffEngine.diffWords sampleUuid
         (str "one, two") (str "one,  two") 0) <> []
  /\ (forall text,
         List.concat (map Token.value (tokenize text)) = text
         /\ Forall (fun t =>
                      (exists c, In c (Token.value t) /\ isSpace c = true) ->
                      forallb isSpace (Token.value t) = true
                      /\ Token.type t = str "whitespace")
                   (tokenize text)).
Proof.
  apply (@whitespace_differences_recorded sampleUuid
           (str "one, two") (str "one,  two") 0).
  split; [discriminate | vm_compute; reflexivity].
Defined.
End WhitespaceDifferences.

(* ================================================================== *)
(** * The word diff of the library *)
(* ================================================================== *)

(** [calculateWordDiff] hands both strings to [diffWords] of the package
    [diff] and counts offsets in the original with the lengths of the
    parts it gets back.  The package compares words and takes no account
    of white space; what follows evaluates the code on parts of the kind
    that it reports then. *)
Section LibraryDiff.
Import JS DiffCalculator SuggestionRules Properties EditorWithSuggestions.

(** When no part is added or removed the loop pushes no record and draws
    no identifier. *)
Lemma collect_unchanged (uuidv4 : nat -> jsstring) (diff : list Part.t) :
  forall position n,
    forallb isCommon diff = true ->
    collect uuidv4 diff position n = ([], n).
Proof.
  induction diff as [|p rest IH]; intros position n H; [reflexivity|].
  simpl in H; apply andb_true_iff in H as [Hp Hrest].
  unfold isCommon in Hp; apply andb_true_iff in Hp as [Ha Hr].
  apply negb_true_iff in Ha, Hr.
  simpl; rewrite Ha, Hr; now apply IH.
Qed.

Lemma calculateWordDiff_unchanged
      (diffWords : jsstring -> jsstring -> list Part.t)
      (uuidv4 : nat -> jsstring) (original transformed : jsstring)
      (n : nat) :
  forallb isCommon (diffWords original transformed) = true ->
  calculateWordDiff diffWords uuidv4 original transformed n = ([], n).
Proof.
  intros H; unfold calculateWordDiff.
  now rewrite collect_unchanged.
Qed.

(** C1 - Round-trip (the code at the failing input).  The grammar rules
    take the second space out of "one,  and two".  When [diffWords]
    reports no added and no removed part for the two texts, as the
    package does for texts that differ in white space only,
    [generateSuggestions] is fulfilled with a suggestion that has no
    change record: applying every record to the original leaves
    "one,  and two" as it is, which is not the suggested "one, and two". *)
Theorem round_trip_loses_white_space
        (diffWords : jsstring -> jsstring -> list Part.t)
        (uuidv4 : nat -> jsstring) (now : jsstring) (n : nat) :
  forallb isCommon (diffWords (str "one,  and two") (str "one, and two"))
  = true ->
  exists s,
    SuggestionService.generateSuggestions diffWords uuidv4 now
      (str "one,  and two") (str "grammar") [] n = Normal s
    /\ SuggestionService.original s = str "one,  and two"
    /\ SuggestionService.suggested s = str "one, and two"
    /\ SuggestionService.changes s = []
    /\ applyChangesToContent (SuggestionService.original s)
         (SuggestionService.changes s)
       = str "one,  and two"
    /\ applyChangesToContent (SuggestionService.original s)
         (SuggestionService.changes s)
       <> SuggestionService.suggested s.
Proof.
  intros Hdiff.
  assert (Hrules : SuggestionService.applyRules (str "one,  and two")
                     grammarRules []
                   = str "one, and two") by (vm_compute; reflexivity).
  unfold SuggestionService.generateSuggestions.
  change (SuggestionService.selectRules (str "grammar"))
    with (@Normal (list RuleSpec) jsstring grammarRules).
  cbv iota; rewrite Hrules.
  rewrite calculateWordDiff_unchanged by exact Hdiff.
  eexists; split; [reflexivity|].
  repeat split; discriminate.
Qed.

Lemma round_trip_loses_white_space_witness :
  exists s,
    SuggestionService.generateSuggestions
      (fun _ suggested => [Part.mk suggested false false])
      sampleUuid sampleNow (str "one,  and two") (str "grammar") [] 0
    = Normal s
    /\ SuggestionService.original s = str "one,  and two"
    /\ SuggestionService.suggested s = str "one, and two"
    /\ SuggestionService.changes s = []
    /\ applyChangesToContent (SuggestionService.original s)
         (SuggestionService.changes s)
       = str "one,  and two"
    /\ applyChangesToContent (SuggestionService.original s)
         (SuggestionService.changes s)
       <> SuggestionService.suggested s.
Proof.
  apply (@round_trip_loses_white_space
           (fun _ suggested => [Part.mk suggested false false])
           sampleUuid sampleNow 0).
  reflexivity.
Defined.

(** C6 - Differences in white space only (the code at the failing
    input).  "one, two" and "one,  two" are different and equal up to
    white space.  When [diffWords] reports no added and no removed part
    for them, as the package does, [calculateWordDiff] returns the empty
    list.  [tokenize], which nothing calls, does keep the white space of
    the second text: as a token of its own, of the type whitespace. *)
Theorem whitespace_difference_unrecorded
        (diffWords : jsstring -> jsstring -> list Part.t)
        (uuidv4 : nat -> jsstring) (n : nat) :
  forallb isCommon (diffWords (str "one, two") (str "one,  two")) = true ->
  differOnlyInWhitespace (str "one, two") (str "one,  two")
  /\ fst (calculateWordDiff diffWords uuidv4
            (str "one, two") (str "one,  two") n) = []
  /\ map (fun t => (Token.value t, Token.type t))
         (tokenize (str "one,  two"))
     = [ (str "one", str "word"); (str ",", str "punctuation");
         (str "  ", str "whitespace"); (str "two", str "word") ].
Proof.
  intros Hdiff; split; [|split].
  - split; [discriminate | reflexivity].
  - now rewrite calculateWordDiff_unchanged.
  - vm_compute; reflexivity.
Qed.

Lemma whitespace_difference_unrecorded_witness :
  differOnlyInWhitespace (str "one, two") (str "one,  two")
  /\ fst (calculateWordDiff
            (fun _ suggested => [Part.mk suggested false false])
            sampleUuid (str "one, two") (str "one,  two") 0) = []
  /\ map (fun t => (Token.value t, Token.type t))
         (tokenize (str "one,  two"))
     = [ (str "one", str "word"); (str ",", str "punctuation");
         (str "  ", str "whitespace"); (str "two", str "word") ].
Proof.
  apply (@whitespace_difference_unrecorded
           (fun _ suggested => [Part.mk suggested false false])
           sampleUuid 0).
  reflexivity.
Defined.

(** C7 - Change-record invariants (the code at the failing input).  From
    "one, two three" to "one,  two" the package reports the unchanged
    part with the text of the second string, "one,  two" with its two
    spaces, and then the removal of " three".  The loop advances by the
    nine characters of the unchanged part, one more than the original
    has there, and [calculateWordDiff] returns one record, the deletion
    of " three" at [9, 15): it ends beyond the 14 characters of the
    original. *)
Theorem deletion_beyond_original
        (diffWords : jsstring -> jsstring -> list Part.t)
        (uuidv4 : nat -> jsstring) (n : nat) :
  diffWords (str "one, two three") (str "one,  two")
  = [ Part.mk (str "one,  two") false false;
      Part.mk (str " three") false true ] ->
  let changes :=
    fst (calculateWordDiff diffWords uuidv4
           (str "one, two three") (str "one,  two") n) in
  map (fun c => (type c, position c, original c, suggested c)) changes
  = [ (DELETION, mkPosition 9 15, str " three", []) ]
  /\ len (str "one, two three") = 14%Z
  /\ ~ Forall (inRange (str "one, two three")) changes.
Proof.
  intros Hdiff changes; subst changes.
  unfold calculateWordDiff; rewrite Hdiff.
  split; [vm_compute; reflexivity|].
  split; [reflexivity|].
  assert (Hpos : map position
                     (fst (mergeAdjacentChanges uuidv4
                             (fst (collect uuidv4
                                     [ Part.mk (str "one,  two") false false;
                                       Part.mk (str " three") false true ]
                                     0 n))
                             (snd (collect uuidv4
                                     [ Part.mk (str "one,  two") false false;
                                       Part.mk (str " three") false true ]
                                     0 n))))
                 = [mkPosition 9 15]) by (vm_compute; reflexivity).
  intros H.
  destruct (collect uuidv4 _ 0 n) as [raw n1]; simpl in Hpos.
  destruct (fst (mergeAdjacentChanges uuidv4 raw n1)) as [|c rest];
    [discriminate|].
  injection Hpos as Hc _.
  inversion H as [|? ? (_ & _ & Hend) _]; subst.
  unfold endOf in Hend; rewrite Hc in Hend; cbn [end_] in Hend.
  change (len (str "one, two three")) with 14%Z in Hend; lia.
Qed.

Lemma deletion_beyond_original_witness :
  let changes :=
    fst (calculateWordDiff
           (fun _ _ => [ Part.mk (str "one,  two") false false;
                         Part.mk (str " three") false true ])
           sampleUuid (str "one, two three") (str "one,  two") 0) in
  map (fun c => (type c, position c, original c, suggested c)) changes
  = [ (DELETION, mkPosition 9 15, str " three", []) ]
  /\ len (str "one, two three") = 14%Z
  /\ ~ Forall (inRange (str "one, two three")) changes.
Proof.
  apply (@deletion_beyond_original
           (fun _ _ => [ Part.mk (str "one,  two") false false;
                         Part.mk (str " three") false true ])
           sampleUuid 0).
  reflexivity.
Defined.
End LibraryDiff.

(* ================================================================== *)
(** * Further properties: tokenize *)
(* ================================================================== *)

Section TokenizeProperties.
Import JS DiffCalculator Properties MoreProperties.

(** The text between two offsets inside a string. *)
Lemma slice_middle (a b c : jsstring) :
  slice (a ++ b ++ c) (len a) (len a + len b) = b.
Proof.
  unfold slice.
  pose proof (len_nonneg a); pose proof (len_nonneg b);
    pose proof (len_nonneg c).
  rewrite !clamp_index_inside by (rewrite !len_app; lia).
  replace (Z.to_nat (len a)) with (List.length a) by (unfold len; lia).
  replace (Z.to_nat (Z.max (len a + len b - len a) 0))
    with (List.length b) by (unfold len; lia).
  rewrite skipn_app, Nat.sub_diag, skipn_all; simpl.
  rewrite firstn_app, Nat.sub_diag, firstn_all; simpl.
  apply app_nil_r.
Qed.

Lemma tokensFrom_tiles (values : list jsstring) : forall index,
  Forall (fun v => v <> []) values ->
  tiles (tokensFrom values index) index
        (index + len (List.concat values)).
Proof.
  induction values as [|v rest IH]; intros index Hne; simpl.
  - change (len []) with 0%Z; lia.
  - inversion Hne; subst.
    repeat split; auto.
    rewrite len_app, Z.add_assoc; now apply IH.
Qed.

Lemma tokensFrom_quote (values : list jsstring) : forall pre,
  Forall (fun t =>
            slice (pre ++ List.concat values)
                  (start (Token.position t)) (end_ (Token.position t))
            = Token.value t)
         (tokensFrom values (len pre)).
Proof.
  induction values as [|v rest IH]; intros pre; simpl; constructor.
  - simpl; apply slice_middle.
  - rewrite <- len_app, app_assoc; apply IH.
Qed.

(** X1 - The tokens of a text lie one after the other from offset 0 to
    the length of the text, none is empty, each is as long as its value,
    and the value of each is the text between its two offsets. *)
Theorem tokenize_tiles (text : jsstring) :
  tiles (tokenize text) 0 (len text)
  /\ Forall (fun t =>
               slice text (start (Token.position t))
                     (end_ (Token.position t))
               = Token.value t)
            (tokenize text).
Proof.
  unfold tokenize; split.
  - rewrite <- (matches_concat text) at 2.
    apply tokensFrom_tiles.
    eapply Forall_impl; [|apply matches_uniform].
    simpl; intros v (c & tail & -> & _); discriminate.
  - pose proof (tokensFrom_quote (matches text) []) as H.
    simpl in H; now rewrite matches_concat in H.
Qed.

Lemma matches_alternating (text : jsstring) :
  alternating (map runClass (matches text)).
Proof.
  induction text as [|c rest IH]; [exact I|].
  simpl matches.
  destruct (matches rest) as [|[|d run] more] eqn:E.
  - exact I.
  - pose proof (matches_uniform rest) as Hu; rewrite E in Hu.
    inversion Hu as [|? ? (x & tail & Hx & _) _]; discriminate.
  - destruct (sameClass (classOf c) (classOf d)) eqn:Hs.
    + apply sameClass_eq in Hs.
      destruct more; simpl in *; [exact I|].
      now rewrite Hs.
    + split; [|exact IH].
      simpl; intros Heq; apply sameClass_eq in Heq; congruence.
Qed.

Lemma classOf_cases (c : ascii) :
  (classOf c = WordChar /\ isWord c = true)
  \/ (classOf c = SpaceChar /\ isWord c = false /\ isSpace c = true)
  \/ (classOf c = OtherChar /\ isWord c = false /\ isSpace c = false).
Proof.
  unfold classOf; destruct (isWord c); [auto|].
  destruct (isSpace c); auto.
Qed.

(** The type given to a run of one class is the name of the class. *)
Lemma tokenType_class (c : ascii) (tail : jsstring) :
  Forall (fun d => classOf d = classOf c) tail ->
  tokenType (c :: tail) = typeName (classOf c)
  /\ forallb (inClass (classOf c)) (c :: tail) = true.
Proof.
  intros Htail.
  assert (Hall : Forall (fun d => classOf d = classOf c) (c :: tail))
    by now constructor.
  split.
  - unfold tokenType.
    change (negb (eqb (c :: tail) [])) with true; cbv iota beta.
    destruct (classOf_cases c) as [[Hk Hw] | [(Hk & Hw & Hs) | (Hk & Hw & Hs)]];
      rewrite Hk in *.
    + replace (forallb isWord (c :: tail)) with true; [reflexivity|].
      symmetry; apply forallb_forall; intros x Hx.
      rewrite Forall_forall in Hall; specialize (Hall x Hx).
      destruct (classOf_cases x) as [[? ?] | [(? & ? & ?) | (? & ? & ?)]];
        congruence.
    + replace (forallb isWord (c :: tail)) with false
        by (simpl; now rewrite Hw).
      replace (forallb isSpace (c :: tail)) with true; [reflexivity|].
      symmetry; apply forallb_forall; intros x Hx.
      rewrite Forall_forall in Hall; specialize (Hall x Hx).
      destruct (classOf_cases x) as [[? ?] | [(? & ? & ?) | (? & ? & ?)]];
        congruence.
    + replace (forallb isWord (c :: tail)) with false
        by (simpl; now rewrite Hw).
      replace (forallb isSpace (c :: tail)) with false
        by (simpl; now rewrite Hs).
      reflexivity.
  - apply forallb_forall; intros x Hx.
    rewrite Forall_forall in Hall; specialize (Hall x Hx).
    unfold inClass; now apply sameClass_eq.
Qed.

Lemma typeName_injective (a b : charClass) :
  typeName a = typeName b -> a = b.
Proof. destruct a, b; simpl; intros H; congruence || discriminate. Qed.

Lemma alternating_map (A B C : Type) (f : A -> B) (g : A -> C)
      (l : list A) :
  (forall x y, f x = f y -> g x = g y) ->
  alternating (map g l) -> alternating (map f l).
Proof.
  intros Hfg; induction l as [|x [|y rest] IH]; simpl; auto.
  intros [Hne Hrest]; split; [|now apply IH].
  intros Heq; apply Hne; now apply Hfg.
Qed.

(** X2 - Every token is a maximal run of one class of characters: its
    type is word, whitespace or punctuation, all its characters are of
    that class (word characters, white space, or neither), and two
    neighbouring tokens never have the same type. *)
Theorem tokenize_runs (text : jsstring) :
  Forall (fun t =>
            exists k,
              Token.type t = typeName k
              /\ forallb (inClass k) (Token.value t) = true)
         (tokenize text)
  /\ alternating (map Token.type (tokenize text)).
Proof.
  unfold tokenize.
  assert (Htype : forall values index,
             Forall (fun run =>
                       exists c tail,
                         run = c :: tail
                         /\ Forall (fun d => classOf d = classOf c) tail)
                    values ->
             Forall (fun t =>
                       Token.type t = typeName (runClass (Token.value t))
                       /\ forallb (inClass (runClass (Token.value t)))
                                  (Token.value t) = true)
                    (tokensFrom values index)).
  { induction values as [|v rest IH]; intros index Hu; simpl;
      constructor; inversion Hu as [|? ? (c & tail & -> & Htail) Hrest];
      subst; auto.
    simpl; now apply tokenType_class. }
  pose proof (Htype (matches text) 0%Z (matches_uniform text)) as Ht.
  split.
  - eapply Forall_impl; [|exact Ht]; simpl; intros t [H1 H2]; eauto.
  - assert (Hmap : map Token.type (tokensFrom (matches text) 0)
                   = map typeName (map runClass (matches text))).
    { rewrite <- (tokensFrom_values (matches text) 0) at 2.
      rewrite !map_map.
      apply map_ext_Forall.
      eapply Forall_impl; [|exact Ht]; simpl; tauto. }
    rewrite Hmap, map_map.
    apply (@alternating_map _ _ _ (fun r => typeName (runClass r))
                            runClass).
    + intros x y; apply typeName_injective.
    + apply matches_alternating.
Qed.
End TokenizeProperties.

(* ================================================================== *)
(** * Further properties: the change records *)
(* ================================================================== *)

Section RecordProperties.
Import JS DiffCalculator Properties MoreProperties EditorWithSuggestions.
Variable uuidv4 : nat -> jsstring.

(** A property that the record built by a merge has whenever the two
    records it is built from have it is kept by the merge. *)
Lemma merge_Forall_built (P : Change -> Prop) :
  (forall c d k,
      P c -> P d ->
      P (mkChange (changeId uuidv4 k) MODIFICATION (position c)
                  (original c) (suggested d)
                  (getReasonForChange MODIFICATION (original c)
                                      (suggested d)))) ->
  forall l n, Forall P l -> Forall P (fst (mergeAdjacentChanges uuidv4 l n)).
Proof.
  intros Hbuilt l.
  induction l as [| c | c d rest IHrest IHtail] using changes_ind2;
    intros n Hall.
  - constructor.
  - exact Hall.
  - rewrite merge_step.
    inversion Hall as [|? ? Hc Htail]; subst.
    inversion Htail as [|? ? Hd Hrest]; subst.
    destruct (eqb (type c) DELETION && eqb (type d) ADDITION
              && (start (position d) =? start (position c))%Z).
    + specialize (IHrest (S n) Hrest).
      destruct (mergeAdjacentChanges uuidv4 rest (S n)) as [merged n'].
      constructor; [now apply Hbuilt | exact IHrest].
    + specialize (IHtail n Htail).
      destruct (mergeAdjacentChanges uuidv4 (d :: rest) n) as [merged n'].
      now constructor.
Qed.

Lemma collect_quote (diff : list Part.t) : forall (pre : jsstring) (n : nat),
  Forall (fun c =>
            original c
            = slice (pre ++ originalSide diff) (startOf c) (endOf c))
         (collected uuidv4 diff (len pre) n).
Proof.
  induction diff as [|p rest IH]; intros pre n; [constructor|].
  unfold originalSide in *; simpl filter.
  destruct (Part.added p) eqn:Ha; [| destruct (Part.removed p) eqn:Hr];
    simpl negb; cbv iota.
  - rewrite collect_added by assumption.
    constructor; [|apply IH].
    unfold startOf, endOf; simpl.
    pose proof (slice_middle pre [] (List.concat
      (map Part.value (filter (fun q => negb (Part.added q)) rest)))) as H.
    simpl in H; change (len []) with 0%Z in H.
    now rewrite Z.add_0_r in H.
  - rewrite collect_removed by assumption.
    simpl List.concat.
    constructor.
    + unfold startOf, endOf; simpl; now rewrite slice_middle.
    + rewrite <- len_app, app_assoc; apply IH.
  - rewrite collect_common by assumption.
    simpl List.concat.
    rewrite <- len_app, app_assoc; apply IH.
Qed.

(** X3 - Every record quotes the original string: when the parts of the
    diff that are not insertions spell the original, the original text of
    each record returned by [calculateWordDiff] is the text of the
    original string between the record's start and end. *)
Theorem records_quote_original
        (diffWords : jsstring -> jsstring -> list Part.t)
        (content transformed : jsstring) (n : nat) :
  originalSide (diffWords content transformed) = content ->
  Forall (fun c => original c = slice content (startOf c) (endOf c))
         (fst (calculateWordDiff diffWords uuidv4 content transformed n)).
Proof.
  intros Ho; unfold calculateWordDiff.
  pose proof (collect_quote (diffWords content transformed) [] n) as Hq.
  simpl in Hq; change (len []) with 0%Z in Hq; rewrite Ho in Hq.
  unfold collected in Hq.
  destruct (collect uuidv4 (diffWords content transformed) 0 n)
    as [raw n1]; simpl in Hq.
  apply merge_Forall_built; [|exact Hq].
  intros c d k Hc _; exact Hc.
Qed.

Lemma collect_reasons (diff : list Part.t) : forall position n,
  Forall (fun c =>
            In (type c) [ADDITION; DELETION; MODIFICATION]
            /\ reason c
               = getReasonForChange (type c) (original c) (suggested c))
         (collected uuidv4 diff position n).
Proof.
  induction diff as [|p rest IH]; intros position n; [constructor|].
  destruct (Part.added p) eqn:Ha; [| destruct (Part.removed p) eqn:Hr].
  - rewrite collect_added by assumption.
    constructor; [|apply IH]; simpl; auto.
  - rewrite collect_removed by assumption.
    constructor; [|apply IH]; simpl; auto.
  - rewrite collect_common by assumption; apply IH.
Qed.

(** X4 - Every record returned by [calculateWordDiff], for any diff, is
    an addition, a deletion or a modification, and its reason is the one
    that [getReasonForChange] gives for its own type and texts. *)
Theorem records_carry_their_reason
        (diffWords : jsstring -> jsstring -> list Part.t)
        (content transformed : jsstring) (n : nat) :
  Forall (fun c =>
            In (type c) [ADDITION; DELETION; MODIFICATION]
            /\ reason c
               = getReasonForChange (type c) (original c) (suggested c))
         (fst (calculateWordDiff diffWords uuidv4 content transformed n)).
Proof.
  unfold calculateWordDiff.
  pose proof (collect_reasons (diffWords content transformed) 0 n) as Hr.
  unfold collected in Hr.
  destruct (collect uuidv4 (diffWords content transformed) 0 n)
    as [raw n1]; simpl in Hr.
  apply merge_Forall_built; [|exact Hr].
  intros c d k _ _; simpl; auto.
Qed.

(** ** Accepting some of the records *)

Lemma strict_filter (keep : Change -> bool) (l : list Change) :
  StronglySorted (fun a b => (startOf a < startOf b)%Z) l ->
  StronglySorted (fun a b => (startOf a < startOf b)%Z) (filter keep l).
Proof.
  induction 1 as [|c l Hs IH Hall]; simpl; [constructor|].
  destruct (keep c); [|exact IH].
  constructor; [exact IH|].
  rewrite Forall_forall in *; intros x Hx.
  apply filter_In in Hx as [Hx _]; auto.
Qed.

Lemma splice_accepted (keep : Change -> bool) (diff : list Part.t) :
  forall (pre : jsstring) (n : nat),
    fold_left applyChange
              (rev (filter keep (collected uuidv4 diff (len pre) n)))
              (pre ++ originalSide diff)
    = pre ++ acceptedText uuidv4 keep diff (len pre) n.
Proof.
  induction diff as [|p rest IH]; intros pre n; [reflexivity|].
  unfold originalSide in *; simpl filter; cbn [acceptedText].
  destruct (Part.added p) eqn:Ha; [| destruct (Part.removed p) eqn:Hr];
    simpl negb; cbv iota.
  - rewrite collect_added by assumption.
    cbn [filter].
    destruct (keep (additionAt uuidv4 (len pre) n p)).
    + simpl rev; rewrite fold_left_app, IH; simpl fold_left.
      rewrite applyChange_addition by reflexivity.
      unfold startOf; simpl.
      now rewrite slice_prefix, slice_from_suffix.
    + now rewrite IH.
  - rewrite collect_removed by assumption.
    cbn [filter]; simpl List.concat.
    rewrite <- !len_app.
    destruct (keep (deletionAt uuidv4 (len pre) n p)).
    + simpl rev; rewrite fold_left_app; simpl fold_left.
      rewrite (app_assoc pre (Part.value p)), IH.
      rewrite applyChange_deletion by reflexivity.
      unfold startOf, endOf; simpl.
      rewrite <- len_app, slice_from_suffix.
      now rewrite <- app_assoc, slice_prefix.
    + rewrite (app_assoc pre (Part.value p)), IH.
      now rewrite <- app_assoc.
  - rewrite collect_common by assumption.
    simpl List.concat.
    rewrite <- len_app.
    rewrite !(app_assoc pre (Part.value p)).
    apply IH.
Qed.

Lemma acceptedText_all (diff : list Part.t) : forall position n,
  acceptedText uuidv4 (fun _ => true) diff position n = suggestedSide diff.
Proof.
  unfold suggestedSide.
  induction diff as [|p rest IH]; intros position n; [reflexivity|].
  cbn [acceptedText filter].
  destruct (Part.added p); [| destruct (Part.removed p)]; simpl;
    now rewrite IH.
Qed.

Lemma acceptedText_none (diff : list Part.t) : forall position n,
  acceptedText uuidv4 (fun _ => false) diff position n = originalSide diff.
Proof.
  unfold originalSide.
  induction diff as [|p rest IH]; intros position n; [reflexivity|].
  cbn [acceptedText filter].
  destruct (Part.added p); [| destruct (Part.removed p)]; simpl;
    now rewrite IH.
Qed.

Lemma reconcile_accepted
      (diffWords : jsstring -> jsstring -> list Part.t)
      (content transformed : jsstring) (n : nat) (keep : Change -> bool) :
  originalSide (diffWords content transformed) = content ->
  normal (diffWords content transformed) = true ->
  applyChangesToContent content
    (filter keep
       (fst (calculateWordDiff diffWords uuidv4 content transformed n)))
  = acceptedText uuidv4 keep (diffWords content transformed) 0 n.
Proof.
  intros Ho Hn.
  rewrite calculateWordDiff_normal by assumption.
  unfold applyChangesToContent.
  rewrite sort_strict by (apply strict_filter; now apply collect_strict).
  pose proof (splice_accepted keep (diffWords content transformed) [] n)
    as H.
  simpl in H; change (len []) with 0%Z in H.
  now rewrite Ho in H.
Qed.

(** X5 - Accepting part of the records is safe.  For a diff in normal
    form whose parts spell the original, reconciling with any selection
    of the records of [calculateWordDiff] gives the text in which exactly
    the selected deletions have taken their text out and exactly the
    selected additions have put theirs in; selecting every record gives
    the text the diff leads to, and selecting none gives the original. *)
Theorem partial_acceptance
        (diffWords : jsstring -> jsstring -> list Part.t)
        (content transformed : jsstring) (n : nat) :
  originalSide (diffWords content transformed) = content ->
  normal (diffWords content transformed) = true ->
  let changes :=
    fst (calculateWordDiff diffWords uuidv4 content transformed n) in
  let diff := diffWords content transformed in
  (forall keep,
      applyChangesToContent content (filter keep changes)
      = acceptedText uuidv4 keep diff 0 n)
  /\ acceptedText uuidv4 (fun _ => true) diff 0 n = suggestedSide diff
  /\ acceptedText uuidv4 (fun _ => false) diff 0 n = content.
Proof.
  intros Ho Hn changes diff; split; [|split].
  - intros keep; now apply reconcile_accepted.
  - apply acceptedText_all.
  - subst diff; rewrite acceptedText_none; exact Ho.
Qed.
End RecordProperties.

Lemma records_quote_original_witness :
  Forall (fun c =>
            DiffCalculator.original c
            = JS.slice (JS.str "We utilize state-of-the-art methodologies.")
                       (Properties.startOf c) (Properties.endOf c))
         (fst (DiffCalculator.calculateWordDiff DiffEngine.diffWords
                 Properties.sampleUuid
                 (JS.str "We utilize state-of-the-art methodologies.")
                 (JS.str "We use modern methodologies.") 0)).
Proof.
  apply (@records_quote_original Properties.sampleUuid DiffEngine.diffWords
           (JS.str "We utilize state-of-the-art methodologies.")
           (JS.str "We use modern methodologies.") 0).
  vm_compute; reflexivity.
Defined.

Lemma partial_acceptance_witness :
  let content := JS.str "We utilize state-of-the-art methodologies." in
  let transformed := JS.str "We use modern methodologies." in
  let changes :=
    fst (DiffCalculator.calculateWordDiff DiffEngine.diffWords
           Properties.sampleUuid content transformed 0) in
  let diff := DiffEngine.diffWords content transformed in
  (forall keep,
      EditorWithSuggestions.applyChangesToContent content
        (filter keep changes)
      = MoreProperties.acceptedText Properties.sampleUuid keep diff 0 0)
  /\ MoreProperties.acceptedText Properties.sampleUuid (fun _ => true)
       diff 0 0 = Properties.suggestedSide diff
  /\ MoreProperties.acceptedText Properties.sampleUuid (fun _ => false)
       diff 0 0 = content.
Proof.
  apply (@partial_acceptance Properties.sampleUuid DiffEngine.diffWords
           (JS.str "We utilize state-of-the-art methodologies.")
           (JS.str "We use modern methodologies.") 0).
  - vm_compute; reflexivity.
  - vm_compute; reflexivity.
Defined.

(* ================================================================== *)
(** * Further properties: reconciliation *)
(* ================================================================== *)

Section OrderProperties.
Import JS DiffCalculator Properties MoreProperties EditorWithSuggestions.

(** Two lists in strict order that hold the same elements are equal. *)
Lemma strict_order_unique (A : Type) (R : A -> A -> Prop) :
  (forall a b, R a b -> R b a -> False) ->
  forall l1 l2 : list A,
    StronglySorted R l1 -> StronglySorted R l2 -> Permutation l1 l2 ->
    l1 = l2.
Proof.
  intros Hasym l1.
  induction l1 as [|a l1 IH]; intros l2 H1 H2 Hp.
  - now apply Permutation_nil in Hp.
  - destruct l2 as [|b l2];
      [apply Permutation_sym, Permutation_nil in Hp; discriminate|].
    inversion H1 as [|? ? Hs1 Ha]; inversion H2 as [|? ? Hs2 Hb]; subst.
    assert (Hab : a = b).
    { assert (Hina : In a (b :: l2))
        by (eapply Permutation_in; [exact Hp | now left]).
      assert (Hinb : In b (a :: l1))
        by (eapply Permutation_in;
            [apply Permutation_sym; exact Hp | now left]).
      destruct Hina as [<- | Hina]; [reflexivity|].
      destruct Hinb as [<- | Hinb]; [reflexivity|].
      rewrite Forall_forall in Ha, Hb.
      exfalso; apply (Hasym a b); auto. }
    subst b; f_equal.
    apply IH; auto.
    now apply Permutation_cons_inv in Hp.
Qed.

Lemma descending_strict (l : list Change) :
  StronglySorted (fun a b => (startOf b <= startOf a)%Z) l ->
  NoDup (map startOf l) ->
  StronglySorted (fun a b => (startOf b < startOf a)%Z) l.
Proof.
  induction 1 as [|c l Hs IH Hall]; intros Hnd; [constructor|].
  simpl in Hnd; inversion Hnd as [|? ? Hnotin Hnd']; subst.
  constructor; [now apply IH|].
  rewrite Forall_forall in *; intros x Hx.
  specialize (Hall x Hx).
  assert (startOf x <> startOf c)
    by (intros Heq; apply Hnotin; rewrite <- Heq; now apply in_map).
  lia.
Qed.

Lemma sort_order_independent (l l' : list Change) :
  Permutation l l' -> NoDup (map startOf l) -> sort l = sort l'.
Proof.
  intros Hp Hnd.
  apply (@strict_order_unique _ (fun a b => (startOf b < startOf a)%Z)).
  - intros a b; lia.
  - apply descending_strict; [apply sort_descending|].
    eapply Permutation_NoDup; [|exact Hnd].
    apply Permutation_map, Permutation_sym, sort_permutation.
  - apply descending_strict; [apply sort_descending|].
    eapply Permutation_NoDup; [|exact Hnd].
    apply Permutation_map.
    eapply Permutation_trans; [exact Hp|].
    apply Permutation_sym, sort_permutation.
  - eapply Permutation_trans; [apply sort_permutation|].
    eapply Permutation_trans; [exact Hp|].
    apply Permutation_sym, sort_permutation.
Qed.

(** X6 - The order in which the accepted records are handed over does not
    matter: when no two of them start at the same offset, reconciling any
    rearrangement of the list gives the same string. *)
Theorem reconcile_order_independent
        (content : jsstring) (accepted rearranged : list Change) :
  Permutation accepted rearranged ->
  NoDup (map startOf accepted) ->
  applyChangesToContent content accepted
  = applyChangesToContent content rearranged.
Proof.
  intros Hp Hnd; unfold applyChangesToContent.
  now rewrite (sort_order_independent Hp Hnd).
Qed.

Lemma reconcile_order_independent_witness :
  let a := mkChange (str "chg_1a2b3c4d") DELETION (mkPosition 3 10)
                    (str "utilize") [] (str "Simplifies phrasing") in
  let b := mkChange (str "chg_5e6f7a8b") ADDITION (mkPosition 10 10)
                    [] (str "use") (str "Adds additional context") in
  applyChangesToContent (str "We utilize it.") [a; b]
  = applyChangesToContent (str "We utilize it.") [b; a].
Proof.
  intros a b.
  apply (@reconcile_order_independent (str "We utilize it.") [a; b] [b; a]).
  - apply perm_swap.
  - repeat constructor; simpl; intuition discriminate.
Defined.

(** With equal starts the order does matter: an addition handed over
    before a deletion that starts at the same offset is cut by it. *)
Remark reconcile_order_matters_on_ties :
  let a := mkChange (str "chg_1a2b3c4d") ADDITION (mkPosition 0 0)
                    [] (str "is") (str "Adds additional context") in
  let d := mkChange (str "chg_5e6f7a8b") DELETION (mkPosition 0 3)
                    (str "are") [] (str "Simplifies phrasing") in
  applyChangesToContent (str "are") [d; a] = str "is"
  /\ applyChangesToContent (str "are") [a; d] = str "re".
Proof. split; vm_compute; reflexivity. Qed.

Lemma len_slice_prefix (s : jsstring) (p : Z) :
  (0 <= p <= len s)%Z -> len (slice s 0 p) = p.
Proof.
  intros Hp; unfold slice.
  rewrite !clamp_index_inside by lia.
  unfold len in *; simpl skipn.
  rewrite length_firstn; lia.
Qed.

(** X7 - The record that a merge builds does what the two records it is
    built from do: for a deletion inside the string and an addition at
    the start of the deletion, reconciling with the pair and reconciling
    with what [mergeAdjacentChanges] makes of the pair give the same
    string, the original with the deleted range replaced by the added
    text. *)
Theorem merged_pair_equivalent
        (uuidv4 : nat -> jsstring) (content : jsstring) (d a : Change)
        (n : nat) :
  type d = DELETION -> type a = ADDITION ->
  startOf a = startOf d ->
  (0 <= startOf d <= endOf d)%Z -> (endOf d <= len content)%Z ->
  applyChangesToContent content (fst (mergeAdjacentChanges uuidv4 [d; a] n))
  = applyChangesToContent content [d; a]
  /\ applyChangesToContent content [d; a]
     = slice content 0 (startOf d) ++ suggested a
       ++ slice_from content (endOf d).
Proof.
  intros Hd Ha Hs Hrange Hend.
  unfold startOf, endOf in *.
  assert (Hm : fst (mergeAdjacentChanges uuidv4 [d; a] n)
               = [mkChange (changeId uuidv4 n) MODIFICATION (position d)
                    (original d) (suggested a)
                    (getReasonForChange MODIFICATION (original d)
                                        (suggested a))]).
  { rewrite merge_equal_starts by assumption; reflexivity. }
  assert (Hpair : applyChangesToContent content [d; a]
                  = slice content 0 (start (position d)) ++ suggested a
                    ++ slice_from content (end_ (position d))).
  { unfold applyChangesToContent; simpl sort.
    unfold compare; rewrite Hs, Z.sub_diag; simpl fold_left.
    rewrite (@applyChange_addition _ a Ha).
    rewrite (@applyChange_deletion content d Hd).
    unfold startOf, endOf; rewrite Hs.
    set (p := start (position d)) in *; set (q := end_ (position d)) in *.
    assert (Hlen : len (slice content 0 p) = p)
      by (apply len_slice_prefix; lia).
    remember (slice content 0 p) as pre eqn:Hpre; clear Hpre.
    rewrite <- Hlen.
    now rewrite slice_prefix, slice_from_suffix. }
  split; [|exact Hpair].
  rewrite Hm, Hpair.
  unfold applyChangesToContent; simpl.
  now rewrite applyChange_modification by reflexivity.
Qed.

Lemma merged_pair_equivalent_witness :
  let d := mkChange (str "chg_1a2b3c4d") DELETION (mkPosition 9 12)
                    (str "are") [] (str "Simplifies phrasing") in
  let a := mkChange (str "chg_5e6f7a8b") ADDITION (mkPosition 9 9)
                    [] (str "is") (str "Adds additional context") in
  let content := str "The team are working on it." in
  applyChangesToContent content
    (fst (mergeAdjacentChanges sampleUuid [d; a] 0))
  = applyChangesToContent content [d; a]
  /\ applyChangesToContent content [d; a]
     = slice content 0 (startOf d) ++ suggested a
       ++ slice_from content (endOf d).
Proof.
  intros d a content.
  apply (@merged_pair_equivalent sampleUuid content d a 0);
    try reflexivity; unfold startOf, endOf, content; simpl;
    unfold len; simpl; lia.
Defined.
End OrderProperties.

(* ================================================================== *)
(** * Further properties: identifiers *)
(* ================================================================== *)

Section IdentifierProperties.
Import JS DiffCalculator Properties MoreProperties.
Variable uuidv4 : nat -> jsstring.

(** The loop draws once for each record, in order. *)
Lemma collect_ids (diff : list Part.t) : forall position n,
  map id (collected uuidv4 diff position n)
  = map (changeId uuidv4)
        (seq n (List.length (collected uuidv4 diff position n)))
  /\ snd (collect uuidv4 diff position n)
     = (n + List.length (collected uuidv4 diff position n))%nat.
Proof.
  induction diff as [|p rest IH]; intros position n.
  - unfold collected; simpl; split; [reflexivity | lia].
  - destruct (Part.added p) eqn:Ha; [| destruct (Part.removed p) eqn:Hr].
    + rewrite collect_added by assumption.
      destruct (IH position (S n)) as [H1 H2].
      split; [simpl; now rewrite H1|].
      unfold collected in *; simpl; rewrite Ha.
      destruct (collect uuidv4 rest position (S n)); simpl in *; lia.
    + rewrite collect_removed by assumption.
      destruct (IH (position + len (Part.value p))%Z (S n)) as [H1 H2].
      split; [simpl; now rewrite H1|].
      unfold collected in *; simpl; rewrite Ha, Hr.
      destruct (collect uuidv4 rest _ (S n)); simpl in *; lia.
    + rewrite collect_common by assumption.
      destruct (IH (position + len (Part.value p))%Z n) as [H1 H2].
      split; [exact H1|].
      unfold collected in *; simpl; rewrite Ha, Hr; exact H2.
Qed.

(** The merge keeps the identifiers of the records it copies and draws a
    new one, from [n] on, for each record it builds. *)
Lemma merge_ids (l : list Change) : forall (ks : list nat) (n : nat),
  map id l = map (changeId uuidv4) ks ->
  exists ks',
    map id (fst (mergeAdjacentChanges uuidv4 l n))
    = map (changeId uuidv4) ks'
    /\ (n <= snd (mergeAdjacentChanges uuidv4 l n))%nat
    /\ (forall k,
           In k ks' ->
           In k ks
           \/ (n <= k < snd (mergeAdjacentChanges uuidv4 l n))%nat)
    /\ (NoDup ks -> Forall (fun k => (k < n)%nat) ks -> NoDup ks').
Proof.
  induction l as [| c | c d rest IHrest IHtail] using changes_ind2;
    intros ks n Hids.
  - exists []; simpl; repeat split; [lia | intros k [] | constructor].
  - exists ks; simpl; repeat split; auto.
  - destruct ks as [|k0 [|k1 ks]]; try discriminate.
    simpl in Hids; injection Hids as Hc Hd Hrest.
    rewrite merge_step.
    destruct (eqb (type c) DELETION && eqb (type d) ADDITION
              && (start (position d) =? start (position c))%Z).
    + destruct (IHrest ks (S n) Hrest) as (ks' & Hmap & Hle & Hin & Hnd).
      destruct (mergeAdjacentChanges uuidv4 rest (S n)) as [merged n'].
      exists (n :: ks'); simpl in *; repeat split.
      * now rewrite Hmap.
      * lia.
      * intros k [<- | Hk]; [right; lia|].
        destruct (Hin k Hk); [left; auto | right; lia].
      * intros Hno Hlt.
        inversion Hno as [|? ? _ Hno1]; inversion Hno1 as [|? ? _ Hno2];
          subst.
        inversion Hlt as [|? ? _ Hlt1]; inversion Hlt1 as [|? ? _ Hlt2];
          subst.
        constructor.
        -- intros Hk; destruct (Hin n Hk) as [Hold | Hnew]; [|lia].
           rewrite Forall_forall in Hlt2; specialize (Hlt2 n Hold); lia.
        -- apply Hnd; [exact Hno2|].
           eapply Forall_impl; [|exact Hlt2]; simpl; intros; lia.
    + assert (Htail : map id (d :: rest)
                      = map (changeId uuidv4) (k1 :: ks))
        by (simpl; now rewrite Hd, Hrest).
      destruct (IHtail (k1 :: ks) n Htail)
        as (ks' & Hmap & Hle & Hin & Hnd).
      destruct (mergeAdjacentChanges uuidv4 (d :: rest) n) as [merged n'].
      exists (k0 :: ks'); simpl in *; repeat split.
      * now rewrite Hc, Hmap.
      * exact Hle.
      * intros k [<- | Hk]; [left; auto|].
        destruct (Hin k Hk) as [[? | ?] | ?]; auto.
      * intros Hno Hlt.
        inversion Hno as [|? ? Hnotin Hno1]; subst.
        inversion Hlt as [|? ? Hk0 Hlt1]; subst.
        constructor; [|now apply Hnd].
        intros Hk; destruct (Hin k0 Hk) as [Hold | Hnew]; [|lia].
        now apply Hnotin.
Qed.

(** X8 - When the first eight characters of the draws that a call of
    [calculateWordDiff] makes from [uuidv4] are pairwise different, the
    identifiers of the records it returns are pairwise different,
    whatever the diff: an identifier selects one record. *)
Theorem change_ids_unique
        (diffWords : jsstring -> jsstring -> list Part.t)
        (content transformed : jsstring) (n : nat) :
  distinctDraws uuidv4 n
    (snd (calculateWordDiff diffWords uuidv4 content transformed n)) ->
  NoDup (map id
           (fst (calculateWordDiff diffWords uuidv4 content transformed n))).
Proof.
  unfold calculateWordDiff.
  destruct (collect_ids (diffWords content transformed) 0 n) as [Hids Hn].
  unfold collected in *.
  destruct (collect uuidv4 (diffWords content transformed) 0 n)
    as [raw n1]; simpl in *.
  destruct (merge_ids raw _ n1 Hids) as (ks' & Hmap & Hle & Hin & Hnd).
  intros Hd; rewrite Hmap.
  apply Finite.Injective_map_NoDup_in.
  - intros i j Hi Hj H.
    unfold changeId in H; apply app_inv_head in H.
    assert (Hrange : forall k,
               In k ks' ->
               (n <= k < snd (mergeAdjacentChanges uuidv4 raw n1))%nat).
    { intros k Hk; destruct (Hin k Hk) as [Hold | Hnew]; [|lia].
      apply in_seq in Hold; lia. }
    apply Hd; auto.
  - apply Hnd; [apply seq_NoDup|].
    apply Forall_forall; intros k Hk.
    apply in_seq in Hk; lia.
Qed.
End IdentifierProperties.

Lemma change_ids_unique_witness :
  NoDup (map DiffCalculator.id
           (fst (DiffCalculator.calculateWordDiff DiffEngine.diffWords
                   Properties.sampleUuid
                   (JS.str "Our app is good.")
                   (JS.str "Our application is excellent.") 0))).
Proof.
  apply (@change_ids_unique Properties.sampleUuid DiffEngine.diffWords
           (JS.str "Our app is good.")
           (JS.str "Our application is excellent.") 0).
  intros i j Hi Hj.
  vm_compute in Hi, Hj.
  assert (Hcases : forall k : nat,
             (0 <= k < 4)%nat ->
             k = 0%nat \/ k = 1%nat \/ k = 2%nat \/ k = 3%nat)
    by (intros; lia).
  destruct (Hcases i Hi) as [-> | [-> | [-> | ->]]];
    destruct (Hcases j Hj) as [-> | [-> | [-> | ->]]];
    vm_compute; intros H; try reflexivity; discriminate.
Defined.

(* ================================================================== *)
(** * Further properties: the handlers of the editor *)
(* ================================================================== *)

Section HandlerProperties.
Import JS DiffCalculator SuggestionRules Properties MoreProperties.
Import EditorWithSuggestions EditorHandlers.

Lemma has_add (set : StringSet.t) (x y : jsstring) :
  StringSet.has (StringSet.add set y) x
  = StringSet.has set x || eqb x y.
Proof.
  unfold StringSet.add.
  destruct (StringSet.has set y) eqn:Hy.
  - destruct (eqb x y) eqn:Hxy; [|now rewrite orb_false_r].
    apply eqb_eq in Hxy; subst; now rewrite Hy.
  - unfold StringSet.has; rewrite existsb_app; simpl.
    now rewrite orb_false_r.
Qed.

Lemma has_fold_add (array : list jsstring) : forall (set : StringSet.t) x,
  StringSet.has (fold_left StringSet.add array set) x
  = StringSet.has set x || existsb (eqb x) array.
Proof.
  induction array as [|y rest IH]; intros set x; simpl.
  - now rewrite orb_false_r.
  - now rewrite IH, has_add, orb_assoc.
Qed.

Lemma has_fromArray (array : list jsstring) (x : jsstring) :
  StringSet.has (StringSet.fromArray array) x = existsb (eqb x) array.
Proof. unfold StringSet.fromArray; now rewrite has_fold_add. Qed.

Lemma has_In (set : list jsstring) (x : jsstring) :
  existsb (eqb x) set = true <-> In x set.
Proof.
  rewrite existsb_exists; split.
  - intros (y & Hy & Heq); apply eqb_eq in Heq; now subst.
  - intros Hx; exists x; split; [exact Hx | apply eqb_refl].
Qed.

(** A set made from names without repetition lists them as they come. *)
Lemma fold_add_NoDup (array : list jsstring) : forall set : StringSet.t,
  NoDup (set ++ array) ->
  fold_left StringSet.add array set = set ++ array.
Proof.
  induction array as [|y rest IH]; intros set Hnd; simpl.
  - now rewrite app_nil_r.
  - assert (Hy : StringSet.has set y = false).
    { destruct (StringSet.has set y) eqn:E; [|reflexivity].
      apply has_In in E.
      apply NoDup_remove_2 in Hnd.
      exfalso; apply Hnd, in_or_app; now left. }
    unfold StringSet.add at 2; rewrite Hy.
    rewrite IH; rewrite <- app_assoc; [reflexivity | exact Hnd].
Qed.

Lemma fold_add_NoDup_keeps (array : list jsstring) :
  forall set : StringSet.t,
    NoDup set -> NoDup (fold_left StringSet.add array set).
Proof.
  induction array as [|y rest IH]; intros set Hnd; simpl; [exact Hnd|].
  apply IH; unfold StringSet.add.
  destruct (StringSet.has set y) eqn:E; [exact Hnd|].
  apply NoDup_app; [exact Hnd | repeat constructor; intros [] |].
  intros x Hx [<- | []].
  apply has_In in Hx; unfold StringSet.has in E; congruence.
Qed.

Lemma fold_add_length (array : list jsstring) : forall set : StringSet.t,
  (List.length (fold_left StringSet.add array set)
   <= List.length set + List.length array)%nat.
Proof.
  induction array as [|y rest IH]; intros set; simpl; [lia|].
  etransitivity; [apply IH|].
  unfold StringSet.add; destruct (StringSet.has set y);
    [|rewrite length_app]; simpl; lia.
Qed.

Lemma filter_all (A : Type) (f : A -> bool) (l : list A) :
  (forall x, In x l -> f x = true) -> filter f l = l.
Proof.
  induction l as [|x l IH]; intros H; simpl; [reflexivity|].
  rewrite (H x) by now left.
  f_equal; apply IH; intros; apply H; now right.
Qed.

Lemma filter_none (A : Type) (f : A -> bool) (l : list A) :
  (forall x, In x l -> f x = false) -> filter f l = [].
Proof.
  induction l as [|x l IH]; intros H; simpl; [reflexivity|].
  rewrite (H x) by now left.
  apply IH; intros; apply H; now right.
Qed.

(** Among records with pairwise different identifiers, an identifier
    selects its record and no other. *)
Lemma filter_by_id (changes : list Change) (c : Change) :
  NoDup (map id changes) -> In c changes ->
  filter (fun c' => eqb (id c') (id c)) changes = [c].
Proof.
  induction changes as [|d rest IH]; intros Hnd Hin; [destruct Hin|].
  simpl in Hnd; inversion Hnd as [|? ? Hnotin Hrest]; subst.
  simpl; destruct Hin as [-> | Hin].
  - rewrite eqb_refl; f_equal.
    apply filter_none; intros x Hx.
    apply eqb_neq; intros Heq.
    apply Hnotin; rewrite <- Heq; now apply in_map.
  - destruct (eqb (id d) (id c)) eqn:E; [|now apply IH].
    apply eqb_eq in E; exfalso.
    apply Hnotin; rewrite E; now apply in_map.
Qed.

(** X9 - From the request to the editor.  When [diffWords] returns an
    exact edit script in normal form, the suggestion that
    [generateSuggestions] gives for a recognized type, once received,
    accepted as a whole with [handleAcceptAll] and applied with
    [handleApplyChanges], hands the editor exactly the rewritten text and
    leaves the component without suggestion and without selection. *)
Theorem accept_all_then_apply
        (diffWords : jsstring -> jsstring -> list Part.t)
        (uuidv4 : nat -> jsstring) (now content type : jsstring)
        (ctx : context) (n : nat) (rules : list RuleSpec) (st : State) :
  SuggestionService.selectRules type = Normal rules ->
  editScript content (SuggestionService.applyRules content rules ctx)
             (diffWords content
                        (SuggestionService.applyRules content rules ctx)) ->
  exists s,
    SuggestionService.generateSuggestions diffWords uuidv4 now content
      type ctx n = Normal s
    /\ handleApplyChanges true (handleAcceptAll (receiveSuggestion s st))
       = (mkState None [],
          Some (SuggestionService.applyRules content rules ctx)).
Proof.
  intros Hrules Hscript.
  unfold SuggestionService.generateSuggestions; rewrite Hrules.
  pose proof (reconcile_all diffWords uuidv4 n Hscript) as Hall.
  destruct (calculateWordDiff diffWords uuidv4 content
              (SuggestionService.applyRules content rules ctx) n)
    as [cs n1].
  eexists; split; [reflexivity|].
  unfold handleApplyChanges, handleAcceptAll, receiveSuggestion; simpl.
  simpl in Hall.
  rewrite filter_all; [now rewrite Hall|].
  intros c Hc; rewrite has_fromArray.
  apply has_In; now apply in_map.
Qed.

(** X10 - Accepting one change applies that change alone.  For a
    suggestion whose records have pairwise different identifiers,
    accepting the identifier of one of its records and applying hands the
    editor the original text with this one record spliced in. *)
Theorem accept_one_then_apply
        (s : SuggestionService.Suggestion) (c : Change) (st : State) :
  NoDup (map id (SuggestionService.changes s)) ->
  In c (SuggestionService.changes s) ->
  handleApplyChanges true
    (handleAcceptChange (id c) (receiveSuggestion s st))
  = (mkState None [],
     Some (applyChange (SuggestionService.original s) c)).
Proof.
  intros Hnd Hin.
  unfold handleApplyChanges, handleAcceptChange, receiveSuggestion; simpl.
  rewrite (filter_ext _ (fun c' => eqb (id c') (id c))).
  - now rewrite filter_by_id.
  - intros c'; unfold StringSet.has; simpl; now rewrite orb_false_r.
Qed.

(** X11 - What the selection holds.  Whatever the handlers have done
    before: after [handleAcceptChange] the identifier is selected and
    after [handleRejectChange] it is not, each leaving every other
    identifier as it was; after [handleAcceptAll] on a shown suggestion
    exactly the identifiers of its records are selected, and the size of
    the selection is at most the number of records, and equal to it when
    the identifiers are pairwise different. *)
Theorem selection_laws (st : State) (x : jsstring) :
  (forall y,
      StringSet.has (selectedChangeIds (handleAcceptChange x st)) y
      = eqb y x || StringSet.has (selectedChangeIds st) y)
  /\ (forall y,
         StringSet.has (selectedChangeIds (handleRejectChange x st)) y
         = negb (eqb y x) && StringSet.has (selectedChangeIds st) y)
  /\ (forall s,
         suggestion st = Some s ->
         let ids := map id (SuggestionService.changes s) in
         let selected := selectedChangeIds (handleAcceptAll st) in
         (forall y, StringSet.has selected y = true <-> In y ids)
         /\ (StringSet.size selected <= Z.of_nat (List.length ids))%Z
         /\ (NoDup ids ->
             StringSet.size selected = Z.of_nat (List.length ids))).
Proof.
  split; [|split].
  - intros y; simpl; rewrite has_add; apply orb_comm.
  - intros y; simpl; unfold StringSet.delete, StringSet.has.
    induction (selectedChangeIds st) as [|z set IH]; simpl.
    + now rewrite andb_false_r.
    + destruct (eqb z x) eqn:Ezx; simpl.
      * rewrite IH; apply eqb_eq in Ezx; subst z.
        destruct (eqb y x) eqn:Eyx; simpl; reflexivity.
      * rewrite IH.
        destruct (eqb y z) eqn:Eyz; simpl; [|reflexivity].
        apply eqb_eq in Eyz; subst z; now rewrite Ezx.
  - intros s Hs ids selected; subst selected.
    unfold handleAcceptAll; rewrite Hs; simpl; fold ids.
    split; [|split].
    + intros y; rewrite has_fromArray; apply has_In.
    + unfold StringSet.size, StringSet.fromArray.
      pose proof (fold_add_length ids []); simpl in *; lia.
    + intros Hnd; unfold StringSet.size, StringSet.fromArray.
      now rewrite fold_add_NoDup.
Qed.
End HandlerProperties.

Lemma accept_all_then_apply_witness :
  exists s,
    SuggestionService.generateSuggestions DiffEngine.diffWords
      Properties.sampleUuid Properties.sampleNow
      (JS.str "We utilize state-of-the-art methodologies.")
      (JS.str "simplify") [] 0 = JS.Normal s
    /\ EditorHandlers.handleApplyChanges true
         (EditorHandlers.handleAcceptAll
            (EditorHandlers.receiveSuggestion s
               (EditorHandlers.mkState None [])))
       = (EditorHandlers.mkState None [],
          Some (JS.str "We use modern methodologies.")).
Proof.
  destruct (@accept_all_then_apply DiffEngine.diffWords
              Properties.sampleUuid Properties.sampleNow
              (JS.str "We utilize state-of-the-art methodologies.")
              (JS.str "simplify") [] 0 SuggestionRules.simplificationRules
              (EditorHandlers.mkState None []))
    as (s & Hs & Happly).
  - reflexivity.
  - repeat split; vm_compute; reflexivity.
  - exists s; split; [exact Hs|].
    rewrite Happly; vm_compute; reflexivity.
Defined.

Lemma accept_one_then_apply_witness :
  EditorHandlers.handleApplyChanges true
    (EditorHandlers.handleAcceptChange (JS.str "chg_a1")
       (EditorHandlers.receiveSuggestion MoreProperties.sampleSuggestion
          (EditorHandlers.mkState None [])))
  = (EditorHandlers.mkState None [], Some (JS.str "a good day")).
Proof.
  apply (@accept_one_then_apply MoreProperties.sampleSuggestion
           (DiffCalculator.mkChange (JS.str "chg_a1")
              DiffCalculator.DELETION (DiffCalculator.mkPosition 2 7)
              (JS.str "very ") [] (JS.str "Removes unnecessary modifier"))
           (EditorHandlers.mkState None [])).
  - repeat constructor; simpl; intuition discriminate.
  - simpl; auto.
Defined.

Lemma selection_laws_witness :
  StringSet.size
    (EditorHandlers.selectedChangeIds
       (EditorHandlers.handleAcceptAll
          (EditorHandlers.mkState (Some MoreProperties.sampleSuggestion)
             [JS.str "chg_b2"])))
  = 2%Z.
Proof.
  destruct (@selection_laws
              (EditorHandlers.mkState (Some MoreProperties.sampleSuggestion)
                 [JS.str "chg_b2"])
              (JS.str "chg_a1")) as (_ & _ & Hall).
  destruct (Hall MoreProperties.sampleSuggestion eq_refl)
    as (_ & _ & Hsize).
  apply Hsize.
  repeat constructor; simpl; intuition discriminate.
Defined.

(* ================================================================== *)
(** * Further properties: the highlighted text *)
(* ================================================================== *)

Section HighlightProperties.
Import JS DiffCalculator Properties MoreProperties.

Lemma highlight_insert_head (c : Change) (l : list Change) :
  Forall (fun d => (startOf c <= startOf d)%Z) l ->
  DiffHighlighter.insert c l = c :: l.
Proof.
  destruct l as [|d l]; intros H; [reflexivity|].
  inversion H as [|? ? Hd _]; subst; simpl.
  unfold DiffHighlighter.compare, startOf in *.
  destruct (Z.leb_spec (start (position c) - start (position d)) 0);
    [reflexivity | lia].
Qed.

(** The stable sort leaves a list alone whose starts already ascend. *)
Lemma highlight_sort_sorted (l : list Change) :
  StronglySorted (fun a b => (startOf a <= startOf b)%Z) l ->
  DiffHighlighter.sort l = l.
Proof.
  induction 1 as [|c l Hs IH Hall]; [reflexivity|].
  simpl; rewrite IH; now apply highlight_insert_head.
Qed.

Lemma highlight_insert_permutation (c : Change) (l : list Change) :
  Permutation (DiffHighlighter.insert c l) (c :: l).
Proof.
  induction l as [|d l IH]; simpl; [reflexivity|].
  destruct (DiffHighlighter.compare c d <=? 0)%Z; [reflexivity|].
  rewrite IH; apply perm_swap.
Qed.

Lemma highlight_sort_permutation (l : list Change) :
  Permutation (DiffHighlighter.sort l) l.
Proof.
  induction l as [|c l IH]; simpl; [reflexivity|].
  rewrite highlight_insert_permutation; now constructor.
Qed.

Lemma highlight_insert_ascending (c : Change) (l : list Change) :
  StronglySorted (fun a b => (startOf a <= startOf b)%Z) l ->
  StronglySorted (fun a b => (startOf a <= startOf b)%Z)
                 (DiffHighlighter.insert c l).
Proof.
  induction 1 as [|d l Hs IH Hall]; simpl.
  - repeat constructor.
  - unfold DiffHighlighter.compare; fold (startOf c) (startOf d).
    destruct (Z.leb_spec (startOf c - startOf d) 0).
    + constructor; [now constructor|].
      constructor; [lia|].
      eapply Forall_impl; [|exact Hall]; simpl; intros; lia.
    + constructor; [exact IH|].
      apply (Permutation_Forall
               (Permutation_sym (highlight_insert_permutation c l))).
      constructor; [lia | exact Hall].
Qed.

Lemma highlight_sort_ascending (l : list Change) :
  StronglySorted (fun a b => (startOf a <= startOf b)%Z)
                 (DiffHighlighter.sort l).
Proof.
  induction l as [|c l IH]; simpl; [constructor|].
  now apply highlight_insert_ascending.
Qed.

Lemma orElse_nil (a : jsstring) : DiffHighlighter.orElse a [] = a.
Proof. now destruct a. Qed.

Lemma orElse_nil_l (a : jsstring) : DiffHighlighter.orElse [] a = a.
Proof. reflexivity. Qed.

Lemma shownWithout_app (x : jsstring)
      (a b : list DiffHighlighter.Piece) :
  shownWithout x (a ++ b) = shownWithout x a ++ shownWithout x b.
Proof.
  unfold shownWithout; now rewrite filter_app, map_app, concat_app.
Qed.

Lemma shownWithout_cons (x : jsstring) (piece : DiffHighlighter.Piece)
      (rest : list DiffHighlighter.Piece) :
  shownWithout x (piece :: rest)
  = (if eqb (DiffHighlighter.type piece) x then []
     else DiffHighlighter.text piece)
    ++ shownWithout x rest.
Proof.
  unfold shownWithout; simpl.
  now destruct (eqb (DiffHighlighter.type piece) x).
Qed.

(** The unchanged text pushed before a change that starts at the end of
    [pending], when [shown] is what the loop has passed. *)
Lemma gap_piece (x shown pending tail : jsstring) :
  eqb DiffHighlighter.UNCHANGED x = false ->
  shownWithout x
    (if (len (shown ++ pending) >? len shown)%Z
     then [DiffHighlighter.mkPiece DiffHighlighter.UNCHANGED
             (slice (shown ++ pending ++ tail) (len shown)
                    (len (shown ++ pending)))
             None None]
     else [])
  = pending.
Proof.
  intros Hx; rewrite len_app.
  destruct (Z.gtb_spec (len shown + len pending) (len shown)) as [Hgt|Hle].
  - rewrite shownWithout_cons; simpl DiffHighlighter.type.
    rewrite Hx; simpl DiffHighlighter.text.
    rewrite slice_middle; unfold shownWithout; simpl.
    now rewrite app_nil_r.
  - assert (pending = []) as ->
      by (apply len_nil_iff; pose proof (len_nonneg pending); lia).
    reflexivity.
Qed.

Section Rendered.
Variable uuidv4 : nat -> jsstring.
Variable selectedChangeIds : StringSet.t.

Lemma renderFrom_cons (original : jsstring) (change : Change)
      (rest : list Change) (lastIndex : Z) :
  DiffHighlighter.renderFrom original selectedChangeIds (change :: rest)
                             lastIndex
  = (if (startOf change >? lastIndex)%Z
     then [DiffHighlighter.mkPiece DiffHighlighter.UNCHANGED
             (slice original lastIndex (startOf change)) None None]
     else [])
    ++ DiffHighlighter.pieceOf selectedChangeIds change
       :: DiffHighlighter.renderFrom original selectedChangeIds rest
            (endOf change).
Proof. reflexivity. Qed.

(** The pieces for the records of the loop.  [shown] is the text of the
    original that the loop has passed, [pending] the unchanged text after
    it that is not yet pushed; the records start at the end of
    [pending]. *)
Lemma render_collected (x : jsstring) (side : list Part.t -> jsstring) :
  eqb DiffHighlighter.UNCHANGED x = false ->
  side [] = [] ->
  (forall p rest,
      Part.added p = true ->
      (if eqb ADDITION x then [] else Part.value p) ++ side rest
      = side (p :: rest)) ->
  (forall p rest,
      Part.added p = false -> Part.removed p = true ->
      (if eqb DELETION x then [] else Part.value p) ++ side rest
      = side (p :: rest)) ->
  (forall p rest,
      Part.added p = false -> Part.removed p = false ->
      Part.value p ++ side rest = side (p :: rest)) ->
  forall (diff : list Part.t) (shown pending : jsstring) (n : nat),
    shownWithout x
      (DiffHighlighter.renderFrom
         (shown ++ pending ++ originalSide diff) selectedChangeIds
         (collected uuidv4 diff (len (shown ++ pending)) n) (len shown))
    = pending ++ side diff.
Proof.
  intros Hx Hnil Hadd Hdel Hcom.
  induction diff as [|p rest IH]; intros shown pending n.
  - unfold collected, originalSide; simpl.
    rewrite Hnil, !app_nil_r.
    destruct (Z.ltb_spec (len shown) (len (shown ++ pending))) as [Hlt|Hge].
    + rewrite shownWithout_cons; simpl DiffHighlighter.type.
      rewrite Hx; simpl DiffHighlighter.text.
      rewrite slice_from_suffix; unfold shownWithout; simpl.
      now rewrite app_nil_r.
    + rewrite len_app in Hge.
      assert (pending = []) as ->
        by (apply len_nil_iff; pose proof (len_nonneg pending); lia).
      reflexivity.
  - destruct (Part.added p) eqn:Ha; [| destruct (Part.removed p) eqn:Hr].
    + rewrite collect_added by assumption.
      rewrite <- (Hadd p rest Ha).
      assert (Ho : originalSide (p :: rest) = originalSide rest)
        by (unfold originalSide; simpl; now rewrite Ha).
      rewrite Ho, renderFrom_cons.
      unfold startOf, endOf, additionAt at 1 2 4; cbn [position start end_].
      rewrite shownWithout_app, gap_piece by exact Hx.
      rewrite shownWithout_cons.
      unfold DiffHighlighter.pieceOf at 1 2, additionAt at 1 2 3.
      cbn [DiffHighlighter.type DiffHighlighter.text type suggested
           DiffCalculator.original].
      rewrite orElse_nil.
      pose proof (IH (shown ++ pending) [] (S n)) as IHr.
      rewrite app_nil_r in IHr; simpl app in IHr.
      rewrite <- app_assoc in IHr; rewrite IHr.
      reflexivity.
    + rewrite collect_removed by assumption.
      rewrite <- (Hdel p rest Ha Hr).
      assert (Ho : originalSide (p :: rest)
                   = Part.value p ++ originalSide rest)
        by (unfold originalSide; simpl; now rewrite Ha).
      rewrite Ho, renderFrom_cons.
      unfold startOf, endOf, deletionAt at 1 2 4; cbn [position start end_].
      rewrite shownWithout_app, gap_piece by exact Hx.
      rewrite shownWithout_cons.
      unfold DiffHighlighter.pieceOf at 1 2, deletionAt at 1 2 3.
      cbn [DiffHighlighter.type DiffHighlighter.text type suggested
           DiffCalculator.original].
      rewrite orElse_nil_l.
      pose proof (IH (shown ++ pending ++ Part.value p) [] (S n)) as IHr.
      rewrite app_nil_r in IHr; simpl app in IHr.
      rewrite <- !app_assoc in IHr.
      rewrite (app_assoc shown pending (Part.value p)), len_app in IHr.
      rewrite IHr.
      reflexivity.
    + rewrite collect_common by assumption.
      rewrite <- (Hcom p rest Ha Hr).
      assert (Ho : originalSide (p :: rest)
                   = Part.value p ++ originalSide rest)
        by (unfold originalSide; simpl; now rewrite Ha).
      rewrite Ho.
      pose proof (IH shown (pending ++ Part.value p) n) as IHr.
      rewrite <- !app_assoc in IHr.
      rewrite (app_assoc shown pending (Part.value p)), len_app in IHr.
      exact IHr.
Qed.

Lemma strict_ascending (l : list Change) :
  StronglySorted (fun a b => (startOf a < startOf b)%Z) l ->
  StronglySorted (fun a b => (startOf a <= startOf b)%Z) l.
Proof.
  induction 1 as [|c l Hs IH Hall]; constructor; [exact IH|].
  eapply Forall_impl; [|exact Hall]; simpl; intros; lia.
Qed.

(** X12 - The highlighted text shows both texts.  For an exact edit
    script in normal form, the pieces that [renderHighlightedText] builds
    from the records of [calculateWordDiff] spell the original text when
    the pieces of type addition are left out, and the rewritten text when
    the pieces of type deletion are left out, whatever is selected. *)
Theorem highlight_shows_both_texts
        (diffWords : jsstring -> jsstring -> list Part.t)
        (content transformed : jsstring) (n : nat) :
  editScript content transformed (diffWords content transformed) ->
  let pieces :=
    DiffHighlighter.renderHighlightedText content selectedChangeIds
      (fst (calculateWordDiff diffWords uuidv4 content transformed n)) in
  shownWithout ADDITION pieces = content
  /\ shownWithout DELETION pieces = transformed.
Proof.
  intros (Ho & Ht & Hn) pieces; subst pieces.
  rewrite calculateWordDiff_normal by assumption.
  unfold DiffHighlighter.renderHighlightedText.
  rewrite highlight_sort_sorted
    by (apply strict_ascending; now apply collect_strict).
  split.
  - assert (R : forall diff,
               shownWithout ADDITION
                 (DiffHighlighter.renderFrom
                    ([] ++ [] ++ originalSide diff) selectedChangeIds
                    (collected uuidv4 diff (len ([] ++ [])) n) (len []))
               = [] ++ originalSide diff).
    { intros diff.
      apply (@render_collected ADDITION originalSide eq_refl eq_refl);
        intros p rest Ha; try intros Hr;
        unfold originalSide; simpl; rewrite ?Ha, ?Hr; reflexivity. }
    specialize (R (diffWords content transformed)).
    simpl app in R; change (len []) with 0%Z in R.
    now rewrite Ho in R.
  - assert (R : forall diff,
               shownWithout DELETION
                 (DiffHighlighter.renderFrom
                    ([] ++ [] ++ originalSide diff) selectedChangeIds
                    (collected uuidv4 diff (len ([] ++ [])) n) (len []))
               = [] ++ suggestedSide diff).
    { intros diff.
      apply (@render_collected DELETION suggestedSide eq_refl eq_refl);
        intros p rest Ha; try intros Hr;
        unfold suggestedSide; simpl; rewrite ?Ha, ?Hr; reflexivity. }
    specialize (R (diffWords content transformed)).
    simpl app in R; change (len []) with 0%Z in R.
    now rewrite Ho, Ht in R.
Qed.

(** X13 - Every record is shown once.  For any list of records, the
    pieces of [renderHighlightedText] that carry a change are the pieces
    of the records, one for each, in ascending order of their starts
    (records with equal starts in the order of the list), each flagged
    as selected exactly when its identifier is in the selection; every
    other piece is of type unchanged. *)
Theorem highlight_shows_each_change
        (original : jsstring) (changes : list Change) :
  let pieces :=
    DiffHighlighter.renderHighlightedText original selectedChangeIds
      changes in
  let sorted := DiffHighlighter.sort changes in
  Permutation sorted changes
  /\ StronglySorted (fun a b => (startOf a <= startOf b)%Z) sorted
  /\ filter (fun piece =>
               match DiffHighlighter.changeId piece with
               | Some _ => true
               | None => false
               end) pieces
     = map (fun c =>
              DiffHighlighter.mkPiece (type c)
                (DiffHighlighter.orElse (suggested c)
                                        (DiffCalculator.original c))
                (Some (id c))
                (Some (StringSet.has selectedChangeIds (id c))))
           sorted
  /\ Forall (fun piece =>
               match DiffHighlighter.changeId piece with
               | Some _ => True
               | None =>
                   DiffHighlighter.type piece = DiffHighlighter.UNCHANGED
               end)
            pieces.
Proof.
  intros pieces sorted; subst pieces sorted.
  split; [apply highlight_sort_permutation|].
  split; [apply highlight_sort_ascending|].
  unfold DiffHighlighter.renderHighlightedText.
  generalize 0%Z as lastIndex.
  induction (DiffHighlighter.sort changes) as [|c rest IH];
    intros lastIndex.
  - simpl; destruct (lastIndex <? len original)%Z; split;
      repeat constructor.
  - destruct (IH (endOf c)) as [IHf IHa].
    rewrite renderFrom_cons, filter_app; split.
    + destruct (startOf c >? lastIndex)%Z; simpl; now rewrite IHf.
    + apply Forall_app; split.
      * destruct (startOf c >? lastIndex)%Z; repeat constructor.
      * constructor; [exact I | exact IHa].
Qed.
End Rendered.
End HighlightProperties.

Lemma highlight_shows_both_texts_witness :
  let content := JS.str "We utilize state-of-the-art methodologies." in
  let transformed := JS.str "We use modern methodologies." in
  let pieces :=
    DiffHighlighter.renderHighlightedText content [JS.str "chg_ab2b8c"]
      (fst (DiffCalculator.calculateWordDiff DiffEngine.diffWords
              Properties.sampleUuid content transformed 0)) in
  MoreProperties.shownWithout DiffCalculator.ADDITION pieces = content
  /\ MoreProperties.shownWithout DiffCalculator.DELETION pieces
     = transformed.
Proof.
  apply (@highlight_shows_both_texts Properties.sampleUuid
           [JS.str "chg_ab2b8c"] DiffEngine.diffWords
           (JS.str "We utilize state-of-the-art methodologies.")
           (JS.str "We use modern methodologies.") 0).
  repeat split; vm_compute; reflexivity.
Defined.

(* ================================================================== *)
(** * Further properties: the validation of a request *)
(* ================================================================== *)

Section ValidationProperties.
Import JS SuggestionRules Properties MoreProperties.
Import Validation.
Variable ToString : value -> jsstring.

Lemma includes_recognized (v : value) :
  includes VALID_TYPES v = true
  <-> exists t, v = VString t /\ recognized t.
Proof.
  unfold includes, recognized, VALID_TYPES; split.
  - destruct v; try discriminate.
    intros H; eexists; split; [reflexivity|].
    now apply has_In.
  - intros (t & -> & Ht); now apply has_In.
Qed.

Lemma truthy_string (s : jsstring) :
  truthy (VString s) = true <-> s <> [].
Proof.
  simpl; rewrite negb_true_iff; apply eqb_neq.
Qed.

Lemma truthy_object (v : value) :
  truthy v && negb (eqb (typeof v) (str "object")) = false
  <-> (truthy v = true -> v = VObject).
Proof.
  destruct v as [| |b|x|s|]; simpl; try (split; [discriminate | reflexivity]);
    try (split; auto; fail).
  - destruct b; simpl; split; try discriminate; auto.
    intros H; discriminate (H eq_refl).
  - destruct (Qeq_bool x 0); simpl; split; try discriminate; auto.
    intros H; discriminate (H eq_refl).
  - destruct (eqb s []); simpl; split; try discriminate; auto.
    intros H; discriminate (H eq_refl).
Qed.

Lemma next_acceptable (body : Body) :
  validateRequest ToString body = Next -> acceptable body.
Proof.
  unfold validateRequest, acceptable.
  destruct body as [content type context];
    cbn [Validation.content Validation.type Validation.context].
  destruct (truthy content) eqn:Hc; cbn [negb]; [|discriminate].
  destruct content as [| |b|x|text|]; try discriminate.
  apply truthy_string in Hc.
  destruct (Z.gtb_spec (len text) MAX_CONTENT_LENGTH) as [|Hlen];
    [discriminate|].
  destruct (truthy type) eqn:Ht; cbn [negb]; [|discriminate].
  destruct (includes VALID_TYPES type) eqn:Hi; cbn [negb]; [|discriminate].
  destruct (truthy context && negb (eqb (typeof context) (str "object")))
    eqn:Hx; [discriminate|].
  intros _; split; [|split].
  - exists text; unfold MAX_CONTENT_LENGTH in Hlen; auto.
  - now apply includes_recognized.
  - now apply truthy_object.
Qed.

(** X14 - What the validation lets through.  [validateRequest] calls
    [next()] exactly when the content is a non-empty string of at most
    10000 characters, the type is one of the strings improve, grammar,
    simplify and expand, and the context is missing, falsy or an object;
    in every other case it answers itself. *)
Theorem validation_accepts (body : Body) :
  validateRequest ToString body = Next <-> acceptable body.
Proof.
  split; [apply next_acceptable|].
  unfold validateRequest, acceptable.
  destruct body as [content type context];
    cbn [Validation.content Validation.type Validation.context].
  intros ((text & -> & Hne & Hlen) & (t & -> & Ht) & Hx).
  apply truthy_string in Hne; rewrite Hne; cbn [negb].
  destruct (Z.gtb_spec (len text) MAX_CONTENT_LENGTH) as [Hgt|_];
    [unfold MAX_CONTENT_LENGTH in Hgt; lia|].
  assert (Hi : includes VALID_TYPES (VString t) = true)
    by (apply includes_recognized; eauto).
  assert (Htt : truthy (VString t) = true).
  { apply truthy_string; intros ->.
    destruct Ht as [H | [H | [H | [H | []]]]]; discriminate. }
  rewrite Htt, Hi; cbn [negb].
  apply truthy_object in Hx; now rewrite Hx.
Qed.

(** X15 - A validated request cannot fail in the service.  When
    [validateRequest] calls [next()], content and type of the body are
    strings, and [generateSuggestions] on them is fulfilled, for every
    diff, context and time, with a suggestion whose original is the
    content and whose model name is one of the four of the table, never
    "unknown". *)
Theorem validated_request_succeeds (body : Body) :
  validateRequest ToString body = Next ->
  exists text t,
    content body = VString text
    /\ type body = VString t
    /\ forall (diffWords : jsstring -> jsstring
                           -> list DiffCalculator.Part.t)
              (uuidv4 : nat -> jsstring) (now : jsstring)
              (ctx : SuggestionRules.context) (n : nat),
      exists s,
        SuggestionService.generateSuggestions diffWords uuidv4 now text t
          ctx n = Normal s
        /\ SuggestionService.original s = text
        /\ In (SuggestionService.model (SuggestionService.metadata s))
              (map SuggestionService.Name
                   [str "improvement-v1"; str "grammar-check-v1";
                    str "simplification-v1"; str "expansion-v1"]).
Proof.
  intros H; apply next_acceptable in H.
  destruct H as ((text & Hc & _) & (t & Ht & Hrec) & _).
  exists text, t; repeat split; auto.
  intros diffWords uuidv4 now ctx n.
  unfold SuggestionService.generateSuggestions.
  destruct (proj1 (selectRules_recognized t) Hrec) as [rules ->].
  destruct (DiffCalculator.calculateWordDiff diffWords uuidv4 text _ n)
    as [changes n1].
  eexists; split; [reflexivity|]; split; [reflexivity|].
  destruct Hrec as [<- | [<- | [<- | [<- | []]]]]; simpl; auto.
Qed.

End ValidationProperties.

Lemma validated_request_succeeds_witness :
  exists text t,
    Validation.content
      (Validation.mkBody (Validation.VString (JS.str "Our app is good."))
         (Validation.VString (JS.str "improve")) Validation.VUndefined)
    = Validation.VString text
    /\ Validation.type
         (Validation.mkBody
            (Validation.VString (JS.str "Our app is good."))
            (Validation.VString (JS.str "improve")) Validation.VUndefined)
       = Validation.VString t
    /\ forall (diffWords : JS.jsstring -> JS.jsstring
                           -> list DiffCalculator.Part.t)
              (uuidv4 : nat -> JS.jsstring) (now : JS.jsstring)
              (ctx : SuggestionRules.context) (n : nat),
      exists s,
        SuggestionService.generateSuggestions diffWords uuidv4 now text t
          ctx n = JS.Normal s
        /\ SuggestionService.original s = text
        /\ In (SuggestionService.model (SuggestionService.metadata s))
              (map SuggestionService.Name
                   [JS.str "improvement-v1"; JS.str "grammar-check-v1";
                    JS.str "simplification-v1"; JS.str "expansion-v1"]).
Proof.
  apply (@validated_request_succeeds (fun _ => JS.str "undefined")
           (Validation.mkBody
              (Validation.VString (JS.str "Our app is good."))
              (Validation.VString (JS.str "improve"))
              Validation.VUndefined)).
  reflexivity.
Defined.


(* ================================================================== *)
(** * Further properties: the service *)
(* ================================================================== *)

Section MoreServiceProperties.
Import JS DiffCalculator SuggestionRules Properties MoreProperties.
Import SuggestionService.

(** X17 - One list of types.  The four places that know the suggestion
    types agree on the four types: a string is accepted by the check
    [VALID_TYPES.includes] of the validation exactly when [selectRules]
    returns a rule set for it, [getRulesByType] then returns the same
    rule set, and [getModelName] returns one of the four names of its
    table exactly for these strings.  For any other string
    [getModelName] does not fail as the other two do: it returns
    "unknown", except for the names of the properties that its table
    inherits from [Object.prototype], such as "constructor", where it
    returns the inherited function or object. *)
Theorem types_agree (type : jsstring) :
  (Validation.includes Validation.VALID_TYPES (Validation.VString type)
   = true
   <-> exists rules, selectRules type = Normal rules)
  /\ (forall rules,
         selectRules type = Normal rules
         <-> getRulesByType type = Normal rules)
  /\ (In (getModelName type)
         (map Name [str "improvement-v1"; str "grammar-check-v1";
                    str "simplification-v1"; str "expansion-v1"])
      <-> exists rules, selectRules type = Normal rules)
  /\ ((forall rules, selectRules type <> Normal rules) ->
      getModelName type
      = if existsb (eqb type) objectPrototypeKeys
        then Inherited type
        else Name (str "unknown")).
Proof.
  split; [|split; [|split]].
  - rewrite <- selectRules_recognized.
    rewrite includes_recognized; split.
    + intros (t & [= <-] & Ht); exact Ht.
    + intros Ht; eauto.
  - intros rules; unfold selectRules, getRulesByType.
    repeat match goal with
           | |- context [if ?b then _ else _] => destruct b
           end; split; intros H; try exact H; discriminate.
  - unfold getModelName, selectRules.
    destruct (eqb type (str "improve")); [simpl; split; eauto|].
    destruct (eqb type (str "grammar")); [simpl; split; eauto|].
    destruct (eqb type (str "simplify")); [simpl; split; eauto|].
    destruct (eqb type (str "expand")); [simpl; split; eauto 6|].
    split.
    + destruct (existsb (eqb type) objectPrototypeKeys); simpl;
        intros [H | [H | [H | [H | []]]]]; discriminate.
    + intros [rules H]; discriminate.
  - unfold getModelName, selectRules; intros H.
    destruct (eqb type (str "improve")); [now contradiction (H improvementRules)|].
    destruct (eqb type (str "grammar")); [now contradiction (H grammarRules)|].
    destruct (eqb type (str "simplify"));
      [now contradiction (H simplificationRules)|].
    destruct (eqb type (str "expand")); [now contradiction (H expansionRules)|].
    reflexivity.
Qed.

Lemma hundredths_le (a b : Z) :
  (a <= b)%Z -> inject_Z a / 100 <= inject_Z b / 100.
Proof.
  intros H; rewrite Zle_Qle in H.
  unfold Qdiv; apply Qmult_le_compat_r; [exact H | discriminate].
Qed.

Lemma largeChanges_cons (c : Change) (changes : list Change) :
  (largeChanges changes <= largeChanges (c :: changes))%nat.
Proof.
  unfold largeChanges; simpl.
  destruct (Z.max _ _ >? 20)%Z; simpl; lia.
Qed.

(** With a record the score is at most 0.93. *)
Lemma confidence_with_change (c : Change) (changes : list Change) :
  calculateConfidence (c :: changes) <= 0.93.
Proof.
  rewrite (@confidence_hundredths (c :: changes)) by discriminate.
  pose proof (Nat2Z.is_nonneg (largeChanges (c :: changes))).
  pose proof (Nat2Z.is_nonneg (List.length changes)).
  setoid_replace 0.93 with (inject_Z 93 / 100) by reflexivity.
  apply hundredths_le; simpl List.length; lia.
Qed.

(** X18 - More changes, less confidence.  Adding a record to a list
    never raises the score of [calculateConfidence]; the score is 1 only
    for the empty list and at most 0.93 otherwise; from 23 records on it
    is 0.5, the least score there is. *)
Theorem confidence_decreases (c : Change) (changes : list Change) :
  calculateConfidence (c :: changes) <= calculateConfidence changes
  /\ calculateConfidence (c :: changes) <= 0.93
  /\ 0.5 <= calculateConfidence (c :: changes)
  /\ ((22 <= List.length changes)%nat ->
      calculateConfidence (c :: changes) == 0.5).
Proof.
  assert (Hne : c :: changes <> []) by discriminate.
  pose proof (confidence_hundredths Hne) as Hc.
  pose proof (largeChanges_cons c changes) as Hk.
  pose proof (Nat2Z.is_nonneg (largeChanges (c :: changes))) as Hk0.
  pose proof (Nat2Z.is_nonneg (largeChanges changes)) as Hk1.
  pose proof (Nat2Z.is_nonneg (List.length changes)) as Hn0.
  assert (Hlen : Z.of_nat (List.length (c :: changes))
                 = (Z.of_nat (List.length changes) + 1)%Z)
    by (simpl List.length; lia).
  rewrite Hlen in Hc.
  split; [|split; [|split]].
  - rewrite Hc.
    destruct changes as [|d rest].
    + change (calculateConfidence []) with 1.0.
      setoid_replace 1.0 with (inject_Z 100 / 100) by reflexivity.
      apply hundredths_le; lia.
    + rewrite (@confidence_hundredths (d :: rest)) by discriminate.
      apply hundredths_le; lia.
  - rewrite Hc.
    setoid_replace 0.93 with (inject_Z 93 / 100) by reflexivity.
    apply hundredths_le; lia.
  - rewrite Hc.
    setoid_replace 0.5 with (inject_Z 50 / 100) by reflexivity.
    apply hundredths_le; lia.
  - intros Hmany; rewrite Hc.
    replace (Z.max 50 _) with 50%Z by lia.
    reflexivity.
Qed.

(** X19 - Full confidence means no change.  When the parts of
    [diffWords] spell the content and the rewritten text, a suggestion of
    [generateSuggestions] has confidence 1 exactly when it has no change
    record, and then its suggested text is its original text. *)
Theorem full_confidence_means_unchanged
        (diffWords : jsstring -> jsstring -> list Part.t)
        (uuidv4 : nat -> jsstring) (now content type : jsstring)
        (ctx : context) (n : nat) (rules : list RuleSpec) :
  selectRules type = Normal rules ->
  originalSide (diffWords content (applyRules content rules ctx))
  = content ->
  suggestedSide (diffWords content (applyRules content rules ctx))
  = applyRules content rules ctx ->
  exists s,
    generateSuggestions diffWords uuidv4 now content type ctx n = Normal s
    /\ (confidence (metadata s) == 1 <-> changes s = [])
    /\ (confidence (metadata s) == 1 ->
        suggested s = SuggestionService.original s).
Proof.
  intros Hrules Ho Ht.
  unfold generateSuggestions; rewrite Hrules.
  pose proof (@diff_nonempty diffWords uuidv4 content
                (applyRules content rules ctx) n Ho Ht) as Hd.
  destruct (calculateWordDiff diffWords uuidv4 content
              (applyRules content rules ctx) n) as [cs n1].
  eexists; split; [reflexivity|]; simpl in *.
  assert (Hiff : calculateConfidence cs == 1 <-> cs = []).
  { split; [|intros ->; reflexivity].
    destruct cs as [|c rest]; [reflexivity|].
    pose proof (confidence_with_change c rest) as Hle.
    intros H1; rewrite H1 in Hle.
    exfalso; revert Hle; apply Qlt_not_le; reflexivity. }
  split; [exact Hiff|].
  intros H1; apply Hiff in H1.
  destruct (list_eq_dec ascii_dec content (applyRules content rules ctx))
    as [Heq | Hne]; [now symmetry|].
  exfalso; now apply (Hd Hne).
Qed.
End MoreServiceProperties.

Lemma types_agree_witness :
  SuggestionService.getModelName (JS.str "constructor")
  = SuggestionService.Inherited (JS.str "constructor")
  /\ SuggestionService.getModelName (JS.str "translate")
     = SuggestionService.Name (JS.str "unknown").
Proof.
  split.
  - apply (@types_agree (JS.str "constructor")); intros rules; discriminate.
  - apply (@types_agree (JS.str "translate")); intros rules; discriminate.
Defined.

Lemma confidence_decreases_witness :
  SuggestionService.calculateConfidence
    (repeat (DiffCalculator.mkChange (JS.str "chg_0a1b2c3d")
               DiffCalculator.DELETION (DiffCalculator.mkPosition 0 1)
               (JS.str "a") [] (JS.str "Simplifies phrasing")) 23)
  == 0.5.
Proof.
  apply (@confidence_decreases
           (DiffCalculator.mkChange (JS.str "chg_0a1b2c3d")
              DiffCalculator.DELETION (DiffCalculator.mkPosition 0 1)
              (JS.str "a") [] (JS.str "Simplifies phrasing"))
           (repeat (DiffCalculator.mkChange (JS.str "chg_0a1b2c3d")
                      DiffCalculator.DELETION
                      (DiffCalculator.mkPosition 0 1)
                      (JS.str "a") [] (JS.str "Simplifies phrasing")) 22)).
  simpl; lia.
Defined.

Lemma full_confidence_means_unchanged_witness :
  exists s,
    SuggestionService.generateSuggestions DiffEngine.diffWords
      Properties.sampleUuid Properties.sampleNow
      (JS.str "The sky is blue.") (JS.str "grammar") [] 0 = JS.Normal s
    /\ (SuggestionService.confidence (SuggestionService.metadata s) == 1
        <-> SuggestionService.changes s = [])
    /\ (SuggestionService.confidence (SuggestionService.metadata s) == 1 ->
        SuggestionService.suggested s = SuggestionService.original s).
Proof.
  apply (@full_confidence_means_unchanged DiffEngine.diffWords
           Properties.sampleUuid Properties.sampleNow
           (JS.str "The sky is blue.") (JS.str "grammar") [] 0
           SuggestionRules.grammarRules).
  - reflexivity.
  - vm_compute; reflexivity.
  - vm_compute; reflexivity.
Defined.

(* ================================================================== *)
(** * Further properties: the reasons that are shown *)
(* ================================================================== *)

Section ReasonsShown.
Import JS RegExp DiffCalculator Properties MoreProperties.
Variable uuidv4 : nat -> jsstring.

Lemma reason_in_labels (type original suggested : jsstring) :
  In (getReasonForChange type original suggested) reasonLabels.
Proof.
  unfold getReasonForChange, getGrammarReason, reasonLabels.
  repeat match goal with
         | |- In (if ?c then _ else _) _ => destruct c
         end;
    repeat (first [left; reflexivity | right]).
Qed.

Lemma reason_of_addition (original suggested : jsstring) :
  In (getReasonForChange ADDITION original suggested)
     [str "Adds descriptive emphasis"; str "Adds additional context"].
Proof.
  unfold getReasonForChange; rewrite eqb_refl.
  destruct (test false (toLowerCase suggested) emphasisWords);
    simpl; auto.
Qed.

Lemma reason_of_deletion (original suggested : jsstring) :
  In (getReasonForChange DELETION original suggested)
     [str "Removes unnecessary modifier"; str "Simplifies phrasing"].
Proof.
  unfold getReasonForChange.
  change (eqb DELETION ADDITION) with false; rewrite eqb_refl.
  destruct (test false (toLowerCase original) fillerWords);
    simpl; auto.
Qed.

Lemma collect_reason_labels (diff : list Part.t) : forall position n,
  Forall (fun c =>
            In (reason c)
               [str "Adds descriptive emphasis";
                str "Adds additional context";
                str "Removes unnecessary modifier";
                str "Simplifies phrasing"])
         (collected uuidv4 diff position n).
Proof.
  induction diff as [|p rest IH]; intros position n; [constructor|].
  destruct (Part.added p) eqn:Ha; [| destruct (Part.removed p) eqn:Hr].
  - rewrite collect_added by assumption.
    constructor; [|apply IH].
    unfold additionAt; cbn [reason].
    destruct (reason_of_addition [] (Part.value p)) as [<- | [<- | []]];
      simpl; auto.
  - rewrite collect_removed by assumption.
    constructor; [|apply IH].
    unfold deletionAt; cbn [reason].
    destruct (reason_of_deletion (Part.value p) []) as [<- | [<- | []]];
      simpl; auto.
  - rewrite collect_common by assumption; apply IH.
Qed.

(** X20 - The reasons a user can see.  The reason of every record that
    [calculateWordDiff] returns is one of the thirteen texts of
    [getReasonForChange], for any diff.  For a diff in normal form it is
    one of the four texts for additions and deletions: the reasons for
    grammar, word choice and length are never given. *)
Theorem reasons_shown
        (diffWords : jsstring -> jsstring -> list Part.t)
        (content transformed : jsstring) (n : nat) :
  let changes :=
    fst (calculateWordDiff diffWords uuidv4 content transformed n) in
  Forall (fun c => In (reason c) reasonLabels) changes
  /\ (normal (diffWords content transformed) = true ->
      Forall (fun c =>
                In (reason c)
                   [str "Adds descriptive emphasis";
                    str "Adds additional context";
                    str "Removes unnecessary modifier";
                    str "Simplifies phrasing"])
             changes).
Proof.
  intros changes; subst changes; split.
  - unfold calculateWordDiff.
    pose proof (collect_reasons uuidv4 (diffWords content transformed) 0 n)
      as Hr.
    unfold collected in Hr.
    destruct (collect uuidv4 (diffWords content transformed) 0 n)
      as [raw n1]; simpl in Hr.
    apply merge_Forall_built.
    + intros c d k _ _; cbn [reason]; apply reason_in_labels.
    + eapply Forall_impl; [|exact Hr].
      intros c [_ ->]; apply reason_in_labels.
  - intros Hn; rewrite calculateWordDiff_normal by assumption.
    apply collect_reason_labels.
Qed.
End ReasonsShown.

Lemma reasons_shown_witness :
  Forall (fun c =>
            In (DiffCalculator.reason c)
               [JS.str "Adds descriptive emphasis";
                JS.str "Adds additional context";
                JS.str "Removes unnecessary modifier";
                JS.str "Simplifies phrasing"])
         (fst (DiffCalculator.calculateWordDiff DiffEngine.diffWords
                 Properties.sampleUuid
                 (JS.str "The team are working on it.")
                 (JS.str "The team is working on it.") 0)).
Proof.
  apply (@reasons_shown Properties.sampleUuid DiffEngine.diffWords
           (JS.str "The team are working on it.")
           (JS.str "The team is working on it.") 0).
  vm_compute; reflexivity.
Defined.

(* ================================================================== *)
(** * Further properties: what the rules leave alone *)
(* ================================================================== *)

Section LetterlessText.
Import JS RegExp SuggestionRules Properties MoreProperties.

Lemma allChars_complete (P : ascii -> bool) :
  forallb P allChars = true -> forall c, P c = true.
Proof.
  intros H c; rewrite forallb_forall in H; apply H.
  unfold allChars; rewrite <- (ascii_nat_embedding c).
  apply in_map, in_seq; pose proof (nat_ascii_bounded c); lia.
Qed.

Lemma letters_table (c ch : ascii) :
  implb (isLetter c
         && (Ascii.eqb (canonicalize c) (canonicalize ch)
             || Ascii.eqb c ch))
        (isLetter ch) = true.
Proof.
  revert ch.
  apply (allChars_complete
           (fun ch =>
              implb (isLetter c
                     && (Ascii.eqb (canonicalize c) (canonicalize ch)
                         || Ascii.eqb c ch))
                    (isLetter ch))).
  revert c.
  apply (allChars_complete
           (fun c =>
              forallb
                (fun ch =>
                   implb (isLetter c
                          && (Ascii.eqb (canonicalize c) (canonicalize ch)
                              || Ascii.eqb c ch))
                         (isLetter ch)) allChars)).
  vm_compute; reflexivity.
Qed.

(** A letter of an expression matches letters only, with or without the
    [i] flag. *)
Lemma same_letter (ignoreCase : bool) (c ch : ascii) :
  isLetter c = true -> same ignoreCase c ch = true -> isLetter ch = true.
Proof.
  intros Hc Hs.
  pose proof (letters_table c ch) as H.
  rewrite Hc in H; simpl in H.
  unfold same in Hs; destruct ignoreCase; rewrite Hs in H;
    rewrite ?orb_true_r in H; exact H.
Qed.

Section OnInput.
Variable ignoreCase : bool.
Variable input : jsstring.
Hypothesis Hinput : letterless input = true.

Lemma charAt_letterless (i : nat) (ch : ascii) :
  charAt input i = Some ch -> isLetter ch = false.
Proof.
  unfold charAt; intros H; apply nth_error_In in H.
  unfold letterless in Hinput; rewrite forallb_forall in Hinput.
  now apply negb_true_iff, Hinput.
Qed.

Lemma m_star (r : regex) (i : nat) (cap : capture)
      (k : nat -> capture -> option state) :
  m ignoreCase input (Star r) i cap k
  = starLoop (m ignoreCase input r) k (S (List.length input)) i cap.
Proof. reflexivity. Qed.

(** A match whose continuation always fails, fails. *)
Lemma m_fails (r : regex) : forall i cap k,
  (forall j c, k j c = None) -> m ignoreCase input r i cap k = None.
Proof.
  induction r as [|c|negated items|r1 IH1 r2 IH2|r1 IH1 r2 IH2|r IH|r IH
                  | |r IH|r IH];
    intros i cap k Hk.
  - apply Hk.
  - cbn [m]; destruct (charAt input i); [|reflexivity].
    destruct (same ignoreCase c a); [apply Hk | reflexivity].
  - cbn [m]; destruct (charAt input i); [|reflexivity].
    destruct (xorb negated _); [apply Hk | reflexivity].
  - cbn [m]; apply IH1; intros j c; now apply IH2.
  - cbn [m]; rewrite IH1, IH2 by exact Hk; reflexivity.
  - rewrite m_star.
    generalize (S (List.length input)) as fuel; intros fuel; revert i cap.
    induction fuel as [|f IHf]; intros i cap; cbn [starLoop].
    + apply Hk.
    + rewrite IH; [apply Hk|].
      intros j c; destruct (i <? j)%nat; [apply IHf | reflexivity].
  - cbn [m]; apply IH; intros j c; apply Hk.
  - cbn [m]; destruct (atBoundary input i); [apply Hk | reflexivity].
  - cbn [m].
    destruct (m ignoreCase input r i cap _); [reflexivity | apply Hk].
  - cbn [m]; destruct (existsb _ _); [reflexivity | apply Hk].
Qed.

(** An expression that needs a letter matches nowhere in a text without
    letters. *)
Lemma m_needs_letter (r : regex) : forall i cap k,
  needsLetter r = true -> m ignoreCase input r i cap k = None.
Proof.
  induction r as [|c|negated items|r1 IH1 r2 IH2|r1 IH1 r2 IH2|r IH|r IH
                  | |r IH|r IH];
    intros i cap k Hr; cbn [needsLetter] in Hr; try discriminate;
    cbn [m].
  - destruct (charAt input i) as [ch|] eqn:Hch; [|reflexivity].
    destruct (same ignoreCase c ch) eqn:Hs; [|reflexivity].
    apply charAt_letterless in Hch.
    apply (same_letter _ _ _ Hr) in Hs; congruence.
  - apply orb_true_iff in Hr as [H1 | H2]; [now apply IH1|].
    apply m_fails; intros j c; now apply IH2.
  - apply andb_true_iff in Hr as [H1 H2].
    now rewrite IH1, IH2.
  - now apply IH.
Qed.

Lemma exec_needs_letter (r : regex) (lastIndex : nat) :
  needsLetter r = true -> exec ignoreCase input r lastIndex = None.
Proof.
  intros Hr; unfold exec.
  destruct (lastIndex <=? List.length input)%nat; [|reflexivity].
  generalize (List.length input - lastIndex)%nat as fuel.
  intros fuel; revert lastIndex.
  induction fuel as [|f IH]; intros from; cbn [searchFrom];
    rewrite m_needs_letter by exact Hr; [reflexivity | apply IH].
Qed.

Lemma test_needs_letter (r : regex) :
  needsLetter r = true -> test ignoreCase input r = false.
Proof. intros Hr; unfold test; now rewrite exec_needs_letter. Qed.

Lemma replaceAll_needs_letter (r : regex) (template : list piece) :
  needsLetter r = true -> replaceAll ignoreCase input r template = input.
Proof.
  intros Hr; unfold replaceAll; cbn [replaceLoop].
  now rewrite exec_needs_letter.
Qed.

Lemma replaceFirst_needs_letter (r : regex) (template : list piece) :
  needsLetter r = true -> replaceFirst ignoreCase input r template = input.
Proof.
  intros Hr; unfold replaceFirst; now rewrite exec_needs_letter.
Qed.
End OnInput.

Section OnText.
Variable text : jsstring.
Hypothesis Htext : letterless text = true.

Lemma replace_gi_letterless (r : regex) (replacement : string) :
  needsLetter r = true -> replace_gi r replacement text = text.
Proof.
  intros Hr; unfold replace_gi; now apply replaceAll_needs_letter.
Qed.

Lemma replace_g_letterless (w replacement : string) :
  needsLetter (whole w) = true -> replace_g w replacement text = text.
Proof.
  intros Hr; unfold replace_g; now apply replaceAll_needs_letter.
Qed.

Lemma dropModifier_letterless (w : string) :
  needsLetter (seqs [Boundary; lit w; spaces1]) = true ->
  dropModifier w text = text.
Proof.
  intros Hr; unfold dropModifier; now apply replace_gi_letterless.
Qed.

Lemma replaceEntries_letterless (pattern : string -> regex)
      (table : list (string * string)) :
  forallb (fun entry => needsLetter (pattern (fst entry))) table = true ->
  replaceEntries pattern table text = text.
Proof.
  unfold replaceEntries.
  induction table as [|entry table IH]; intros H; [reflexivity|].
  simpl in H; apply andb_true_iff in H as [He Ht].
  cbn [fold_left]; rewrite replace_gi_letterless by exact He.
  now apply IH.
Qed.

Lemma applyRules_fixed (rules : list RuleSpec) (ctx : context) :
  Forall (fun rule => apply rule text ctx = text) rules ->
  SuggestionService.applyRules text rules ctx = text.
Proof.
  unfold SuggestionService.applyRules.
  induction 1 as [|rule rules Hrule Hrules IH]; [reflexivity|].
  cbn [fold_left].
  replace (match condition rule with
           | Some holds =>
               if negb (holds text ctx) then text else apply rule text ctx
           | None => apply rule text ctx
           end) with text; [exact IH|].
  destruct (condition rule) as [holds|]; [|now rewrite Hrule].
  destruct (negb (holds text ctx)); [reflexivity | now rewrite Hrule].
Qed.

Ltac leave_alone :=
  repeat first
    [ rewrite replace_gi_letterless by reflexivity
    | rewrite replace_g_letterless by reflexivity
    | rewrite dropModifier_letterless by reflexivity
    | rewrite replaceEntries_letterless by reflexivity
    | rewrite (@replaceAll_needs_letter true text Htext) by reflexivity
    | rewrite (@replaceFirst_needs_letter true text Htext) by reflexivity
    | rewrite (@test_needs_letter true text Htext) by reflexivity ];
  try reflexivity.

Lemma rules_leave_alone (type : jsstring) (rules : list RuleSpec)
      (ctx : context) :
  SuggestionService.selectRules type = Normal rules ->
  Forall (fun rule => apply rule text ctx = text) rules.
Proof.
  unfold SuggestionService.selectRules.
  destruct (eqb type (str "improve"));
    [|destruct (eqb type (str "grammar"));
      [|destruct (eqb type (str "simplify"));
        [|destruct (eqb type (str "expand")); [|discriminate]]]];
    intros [= <-].
  - unfold improvementRules; repeat constructor; cbn [apply]; leave_alone.
  - unfold grammarRules; repeat constructor; cbn [apply]; leave_alone.
  - unfold simplificationRules; repeat constructor; cbn [apply];
      leave_alone.
  - unfold expansionRules; repeat constructor; cbn [apply]; leave_alone.
Qed.

(** X21 - What the rules leave alone.  A content without any letter of
    [A-Za-z] is changed by no rule of the four rule sets, whatever the
    context: for every recognized type [generateSuggestions] is fulfilled
    with a suggestion whose suggested text is the content itself. *)
Theorem letterless_text_unchanged
        (diffWords : jsstring -> jsstring -> list DiffCalculator.Part.t)
        (uuidv4 : nat -> jsstring) (now type : jsstring)
        (ctx : context) (n : nat) :
  recognized type ->
  exists s,
    SuggestionService.generateSuggestions diffWords uuidv4 now text type
      ctx n = Normal s
    /\ SuggestionService.original s = text
    /\ SuggestionService.suggested s = text.
Proof.
  intros Hrec.
  destruct (proj1 (selectRules_recognized type) Hrec) as [rules Hrules].
  unfold SuggestionService.generateSuggestions; rewrite Hrules.
  rewrite (@applyRules_fixed rules ctx
             (@rules_leave_alone type rules ctx Hrules)).
  destruct (DiffCalculator.calculateWordDiff diffWords uuidv4 text text n)
    as [changes n1].
  eexists; repeat split.
Qed.
End OnText.
End LetterlessText.

Lemma letterless_text_unchanged_witness :
  exists s,
    SuggestionService.generateSuggestions DiffEngine.diffWords
      Properties.sampleUuid Properties.sampleNow
      (JS.str "12:30 - 14:00 (+2)") (JS.str "grammar") [] 0 = JS.Normal s
    /\ SuggestionService.original s = JS.str "12:30 - 14:00 (+2)"
    /\ SuggestionService.suggested s = JS.str "12:30 - 14:00 (+2)".
Proof.
  apply (@letterless_text_unchanged (JS.str "12:30 - 14:00 (+2)")
           eq_refl DiffEngine.diffWords Properties.sampleUuid
           Properties.sampleNow (JS.str "grammar") [] 0).
  unfold Properties.recognized; simpl; auto.
Defined.

(* ================================================================== *)
(** * Further properties: letter case and the score shown *)
(* ================================================================== *)

Section CaseAndScore.
Import JS DiffCalculator SuggestionRules Properties MoreProperties.

(** X22 - What the reason depends on.  [getReasonForChange] looks at the
    two texts only through their lower-case forms and their lengths: two
    changes of the same type whose original texts have the same
    lower-case form and the same length, and whose suggested texts have,
    get the same reason, whatever the case of their letters.  The lengths
    are part of the condition: lower-casing keeps the length of a text
    of code units below 256, as here, but not of every text. *)
Theorem reason_ignores_case (type original suggested original'
                             suggested' : jsstring) :
  toLowerCase original = toLowerCase original' ->
  toLowerCase suggested = toLowerCase suggested' ->
  len original = len original' ->
  len suggested = len suggested' ->
  getReasonForChange type original suggested
  = getReasonForChange type original' suggested'.
Proof.
  intros Ho Hs Hlo Hls; unfold getReasonForChange.
  now rewrite Ho, Hs, Hlo, Hls.
Qed.

(** For the texts of this development, of code units below 256, the two
    conditions on the lengths follow from the other two. *)
Remark lower_case_keeps_length (s : jsstring) :
  len (toLowerCase s) = len s.
Proof. unfold len, toLowerCase; now rewrite length_map. Qed.

(** X23 - The score that the panel shows.  For a suggestion of
    [generateSuggestions] the panel shows a whole number of per cent
    between 50 and 100, and this number is the confidence of the
    suggestion exactly: the rounding of the panel loses nothing. *)
Theorem panel_shows_confidence
        (diffWords : jsstring -> jsstring -> list Part.t)
        (uuidv4 : nat -> jsstring) (now content type : jsstring)
        (ctx : context) (n : nat) :
  recognized type ->
  exists s percent,
    SuggestionService.generateSuggestions diffWords uuidv4 now content
      type ctx n = Normal s
    /\ SuggestionPanel.confidencePercent s = inject_Z percent
    /\ (50 <= percent <= 100)%Z
    /\ SuggestionService.confidence (SuggestionService.metadata s)
       == inject_Z percent / 100.
Proof.
  intros Hrec.
  destruct (proj1 (selectRules_recognized type) Hrec) as [rules Hrules].
  unfold SuggestionService.generateSuggestions; rewrite Hrules.
  destruct (calculateWordDiff diffWords uuidv4 content _ n)
    as [changes n1].
  assert (H : exists percent,
             (50 <= percent <= 100)%Z
             /\ SuggestionService.calculateConfidence changes
                == inject_Z percent / 100).
  { destruct changes as [|c rest].
    - exists 100%Z; split; [lia | reflexivity].
    - eexists; split; [|apply confidence_hundredths; discriminate].
      pose proof (Nat2Z.is_nonneg (List.length (c :: rest))).
      pose proof (Nat2Z.is_nonneg (largeChanges (c :: rest))).
      lia. }
  destruct H as (percent & Hrange & Hscore).
  eexists; exists percent; split; [reflexivity|].
  unfold SuggestionPanel.confidencePercent; simpl.
  split; [|split; [exact Hrange | exact Hscore]].
  apply round_integer; rewrite Hscore; field.
Qed.
End CaseAndScore.

Lemma reason_ignores_case_witness :
  DiffCalculator.getReasonForChange DiffCalculator.MODIFICATION
    (JS.str "Utilize") (JS.str "use")
  = DiffCalculator.getReasonForChange DiffCalculator.MODIFICATION
      (JS.str "UTILIZE") (JS.str "Use").
Proof.
  apply (@reason_ignores_case DiffCalculator.MODIFICATION
           (JS.str "Utilize") (JS.str "use")
           (JS.str "UTILIZE") (JS.str "Use")).
  - reflexivity.
  - reflexivity.
  - reflexivity.
  - reflexivity.
Defined.

Lemma panel_shows_confidence_witness :
  exists s percent,
    SuggestionService.generateSuggestions DiffEngine.diffWords
      Properties.sampleUuid Properties.sampleNow
      (JS.str "Our app is good.") (JS.str "improve") [] 0 = JS.Normal s
    /\ SuggestionPanel.confidencePercent s = inject_Z percent
    /\ (50 <= percent <= 100)%Z
    /\ SuggestionService.confidence (SuggestionService.metadata s)
       == inject_Z percent / 100.
Proof.
  apply (@panel_shows_confidence DiffEngine.diffWords
           Properties.sampleUuid Properties.sampleNow
           (JS.str "Our app is good.") (JS.str "improve") [] 0).
  unfold Properties.recognized; simpl; auto.
Defined.

(* ================================================================== *)
(** * Further properties: the buttons of the panel *)
(* ================================================================== *)

Section PanelButtons.
Import JS DiffCalculator EditorHandlers SuggestionPanel.

Lemma fold_add_grows (array : list jsstring) : forall set : StringSet.t,
  (List.length set <= List.length (fold_left StringSet.add array set))%nat.
Proof.
  induction array as [|y rest IH]; intros set; simpl; [lia|].
  etransitivity; [|apply IH].
  unfold StringSet.add; destruct (StringSet.has set y);
    [|rewrite length_app]; simpl; lia.
Qed.

(** X24 - When Apply Changes can be pressed.  The panel enables Apply
    Changes when the selection is not empty and Accept All when the
    suggestion has a change.  After [handleAcceptAll] on a shown
    suggestion Apply Changes is enabled exactly when Accept All was;
    after [handleAcceptChange] it is enabled; after [handleRejectAll],
    [handleClearSuggestions], a new suggestion or an application it is
    not. *)
Theorem apply_button (st : State) (s : SuggestionService.Suggestion)
        (x : jsstring) :
  hasSelectedChanges
    (selectedChangeIds (handleAcceptAll (mkState (Some s)
                                                 (selectedChangeIds st))))
  = hasChanges (Some s)
  /\ hasSelectedChanges (selectedChangeIds (handleAcceptChange x st))
     = true
  /\ hasSelectedChanges (selectedChangeIds (handleRejectAll st)) = false
  /\ hasSelectedChanges (selectedChangeIds (handleClearSuggestions st))
     = false
  /\ hasSelectedChanges (selectedChangeIds (receiveSuggestion s st))
     = false
  /\ hasSelectedChanges
       (selectedChangeIds
          (fst (handleApplyChanges true
                  (mkState (Some s) (selectedChangeIds st)))))
     = false.
Proof.
  repeat split.
  - unfold handleAcceptAll, hasSelectedChanges, hasChanges; simpl.
    unfold StringSet.size, StringSet.fromArray.
    destruct (SuggestionService.changes s) as [|c rest]; [reflexivity|].
    cbn [map fold_left].
    pose proof (fold_add_grows (map id rest) (StringSet.add [] (id c)))
      as H.
    change (List.length (StringSet.add [] (id c))) with 1%nat in H.
    set (size := List.length _) in *.
    destruct (Z.gtb_spec (Z.of_nat size) 0);
      destruct (Z.gtb_spec (Z.of_nat (List.length (c :: rest))) 0);
      try reflexivity; simpl List.length in *; lia.
  - destruct st as [shown selected].
    unfold handleAcceptChange, hasSelectedChanges, StringSet.size; simpl.
    unfold StringSet.add.
    destruct (StringSet.has selected x) eqn:E.
    + destruct selected as [|y selected]; [discriminate E|].
      simpl List.length; rewrite Z.gtb_ltb; apply Z.ltb_lt; lia.
    + rewrite length_app; simpl List.length.
      rewrite Z.gtb_ltb; apply Z.ltb_lt; lia.
Qed.
End PanelButtons.
